(** * imgshrink: the compression pipeline of [internal/compressor] and
    [internal/api]

    A shallow embedding of the Go sources

      - [internal/compressor/compressor.go] (formats, output paths,
        reduction),
      - [internal/compressor/jpeg.go], [internal/compressor/png.go]
        (the two encoders, the resize rule, the size estimate),
      - [internal/api/api.go] (format dispatch, the concurrent batch, the
        directory scan, validation and preview),
      - of the callers, [Model.AddFiles] of the terminal interface,

    followed by the properties of the pipeline that the design document
    states about them, and by further properties of the code.

    Conventions.  Go's [int] (64 bits wide on the platforms the tool is
    built for) and [int64] are [Z]; where the code adds two of them the
    64-bit wrap-around is written out ([wrap64]).  Go's
    [float64] is IEEE-754 binary64, taken from the standard library's
    executable specification [SpecFloat] (precision 53, [emax] 1024), every
    operation rounded to nearest-even on its own.  Go strings are byte
    strings ([string]).  A function that returns [(T, error)] returns a
    pair or a sum; a [nil] pointer is [None]. *)

From Stdlib Require Import ZArith List String Ascii Bool Lia SpecFloat.
From Stdlib Require Import Permutation.
From Stdlib Require Import DecimalString.
Import ListNotations.
Open Scope Z_scope.

(* ===================================================================== *)
(** * Part I: the embedding                                               *)
(* ===================================================================== *)

(** ** Machine integers *)

Definition int64_min : Z := - 2 ^ 63.
Definition int64_max : Z := 2 ^ 63 - 1.

(** The value of a 64-bit two's complement addition or increment. *)
Definition wrap64 (z : Z) : Z := (z + 2 ^ 63) mod 2 ^ 64 - 2 ^ 63.

Definition in_int64 (z : Z) : bool := (int64_min <=? z) && (z <=? int64_max).

(** ** float64 *)

Module Float64.

Definition float64 : Type := spec_float.

Definition prec : Z := 53.
Definition emax : Z := 1024.

Definition add : float64 -> float64 -> float64 := SFadd prec emax.
Definition sub : float64 -> float64 -> float64 := SFsub prec emax.
Definition mul : float64 -> float64 -> float64 := SFmul prec emax.
Definition div : float64 -> float64 -> float64 := SFdiv prec emax.

(** [x > y] and [x < y] of Go: false as soon as one side is a NaN. *)
Definition ltb : float64 -> float64 -> bool := SFltb.
Definition gtb (x y : float64) : bool := SFltb y x.

(** The conversion [float64(n)] of an integer, rounded to nearest-even
    when [n] has more than 53 significant bits. *)
Definition of_int (n : Z) : float64 := binary_normalize prec emax n 0 false.

(** A decimal constant of the source, [n / d] rounded once: Go evaluates
    constants exactly and rounds them when they meet a [float64]. *)
Definition const (n d : Z) : float64 := div (of_int n) (of_int d).

Definition zero : float64 := S754_zero false.
Definition one : float64 := of_int 1.
Definition hundred : float64 := of_int 100.
Definition c0_1 : float64 := const 1 10.
Definition c0_4 : float64 := const 4 10.
Definition c0_05 : float64 := const 5 100.

(** The integer part of a finite float, towards zero. *)
Definition magnitude (m : positive) (e : Z) : Z :=
  match e with
  | Zneg p => Z.shiftr (Zpos m) (Zpos p)
  | _ => Z.shiftl (Zpos m) e
  end.

Definition trunc (f : float64) : option Z :=
  match f with
  | S754_zero _ => Some 0
  | S754_finite s m e => Some (cond_Zopp s (magnitude m e))
  | S754_infinity _ | S754_nan => None
  end.

(** The integer part of a finite float, towards minus infinity. *)
Definition floor (f : float64) : option Z :=
  match f with
  | S754_zero _ => Some 0
  | S754_finite s m e =>
      Some (match e with
            | Zneg p => Z.div (cond_Zopp s (Zpos m)) (2 ^ Zpos p)
            | _ => cond_Zopp s (Zpos m) * 2 ^ e
            end)
  | S754_infinity _ | S754_nan => None
  end.

(** The conversions [int(f)] and [int64(f)].  Go leaves the result
    implementation-dependent when the truncated value does not fit the
    integer type (NaN and the infinities included); [indef] is what the
    platform yields then (the "integer indefinite" [int64_min] on
    amd64). *)
Definition to_int (indef : Z) (f : float64) : Z :=
  match trunc f with
  | Some z => if in_int64 z then z else indef
  | None => indef
  end.

(** [floor] with the same treatment of the values that do not fit. *)
Definition floor_int (indef : Z) (f : float64) : Z :=
  match floor f with
  | Some z => if in_int64 z then z else indef
  | None => indef
  end.

(** A float that is strictly below zero. *)
Definition is_negative (f : float64) : bool := ltb f zero.

End Float64.

Import Float64.

(** ** Strings and paths

    [strings.ToLower], [strings.TrimSuffix] and the functions of
    [path/filepath] that the compressor calls, as they behave on Unix
    (separator ['/'], no volume names).  They work on the bytes of the
    string. *)

Module Filepath.

Definition bytes := list ascii.

Definition sep : ascii := "/"%char.
Definition dot : ascii := "."%char.

Definition is_sep (c : ascii) : bool := Ascii.eqb c sep.
Definition is_dot (c : ascii) : bool := Ascii.eqb c dot.

Definition bytes_eqb (a b : bytes) : bool :=
  String.eqb (string_of_list_ascii a) (string_of_list_ascii b).

(** [strings.ToLower] on the ASCII letters; the three extensions it is
    compared with are made of ASCII letters only. *)
Definition lower_byte (c : ascii) : ascii :=
  let n := nat_of_ascii c in
  if (Nat.leb 65 n && Nat.leb n 90)%bool then ascii_of_nat (n + 32) else c.

Definition ToLower (s : string) : string :=
  string_of_list_ascii (map lower_byte (list_ascii_of_string s)).

(** [Ext]: walk back from the last byte to the first separator and
    return the suffix that starts at the first dot met. *)
Fixpoint ext_scan (backwards acc : bytes) : bytes :=
  match backwards with
  | [] => []
  | c :: rest =>
      if is_sep c then []
      else if is_dot c then c :: acc
      else ext_scan rest (c :: acc)
  end.

Definition ext_bytes (p : bytes) : bytes := ext_scan (rev p) [].

Definition Ext (path : string) : string :=
  string_of_list_ascii (ext_bytes (list_ascii_of_string path)).

(** The bytes after the last separator, read from a reversed path. *)
Fixpoint last_elem_rev (backwards acc : bytes) : bytes :=
  match backwards with
  | [] => acc
  | c :: rest => if is_sep c then acc else last_elem_rev rest (c :: acc)
  end.

(** The bytes up to and including the last separator, reversed. *)
Fixpoint upto_last_sep_rev (backwards : bytes) : bytes :=
  match backwards with
  | [] => []
  | c :: rest => if is_sep c then backwards else upto_last_sep_rev rest
  end.

Fixpoint strip_seps (backwards : bytes) : bytes :=
  match backwards with
  | [] => []
  | c :: rest => if is_sep c then strip_seps rest else backwards
  end.

(** [Base]: the last element of the path, trailing separators removed
    first; ["."] for the empty path, ["/"] for a path of separators. *)
Definition base_bytes (p : bytes) : bytes :=
  match p with
  | [] => [dot]
  | _ =>
      match last_elem_rev (strip_seps (rev p)) [] with
      | [] => [sep]
      | b => b
      end
  end.

Definition Base (path : string) : string :=
  string_of_list_ascii (base_bytes (list_ascii_of_string path)).

(** [strings.TrimSuffix]. *)
Fixpoint strip_prefix (pre s : bytes) : option bytes :=
  match pre, s with
  | [], _ => Some s
  | a :: pre', b :: s' => if Ascii.eqb a b then strip_prefix pre' s' else None
  | _ :: _, [] => None
  end.

Definition trim_suffix_bytes (s suffix : bytes) : bytes :=
  match strip_prefix (rev suffix) (rev s) with
  | Some r => rev r
  | None => s
  end.

Definition TrimSuffix (s suffix : string) : string :=
  string_of_list_ascii
    (trim_suffix_bytes (list_ascii_of_string s) (list_ascii_of_string suffix)).

(** The elements of a path between separators. *)
Fixpoint split_elems (p cur : bytes) : list bytes :=
  match p with
  | [] => [rev cur]
  | c :: rest =>
      if is_sep c then rev cur :: split_elems rest [] else split_elems rest (c :: cur)
  end.

(** [Clean] keeps a count of leading [".."] elements that cannot be
    removed ([dotdot] in the Go code) and the real elements written
    after them, last one first. *)
Record cleaned := { updirs : nat; reals : list bytes }.

Definition clean_step (rooted : bool) (st : cleaned) (el : bytes) : cleaned :=
  if bytes_eqb el [] then st
  else if bytes_eqb el [dot] then st
  else if bytes_eqb el [dot; dot] then
    match reals st with
    | _ :: below => {| updirs := updirs st; reals := below |}
    | [] => if rooted then st else {| updirs := S (updirs st); reals := [] |}
    end
  else {| updirs := updirs st; reals := el :: reals st |}.

Fixpoint join_elems (els : list bytes) : bytes :=
  match els with
  | [] => []
  | [e] => e
  | e :: rest => e ++ sep :: join_elems rest
  end.

Definition clean_bytes (p : bytes) : bytes :=
  match p with
  | [] => [dot]
  | c :: _ =>
      let rooted := is_sep c in
      let st := fold_left (clean_step rooted) (split_elems p [])
                          {| updirs := 0; reals := [] |} in
      let body := join_elems (repeat [dot; dot] (updirs st) ++ rev (reals st)) in
      if rooted then sep :: body
      else match body with [] => [dot] | _ => body end
  end.

Definition Clean (path : string) : string :=
  string_of_list_ascii (clean_bytes (list_ascii_of_string path)).

(** [Dir]: everything up to the last separator, cleaned. *)
Definition Dir (path : string) : string :=
  string_of_list_ascii
    (clean_bytes (rev (upto_last_sep_rev (rev (list_ascii_of_string path))))).

(** [Join]: the elements from the first non-empty one on, separated by
    ['/'], cleaned; the empty string when all are empty. *)
Fixpoint Join (elem : list string) : string :=
  match elem with
  | [] => EmptyString
  | e :: rest =>
      if String.eqb e EmptyString then Join rest
      else Clean (String.concat "/" elem)
  end.

End Filepath.

Import Filepath.
Open Scope string_scope.
Open Scope Z_scope.

(** ** compressor.go: the data model *)

(** Go's [error]: the message.  [fmt.Errorf("msg: %w", err)] prefixes the
    message of the error it wraps. *)
Definition error : Type := string.

Definition Errorf (msg : string) (err : error) : error := msg ++ ": " ++ err.

Definition ImageFormat : Type := string.

Definition FormatJPEG : ImageFormat := "jpeg".
Definition FormatPNG : ImageFormat := "png".

Record CompressionOptions := {
  Quality : Z;
  ResizePercent : float64;
  ResizeWidth : Z;
  ResizeHeight : Z;
  StripMetadata : bool;
  OutputDir : string;
  OutputSuffix : string;
  Progressive : bool;
  ChromaSubsample : string;
  CompressionLevel : Z;
  Interlaced : bool
}.

Definition DefaultOptions : CompressionOptions :=
  {| Quality := 85;
     ResizePercent := zero;
     ResizeWidth := 0;
     ResizeHeight := 0;
     StripMetadata := true;
     OutputDir := "";
     OutputSuffix := "_compressed";
     Progressive := true;
     ChromaSubsample := "4:2:0";
     CompressionLevel := 6;
     Interlaced := false |}.

Module Info.

Record ImageInfo := {
  Path : string;
  Format : ImageFormat;
  Width : Z;
  Height : Z;
  Size : Z;
  ColorMode : string
}.

End Info.

Abbreviation ImageInfo := Info.ImageInfo.

Module Result.

Record CompressionResult := {
  InputPath : string;
  OutputPath : string;
  InputSize : Z;
  OutputSize : Z;
  Reduction : float64;
  Width : Z;
  Height : Z;
  Success : bool;
  Error : option error
}.

(** [&CompressionResult{InputPath: inputPath, Success: false}]: the
    other fields hold their zero values. *)
Definition new (inputPath : string) : CompressionResult :=
  {| InputPath := inputPath; OutputPath := ""; InputSize := 0;
     OutputSize := 0; Reduction := zero; Width := 0; Height := 0;
     Success := false; Error := None |}.

(** Field assignments [result.F = v]. *)
Definition set_Error (r : CompressionResult) (v : option error) :=
  {| InputPath := InputPath r; OutputPath := OutputPath r;
     InputSize := InputSize r; OutputSize := OutputSize r;
     Reduction := Reduction r; Width := Width r; Height := Height r;
     Success := Success r; Error := v |}.

Definition set_InputSize (r : CompressionResult) (v : Z) :=
  {| InputPath := InputPath r; OutputPath := OutputPath r;
     InputSize := v; OutputSize := OutputSize r;
     Reduction := Reduction r; Width := Width r; Height := Height r;
     Success := Success r; Error := Error r |}.

Definition set_OutputSize (r : CompressionResult) (v : Z) :=
  {| InputPath := InputPath r; OutputPath := OutputPath r;
     InputSize := InputSize r; OutputSize := v;
     Reduction := Reduction r; Width := Width r; Height := Height r;
     Success := Success r; Error := Error r |}.

Definition set_Bounds (r : CompressionResult) (w h : Z) :=
  {| InputPath := InputPath r; OutputPath := OutputPath r;
     InputSize := InputSize r; OutputSize := OutputSize r;
     Reduction := Reduction r; Width := w; Height := h;
     Success := Success r; Error := Error r |}.

Definition set_OutputPath (r : CompressionResult) (v : string) :=
  {| InputPath := InputPath r; OutputPath := v;
     InputSize := InputSize r; OutputSize := OutputSize r;
     Reduction := Reduction r; Width := Width r; Height := Height r;
     Success := Success r; Error := Error r |}.

Definition set_Reduction (r : CompressionResult) (v : float64) :=
  {| InputPath := InputPath r; OutputPath := OutputPath r;
     InputSize := InputSize r; OutputSize := OutputSize r;
     Reduction := v; Width := Width r; Height := Height r;
     Success := Success r; Error := Error r |}.

Definition set_Success (r : CompressionResult) (v : bool) :=
  {| InputPath := InputPath r; OutputPath := OutputPath r;
     InputSize := InputSize r; OutputSize := OutputSize r;
     Reduction := Reduction r; Width := Width r; Height := Height r;
     Success := v; Error := Error r |}.

End Result.

Import Result.

(** ** compressor.go: pure functions *)

(** [GetImageFormat]: the format named by the lower-cased extension. *)
Definition GetImageFormat (path : string) : error + ImageFormat :=
  let ext := ToLower (Ext path) in
  if (String.eqb ext ".jpg" || String.eqb ext ".jpeg")%bool then inr FormatJPEG
  else if String.eqb ext ".png" then inr FormatPNG
  else inl ("unsupported image format: " ++ ext).

(** [GenerateOutputPath]. *)
Definition GenerateOutputPath (inputPath : string) (options : CompressionOptions)
  : string :=
  let dir := Dir inputPath in
  let dir := if negb (String.eqb (OutputDir options) "") then OutputDir options
             else dir in
  let ext := Ext inputPath in
  let base := TrimSuffix (Base inputPath) ext in
  Join [dir; base ++ OutputSuffix options ++ ext].

(** [CalculateReduction]. *)
Definition CalculateReduction (original compressed : Z) : float64 :=
  if (original =? 0)%Z then zero
  else mul (sub one (div (of_int compressed) (of_int original))) hundred.

(** ** The collaborators outside the repository

    The operating system, the image codecs and the resampler
    ([os], [image], [image/jpeg], [image/png],
    [github.com/disintegration/imaging]) are an interface; the pipeline is
    defined and verified for every implementation of it.  Operations that
    only read the file system take the [World]; the others also return the
    new one. *)

Variant png_CompressionLevel :=
  | png_NoCompression
  | png_BestSpeed
  | png_DefaultCompression
  | png_BestCompression.

Class Platform := {
  World : Type;
  Image : Type;
  File : Type;
  (** what [int(f)] yields when [f] does not fit *)
  int_indefinite : Z;
  (** [img.Bounds().Dx()], [img.Bounds().Dy()] *)
  Bounds_Dx : Image -> Z;
  Bounds_Dy : Image -> Z;
  (** [os.Stat(path)] followed by [.Size()] *)
  os_Stat : string -> World -> error + Z;
  (** [imaging.Open(path, imaging.AutoOrientation(true))] *)
  imaging_Open : string -> World -> error + Image;
  (** [imaging.Resize(img, w, h, imaging.Lanczos)] *)
  imaging_Resize : Image -> Z -> Z -> Image;
  (** [os.MkdirAll(dir, 0755)] *)
  os_MkdirAll : string -> World -> option error * World;
  os_Create : string -> World -> (error + File) * World;
  File_Close : File -> World -> World;
  (** [jpeg.Encode(f, img, &jpeg.Options{Quality: q})] *)
  jpeg_Encode : File -> Image -> Z -> World -> option error * World;
  (** [(&png.Encoder{CompressionLevel: l}).Encode(f, img)] *)
  png_Encode : File -> Image -> png_CompressionLevel -> World -> option error * World;
  os_Open : string -> World -> error + File;
  (** [file.Stat()] followed by [.Size()] *)
  File_Stat : File -> World -> error + Z;
  (** [image.DecodeConfig(file)]: width, height and format name *)
  image_DecodeConfig : File -> World -> (error + (Z * Z * string)) * World
}.

(** ** Calls that read or change the file system, with early return

    A Go function body runs against the [World] and either reaches a
    [return] (left) or hands a value to the statements that follow
    (right). *)

Module Body.
Section Body.
Context {P : Platform}.
Context {R : Type}.   (* what the function returns *)

Definition body (A : Type) : Type := World -> (R + A) * World.

Definition pure {A} (a : A) : body A := fun w => (inr a, w).

Definition bind {A B} (c : body A) (k : A -> body B) : body B :=
  fun w =>
    match c w with
    | (inl r, w') => (inl r, w')
    | (inr a, w') => k a w'
    end.

(** [return r]. *)
Definition return_ {A} (r : R) : body A := fun w => (inl r, w).

(** A call that only reads the world. *)
Definition read {A} (f : World -> A) : body A := fun w => (inr (f w), w).

(** A call that changes the world. *)
Definition call {A} (f : World -> A * World) : body A :=
  fun w => let '(a, w') := f w in (inr a, w').

(** [defer f.Close()]: runs when the rest of the body has returned. *)
Definition defer_Close (f : File) (rest : body R) : body R :=
  fun w => let '(r, w') := rest w in (r, File_Close f w').

(** The function itself: the value returned and the world left. *)
Definition run (c : body R) : World -> R * World :=
  fun w =>
    match c w with
    | (inl r, w') => (r, w')
    | (inr r, w') => (r, w')
    end.

End Body.
End Body.

Import Body.

Declare Scope body_scope.
Delimit Scope body_scope with body.
Notation "x <- c ;; k" := (bind c (fun x => k))
  (at level 61, c at next level, right associativity) : body_scope.

(** ** jpeg.go and png.go *)

Section Compressor.
Context {P : Platform}.

(** [applyResize] (jpeg.go, used by both encoders). *)
Definition applyResize (img : Image) (options : CompressionOptions) : Image :=
  let width := Bounds_Dx img in
  let height := Bounds_Dy img in
  if gtb (ResizePercent options) zero && ltb (ResizePercent options) hundred then
    let newWidth :=
      to_int int_indefinite (div (mul (of_int width) (ResizePercent options)) hundred) in
    let newHeight :=
      to_int int_indefinite (div (mul (of_int height) (ResizePercent options)) hundred) in
    imaging_Resize img newWidth newHeight
  else if (ResizeWidth options >? 0) || (ResizeHeight options >? 0) then
    let newWidth := ResizeWidth options in
    let newHeight := ResizeHeight options in
    if (newWidth =? 0)%Z then
      let ratio := div (of_int newHeight) (of_int height) in
      let newWidth := to_int int_indefinite (mul (of_int width) ratio) in
      imaging_Resize img newWidth newHeight
    else if (newHeight =? 0)%Z then
      let ratio := div (of_int newWidth) (of_int width) in
      let newHeight := to_int int_indefinite (mul (of_int height) ratio) in
      imaging_Resize img newWidth newHeight
    else imaging_Resize img newWidth newHeight
  else img.

(** What the failing branches of [Compress] do:
    [result.Error = fmt.Errorf(...); return result, result.Error]. *)
Definition fail {A} (result : CompressionResult) (msg : string) (err : error)
  : body (R := CompressionResult * option error) A :=
  let result := set_Error result (Some (Errorf msg err)) in
  return_ (result, Error result).

(** [GetImageInfo] (compressor.go). *)
Definition GetImageInfo (path : string) : World -> (error + ImageInfo) * World :=
  run (
    opened <- read (os_Open path) ;;
    match opened with
    | inl err => return_ (inl (Errorf "failed to open file" err))
    | inr file =>
      defer_Close file (
        stat <- read (File_Stat file) ;;
        match stat with
        | inl err => return_ (inl (Errorf "failed to get file stats" err))
        | inr size =>
          decoded <- call (image_DecodeConfig file) ;;
          match decoded with
          | inl err => return_ (inl (Errorf "failed to decode image config" err))
          | inr (cw, ch, format) =>
            let found :=
              match GetImageFormat path with
              | inr imgFormat => inr imgFormat
              | inl _ =>
                  if String.eqb format "jpeg" then inr FormatJPEG
                  else if String.eqb format "png" then inr FormatPNG
                  else inl ("unsupported format: " ++ format)
              end in
            match found with
            | inl err => return_ (inl err)
            | inr imgFormat =>
              return_ (inr {| Info.Path := path; Info.Format := imgFormat;
                              Info.Width := cw; Info.Height := ch;
                              Info.Size := size; Info.ColorMode := format |})
            end
          end
        end)
    end)%body.

(** The resize factor of both estimates. *)
Definition resizeFactor (options : CompressionOptions) : float64 :=
  if gtb (ResizePercent options) zero && ltb (ResizePercent options) hundred then
    mul (div (ResizePercent options) hundred) (div (ResizePercent options) hundred)
  else one.

End Compressor.

Module JPEGCompressor.
Section JPEGCompressor.
Context {P : Platform}.

Definition Compress (inputPath : string) (options : CompressionOptions)
  : World -> (CompressionResult * option error) * World :=
  run (
    let result := Result.new inputPath in
    inputInfo <- read (os_Stat inputPath) ;;
    match inputInfo with
    | inl err => fail result "failed to get input file info" err
    | inr inputSize =>
      let result := set_InputSize result inputSize in
      opened <- read (imaging_Open inputPath) ;;
      match opened with
      | inl err => fail result "failed to open image" err
      | inr img =>
        let img := applyResize img options in
        let result := set_Bounds result (Bounds_Dx img) (Bounds_Dy img) in
        let outputPath := GenerateOutputPath inputPath options in
        let result := set_OutputPath result outputPath in
        made <- (if negb (String.eqb (OutputDir options) "")
                 then call (os_MkdirAll (OutputDir options))
                 else pure None) ;;
        match made with
        | Some err => fail result "failed to create output directory" err
        | None =>
          created <- call (os_Create outputPath) ;;
          match created with
          | inl err => fail result "failed to create output file" err
          | inr outFile =>
            defer_Close outFile (
              encoded <- call (jpeg_Encode outFile img (Quality options)) ;;
              match encoded with
              | Some err => fail result "failed to encode JPEG" err
              | None =>
                outInfo <- read (os_Stat outputPath) ;;
                match outInfo with
                | inl err => fail result "failed to get output file info" err
                | inr outputSize =>
                  let result := set_OutputSize result outputSize in
                  let result :=
                    set_Reduction result
                      (CalculateReduction (InputSize result) (OutputSize result)) in
                  let result := set_Success result true in
                  return_ (result, None)
                end
              end)
          end
        end
      end
    end)%body.

Definition EstimateSize (inputPath : string) (options : CompressionOptions)
  : World -> (Z * option error) * World :=
  run (
    got <- call (GetImageInfo inputPath) ;;
    match got with
    | inl err => return_ (0, Some err)
    | inr info =>
      let qualityFactor := div (of_int (Quality options)) hundred in
      let baseRatio := add c0_1 (mul qualityFactor c0_4) in
      let resizeFactor := resizeFactor options in
      let estimatedSize := mul (mul (of_int (Info.Size info)) baseRatio) resizeFactor in
      return_ (to_int int_indefinite estimatedSize, None)
    end)%body.

End JPEGCompressor.
End JPEGCompressor.

Module PNGCompressor.
Section PNGCompressor.
Context {P : Platform}.

(** The [switch] that maps the level 0-9 to the encoder's four tiers. *)
Definition compressionLevel (options : CompressionOptions) : png_CompressionLevel :=
  if CompressionLevel options <=? 0 then png_NoCompression
  else if CompressionLevel options <=? 3 then png_BestSpeed
  else if CompressionLevel options <=? 6 then png_DefaultCompression
  else png_BestCompression.

Definition Compress (inputPath : string) (options : CompressionOptions)
  : World -> (CompressionResult * option error) * World :=
  run (
    let result := Result.new inputPath in
    inputInfo <- read (os_Stat inputPath) ;;
    match inputInfo with
    | inl err => fail result "failed to get input file info" err
    | inr inputSize =>
      let result := set_InputSize result inputSize in
      opened <- read (imaging_Open inputPath) ;;
      match opened with
      | inl err => fail result "failed to open image" err
      | inr img =>
        let img := applyResize img options in
        let result := set_Bounds result (Bounds_Dx img) (Bounds_Dy img) in
        let outputPath := GenerateOutputPath inputPath options in
        let result := set_OutputPath result outputPath in
        made <- (if negb (String.eqb (OutputDir options) "")
                 then call (os_MkdirAll (OutputDir options))
                 else pure None) ;;
        match made with
        | Some err => fail result "failed to create output directory" err
        | None =>
          created <- call (os_Create outputPath) ;;
          match created with
          | inl err => fail result "failed to create output file" err
          | inr outFile =>
            defer_Close outFile (
              encoded <- call (png_Encode outFile img (compressionLevel options)) ;;
              match encoded with
              | Some err => fail result "failed to encode PNG" err
              | None =>
                outInfo <- read (os_Stat outputPath) ;;
                match outInfo with
                | inl err => fail result "failed to get output file info" err
                | inr outputSize =>
                  let result := set_OutputSize result outputSize in
                  let result :=
                    set_Reduction result
                      (CalculateReduction (InputSize result) (OutputSize result)) in
                  let result := set_Success result true in
                  return_ (result, None)
                end
              end)
          end
        end
      end
    end)%body.

Definition EstimateSize (inputPath : string) (options : CompressionOptions)
  : World -> (Z * option error) * World :=
  run (
    got <- call (GetImageInfo inputPath) ;;
    match got with
    | inl err => return_ (0, Some err)
    | inr info =>
      let compressionFactor :=
        sub one (mul (of_int (CompressionLevel options)) c0_05) in
      let resizeFactor := resizeFactor options in
      let estimatedSize :=
        mul (mul (of_int (Info.Size info)) compressionFactor) resizeFactor in
      return_ (to_int int_indefinite estimatedSize, None)
    end)%body.

End PNGCompressor.
End PNGCompressor.

(** ** The steps of [Compress]

    What [Compress] returns when the step with the message [msg] has
    failed with [err]: a result that is not successful and carries the
    wrapped error, and that same error next to it. *)
Definition failed_with (msg : string) (err : error)
  (returned : CompressionResult * option error) : Prop :=
  Success (fst returned) = false /\
  Error (fst returned) = Some (Errorf msg err) /\
  snd returned = Some (Errorf msg err).

Section Steps.
Context {P : Platform}.

(** The directory step has gone through and left [w1]: [os.MkdirAll] is
    called only when an output directory is set. *)
Definition directory_made (options : CompressionOptions) (w w1 : World) : Prop :=
  if String.eqb (OutputDir options) ""
  then w1 = w
  else os_MkdirAll (OutputDir options) w = (None, w1).

End Steps.

(** ** api.go *)

Module Batch.

(** [BatchResult].  [Results] holds pointers, so an entry can be [nil]. *)
Record BatchResult := {
  Results : list (option CompressionResult);
  TotalInput : Z;
  TotalOutput : Z;
  TotalReduction : float64;
  SuccessCount : Z;
  FailCount : Z
}.

(** [&BatchResult{Results: make([]*CompressionResult, 0, len(inputPaths))}] *)
Definition new : BatchResult :=
  {| Results := []; TotalInput := 0; TotalOutput := 0; TotalReduction := zero;
     SuccessCount := 0; FailCount := 0 |}.

Definition set_Results (b : BatchResult) (v : list (option CompressionResult)) :=
  {| Results := v; TotalInput := TotalInput b; TotalOutput := TotalOutput b;
     TotalReduction := TotalReduction b; SuccessCount := SuccessCount b;
     FailCount := FailCount b |}.

Definition set_TotalReduction (b : BatchResult) (v : float64) :=
  {| Results := Results b; TotalInput := TotalInput b;
     TotalOutput := TotalOutput b; TotalReduction := v;
     SuccessCount := SuccessCount b; FailCount := FailCount b |}.

(** The statements between [mu.Lock()] and [mu.Unlock()] when [result]
    is not [nil]. *)
Definition update (b : BatchResult) (result : CompressionResult) : BatchResult :=
  let b := set_Results b (Results b ++ [Some result])%list in
  if Success result then
    {| Results := Results b;
       SuccessCount := wrap64 (SuccessCount b + 1);
       TotalInput := wrap64 (TotalInput b + InputSize result);
       TotalOutput := wrap64 (TotalOutput b + OutputSize result);
       TotalReduction := TotalReduction b;
       FailCount := FailCount b |}
  else
    {| Results := Results b;
       SuccessCount := SuccessCount b;
       TotalInput := TotalInput b;
       TotalOutput := TotalOutput b;
       TotalReduction := TotalReduction b;
       FailCount := wrap64 (FailCount b + 1) |}.

(** The same statements when [result] is [nil]: the append is done, then
    [result.Success] dereferences the [nil] pointer. *)
Definition update_nil (b : BatchResult) : BatchResult :=
  set_Results b (Results b ++ [None])%list.

(** The statements after [wg.Wait()]. *)
Definition finish (b : BatchResult) : BatchResult :=
  if TotalInput b >? 0 then
    set_TotalReduction b (CalculateReduction (TotalInput b) (TotalOutput b))
  else b.

(** Where a worker goroutine stands: the statement it executes next. *)
Variant pc :=
  | AtAcquire                                   (* semaphore <- struct{}{} *)
  | AtCompress                                  (* api.CompressImage(...) *)
  | AtLock (result : option CompressionResult)  (* mu.Lock() *)
  | AtUpdate (result : option CompressionResult)
  | AtUnlock (result : CompressionResult)       (* mu.Unlock() *)
  | AtSend (result : CompressionResult)         (* progressChan <- result *)
  | AtRelease                                   (* <-semaphore; wg.Done() *)
  | Finished.

Record goroutine := { inputPath : string; at_ : pc }.

Definition move (g : goroutine) (to : pc) : goroutine :=
  {| inputPath := inputPath g; at_ := to |}.

(** The slots of the admission gate: [make(chan struct{}, 4)]. *)
Definition capacity : Z := 4.

(** A goroutine between its acquire and its release. *)
Definition holds_slot (g : goroutine) : bool :=
  match at_ g with
  | AtAcquire | Finished => false
  | _ => true
  end.

(** A goroutine whose decode/resize/encode pipeline is running. *)
Definition in_flight (g : goroutine) : bool :=
  match at_ g with
  | AtCompress => true
  | _ => false
  end.

(** A goroutine that has appended its result. *)
Definition has_recorded (g : goroutine) : bool :=
  match at_ g with
  | AtUnlock _ | AtSend _ | AtRelease | Finished => true
  | _ => false
  end.

Definition count (f : goroutine -> bool) (gs : list goroutine) : Z :=
  Z.of_nat (List.length (filter f gs)).

End Batch.

Import Batch.

Section API.
Context {P : Platform}.

(** [ImageAPI.CompressImage]. *)
Definition CompressImage (inputPath : string) (options : CompressionOptions)
  : World -> (option CompressionResult * option error) * World :=
  fun w =>
    match GetImageFormat inputPath with
    | inl err => ((None, Some err), w)
    | inr format =>
        if String.eqb format FormatJPEG then
          let '((result, err), w') := JPEGCompressor.Compress inputPath options w in
          ((Some result, err), w')
        else if String.eqb format FormatPNG then
          let '((result, err), w') := PNGCompressor.Compress inputPath options w in
          ((Some result, err), w')
        else ((None, Some ("unsupported format: " ++ format)), w)
    end.

(** [ImageAPI.EstimateSize]. *)
Definition EstimateSize (inputPath : string) (options : CompressionOptions)
  : World -> (Z * option error) * World :=
  fun w =>
    match GetImageFormat inputPath with
    | inl err => ((0, Some err), w)
    | inr format =>
        if String.eqb format FormatJPEG then
          JPEGCompressor.EstimateSize inputPath options w
        else if String.eqb format FormatPNG then
          PNGCompressor.EstimateSize inputPath options w
        else ((0, Some ("unsupported format: " ++ format)), w)
    end.

(** *** [ImageAPI.BatchCompress]

    One goroutine per input path; a goroutine that is not yet started
    stands before its first statement.  The goroutines interleave
    statement by statement; a call of [CompressImage] is one statement.
    What they share: the semaphore channel (its length), the mutex, the
    [BatchResult], the values pushed to the progress channel, the file
    system, and whether the process has panicked. *)

Record shared := {
  semaphore : Z;
  mu : bool;
  batchResult : BatchResult;
  sent : list CompressionResult;
  world : World;
  panicked : bool
}.

Definition set_semaphore (sh : shared) (v : Z) :=
  {| semaphore := v; mu := mu sh; batchResult := batchResult sh;
     sent := sent sh; world := world sh; panicked := panicked sh |}.
Definition set_mu (sh : shared) (v : bool) :=
  {| semaphore := semaphore sh; mu := v; batchResult := batchResult sh;
     sent := sent sh; world := world sh; panicked := panicked sh |}.
Definition set_batchResult (sh : shared) (v : BatchResult) :=
  {| semaphore := semaphore sh; mu := mu sh; batchResult := v;
     sent := sent sh; world := world sh; panicked := panicked sh |}.
Definition set_sent (sh : shared) (v : list CompressionResult) :=
  {| semaphore := semaphore sh; mu := mu sh; batchResult := batchResult sh;
     sent := v; world := world sh; panicked := panicked sh |}.
Definition set_world (sh : shared) (v : World) :=
  {| semaphore := semaphore sh; mu := mu sh; batchResult := batchResult sh;
     sent := sent sh; world := v; panicked := panicked sh |}.
Definition set_panicked (sh : shared) (v : bool) :=
  {| semaphore := semaphore sh; mu := mu sh; batchResult := batchResult sh;
     sent := sent sh; world := world sh; panicked := v |}.

Section Run.
Variable options : CompressionOptions.
(** [progressChan != nil] *)
Variable progressChan : bool.

(** The next statement of goroutine [g]; [None] when it blocks (a full
    semaphore, a held mutex), has returned, or the process is gone. *)
Definition act (g : goroutine) (sh : shared) : option (goroutine * shared) :=
  if panicked sh then None
  else
    match at_ g with
    | AtAcquire =>
        if semaphore sh <? capacity
        then Some (move g AtCompress, set_semaphore sh (semaphore sh + 1))
        else None
    | AtCompress =>
        let '((result, _), w') := CompressImage (inputPath g) options (world sh) in
        Some (move g (AtLock result), set_world sh w')
    | AtLock result =>
        if mu sh then None
        else Some (move g (AtUpdate result), set_mu sh true)
    | AtUpdate (Some result) =>
        Some (move g (AtUnlock result),
              set_batchResult sh (update (batchResult sh) result))
    | AtUpdate None =>
        Some (g, set_panicked
                   (set_batchResult sh (update_nil (batchResult sh))) true)
    | AtUnlock result => Some (move g (AtSend result), set_mu sh false)
    | AtSend result =>
        Some (move g AtRelease,
              if progressChan then set_sent sh (sent sh ++ [result])%list else sh)
    | AtRelease =>
        Some (move g Finished, set_semaphore sh (semaphore sh - 1))
    | Finished => None
    end.

(** Goroutine number [i] executes its next statement. *)
Fixpoint fire (i : nat) (gs : list goroutine) (sh : shared)
  : option (list goroutine * shared) :=
  match gs with
  | [] => None
  | g :: rest =>
      match i with
      | O =>
          match act g sh with
          | Some (g', sh') => Some (g' :: rest, sh')
          | None => None
          end
      | S i' =>
          match fire i' rest sh with
          | Some (rest', sh') => Some (g :: rest', sh')
          | None => None
          end
      end
  end.

Definition state : Type := list goroutine * shared.

Definition step (s s' : state) : Prop :=
  exists i, fire i (fst s) (snd s) = Some s'.

(** A schedule names the goroutine that moves at each step. *)
Fixpoint exec (schedule : list nat) (s : state) : option state :=
  match schedule with
  | [] => Some s
  | i :: later =>
      match fire i (fst s) (snd s) with
      | Some s' => exec later s'
      | None => None
      end
  end.

Definition init (inputPaths : list string) (w : World) : state :=
  (map (fun path => {| inputPath := path; at_ := AtAcquire |}) inputPaths,
   {| semaphore := 0; mu := false; batchResult := Batch.new; sent := [];
      world := w; panicked := false |}).

Inductive reachable (s0 : state) : state -> Prop :=
| reachable_start : reachable s0 s0
| reachable_step : forall s s', reachable s0 s -> step s s' -> reachable s0 s'.

(** [wg.Wait()] is over: every goroutine has called [wg.Done()]. *)
Definition all_done (s : state) : Prop :=
  Forall (fun g => at_ g = Finished) (fst s).

(** [BatchCompress] returns [res] on some interleaving. *)
Definition BatchCompress_returns (inputPaths : list string) (w : World)
  (res : BatchResult) : Prop :=
  exists s, reachable (init inputPaths w) s /\ all_done s /\
            panicked (snd s) = false /\ res = finish (batchResult (snd s)).

(** [BatchCompress] ends in a run-time panic on some interleaving. *)
Definition BatchCompress_panics (inputPaths : list string) (w : World) : Prop :=
  exists s, reachable (init inputPaths w) s /\ panicked (snd s) = true.

End Run.

End API.

(** ** Quantities read off the code *)

Section Derived.
Context {P : Platform}.

(** The dimensions [applyResize] hands to the resampler, [None] when it
    returns the image without calling it. *)
Definition resizeRequest (width height : Z) (options : CompressionOptions)
  : option (Z * Z) :=
  if gtb (ResizePercent options) zero && ltb (ResizePercent options) hundred then
    Some (to_int int_indefinite
            (div (mul (of_int width) (ResizePercent options)) hundred),
          to_int int_indefinite
            (div (mul (of_int height) (ResizePercent options)) hundred))
  else if (ResizeWidth options >? 0) || (ResizeHeight options >? 0) then
    if ResizeWidth options =? 0 then
      Some (to_int int_indefinite
              (mul (of_int width)
                   (div (of_int (ResizeHeight options)) (of_int height))),
            ResizeHeight options)
    else if ResizeHeight options =? 0 then
      Some (ResizeWidth options,
            to_int int_indefinite
              (mul (of_int height)
                   (div (of_int (ResizeWidth options)) (of_int width))))
    else Some (ResizeWidth options, ResizeHeight options)
  else None.

(** The target dimensions the code computes for a source of the given
    size. *)
Definition resizeTarget (width height : Z) (options : CompressionOptions)
  : Z * Z :=
  match resizeRequest width height options with
  | Some target => target
  | None => (width, height)
  end.

End Derived.


Definition failed (r : option CompressionResult) : bool :=
  match r with
  | Some result => negb (Success result)
  | None => false
  end.



(** ** The design document's wording

    Definitions that follow the words of the design document, to be
    compared with the ones above that follow the code. *)

Module Spec.
Section Spec.
Context {P : Platform}.

(** "[resizePercent] is in (0, 100)". *)
Definition percent_active (options : CompressionOptions) : bool :=
  ltb zero (ResizePercent options) && ltb (ResizePercent options) hundred.

(** "target = source x percent/100", "floored to integers". *)
Definition scaled (source : Z) (percent : float64) : Z :=
  floor_int int_indefinite (div (mul (of_int source) percent) hundred).

(** "compute the other by scaling the source proportionally to the given
    axis", floored. *)
Definition proportional (source given given_source : Z) : Z :=
  floor_int int_indefinite
    (mul (of_int source) (div (of_int given) (of_int given_source))).

(** Section 4.2, the three rules in order, first match wins. *)
Definition ResizeCalculator (width height : Z) (options : CompressionOptions)
  : Z * Z :=
  if percent_active options then
    (scaled width (ResizePercent options), scaled height (ResizePercent options))
  else if (0 <? ResizeWidth options) || (0 <? ResizeHeight options) then
    if (0 <? ResizeWidth options) && (0 <? ResizeHeight options) then
      (ResizeWidth options, ResizeHeight options)
    else if 0 <? ResizeWidth options then
      (ResizeWidth options, proportional height (ResizeWidth options) width)
    else
      (proportional width (ResizeHeight options) height, ResizeHeight options)
  else (width, height).

(** Section 4.3: "(options.outputDir if non-empty, else the input file's
    directory) / (input base name without extension +
    options.outputSuffix + original extension)". *)
Definition OutputPathGenerator (inputPath stem : string)
  (options : CompressionOptions) : string :=
  Join [ if String.eqb (OutputDir options) "" then Dir inputPath
         else OutputDir options ;
         stem ++ OutputSuffix options ++ Ext inputPath ].

(** Section 4.4: "resizeAreaFactor = (percent/100)^2 when a percent
    resize is active, else 1". *)
Definition resizeAreaFactor (options : CompressionOptions) : float64 :=
  if percent_active options then
    let scale := div (ResizePercent options) hundred in mul scale scale
  else one.


(** "input size x (1 - 0.05 x compressionLevel) x resizeAreaFactor". *)
Definition png_estimate (size : Z) (options : CompressionOptions) : Z :=
  to_int int_indefinite
    (mul (mul (of_int size)
              (sub one (mul c0_05 (of_int (CompressionLevel options)))))
         (resizeAreaFactor options)).

(** "reduction = (1 - outputSize/inputSize) x 100". *)
Definition reduction (inputSize outputSize : Z) : float64 :=
  mul (sub one (div (of_int outputSize) (of_int inputSize))) hundred.

(** Section 4.5, step 3: "skip resampling entirely when target == source":
    the image that goes on to the encoder is the decoded one. *)
Definition resampling_skipped (img : Image) (options : CompressionOptions)
  : Prop :=
  ResizeCalculator (Bounds_Dx img) (Bounds_Dy img) options
  = (Bounds_Dx img, Bounds_Dy img) ->
  applyResize img options = img.

End Spec.
End Spec.

(** ** A small platform to run the pipeline on

    Files are kept in an association list from path to size and decoded
    content; an image records its size and how many times it went through
    the resampler; the encoders write [width * height * quality / 100 + 1]
    bytes. *)

Module Toy.

Record image := { width : Z; height : Z; resampled : nat }.

Record file := { size : Z; content : option image }.

Definition fs : Type := list (string * file).

Fixpoint lookup (path : string) (w : fs) : option file :=
  match w with
  | [] => None
  | (p, f) :: rest => if String.eqb p path then Some f else lookup path rest
  end.

Definition stat (path : string) (w : fs) : error + Z :=
  match lookup path w with
  | Some f => inr (size f)
  | None => inl "no such file or directory"
  end.

Definition open_image (path : string) (w : fs) : error + image :=
  match lookup path w with
  | Some f =>
      match content f with
      | Some img => inr img
      | None => inl "image: unknown format"
      end
  | None => inl "no such file or directory"
  end.

Definition resize (img : image) (w h : Z) : image :=
  {| width := w; height := h; resampled := S (resampled img) |}.

Definition encode (quality : Z) (path : string) (img : image) (w : fs)
  : option error * fs :=
  (None,
   (path, {| size := width img * height img * quality / 100 + 1;
             content := Some img |}) :: w).

Definition png_quality (l : png_CompressionLevel) : Z :=
  match l with
  | png_NoCompression => 400
  | png_BestSpeed => 200
  | png_DefaultCompression => 150
  | png_BestCompression => 120
  end.

Definition decode_config (path : string) (w : fs)
  : (error + (Z * Z * string)) * fs :=
  (match open_image path w with
   | inl err => inl err
   | inr img => inr (width img, height img, "jpeg")
   end, w).

Definition platform : Platform :=
  {| World := fs;
     Image := image;
     File := string;
     int_indefinite := int64_min;
     Bounds_Dx := width;
     Bounds_Dy := height;
     os_Stat := stat;
     imaging_Open := open_image;
     imaging_Resize := resize;
     os_MkdirAll := fun _ w => (None, w);
     os_Create := fun path w => (inr path, (path, {| size := 0; content := None |}) :: w);
     File_Close := fun _ w => w;
     jpeg_Encode := fun f img q w => encode q f img w;
     png_Encode := fun f img l w => encode (png_quality l) f img w;
     os_Open := fun path w =>
                  match lookup path w with
                  | Some _ => inr path
                  | None => inl "no such file or directory"
                  end;
     File_Stat := stat;
     image_DecodeConfig := decode_config |}.

Definition picture (w h : Z) : image :=
  {| width := w; height := h; resampled := 0 |}.

(** Options that ask for a width of 400 and leave the height to the
    aspect ratio, and options that ask for 800 x 600. *)
Definition width_400 : CompressionOptions :=
  {| Quality := 85; ResizePercent := zero; ResizeWidth := 400;
     ResizeHeight := 0; StripMetadata := true; OutputDir := "";
     OutputSuffix := "_compressed"; Progressive := true;
     ChromaSubsample := "4:2:0"; CompressionLevel := 6; Interlaced := false |}.

Definition same_size : CompressionOptions :=
  {| Quality := 85; ResizePercent := zero; ResizeWidth := 800;
     ResizeHeight := 600; StripMetadata := true; OutputDir := "";
     OutputSuffix := "_compressed"; Progressive := true;
     ChromaSubsample := "4:2:0"; CompressionLevel := 6; Interlaced := false |}.

(** A directory with two pictures, a text file and a truncated JPEG. *)
Definition disk : fs :=
  [ ("photos/cat.jpg", {| size := 2000000; content := Some (picture 800 600) |});
    ("photos/dot.png", {| size := 100; content := Some (picture 10 10) |});
    ("photos/notes.txt", {| size := 12; content := None |});
    ("photos/broken.jpg", {| size := 7; content := None |}) ].

(** What the PNG encoder returns for the small picture. *)
Definition dot_result : CompressionResult :=
  Eval vm_compute in
    fst (fst (PNGCompressor.Compress (P := platform) "photos/dot.png"
                DefaultOptions disk)).

(** A batch of three files on that directory; the goroutines take turns,
    and the second file is the first to have its result appended. *)
Definition batch_paths : list string :=
  ["photos/cat.jpg"; "photos/broken.jpg"; "photos/dot.png"].

Definition batch_schedule : list nat :=
  [0; 1; 2; 0; 1; 2; 1; 1; 1; 0; 0; 0; 2; 2; 2; 0; 1; 2; 2; 1; 0]%nat.

Definition batch_run : option (state (P := platform)) :=
  exec (P := platform) DefaultOptions true batch_schedule
    (init (P := platform) batch_paths disk).

Definition batch_final : state (P := platform) :=
  Eval vm_compute in
    match batch_run with
    | Some s => s
    | None => init (P := platform) batch_paths disk
    end.

Definition batch_result : BatchResult :=
  Eval vm_compute in finish (batchResult (snd batch_final)).

(** Five files with four slots: after four acquires the fifth goroutine
    is blocked. *)
Definition five_paths : list string :=
  ["a.jpg"; "b.jpg"; "c.jpg"; "d.jpg"; "e.jpg"].

Definition gate_full_state : state (P := platform) :=
  Eval vm_compute in
    match exec (P := platform) DefaultOptions false [0; 1; 2; 3]%nat
            (init (P := platform) five_paths disk) with
    | Some s => s
    | None => init (P := platform) five_paths disk
    end.

(** A batch with a file whose extension is not supported. *)
Definition mixed_paths : list string :=
  ["photos/cat.jpg"; "photos/notes.txt"; "photos/dot.png"].

End Toy.

(** ** The small platform on a disk that can refuse

    The files of the small platform, and next to them what the disk
    refuses: to make a directory, to create a file, to take the encoded
    bytes; or it loses the file once it is written. *)

Module Worn.

Record disk := {
  files : Toy.fs;
  no_mkdir : bool;
  no_create : bool;
  full : bool;
  loses_output : bool
}.

Definition set_files (d : disk) (w : Toy.fs) : disk :=
  {| files := w; no_mkdir := no_mkdir d; no_create := no_create d;
     full := full d; loses_output := loses_output d |}.

Definition mkdir_all (dir : string) (d : disk) : option error * disk :=
  if no_mkdir d then (Some "permission denied", d) else (None, d).

Definition create (path : string) (d : disk) : (error + string) * disk :=
  if no_create d then (inl "permission denied", d)
  else (inr path,
        set_files d ((path, {| Toy.size := 0; Toy.content := None |}) :: files d)).

Fixpoint remove (path : string) (w : Toy.fs) : Toy.fs :=
  match w with
  | [] => []
  | (p, f) :: rest =>
      if String.eqb p path then remove path rest else (p, f) :: remove path rest
  end.

Definition encode (quality : Z) (path : string) (img : Toy.image) (d : disk)
  : option error * disk :=
  if full d then (Some "no space left on device", d)
  else if loses_output d then (None, set_files d (remove path (files d)))
  else let '(err, w) := Toy.encode quality path img (files d) in (err, set_files d w).

Definition platform : Platform :=
  {| World := disk;
     Image := Toy.image;
     File := string;
     int_indefinite := int64_min;
     Bounds_Dx := Toy.width;
     Bounds_Dy := Toy.height;
     os_Stat := fun path d => Toy.stat path (files d);
     imaging_Open := fun path d => Toy.open_image path (files d);
     imaging_Resize := Toy.resize;
     os_MkdirAll := mkdir_all;
     os_Create := create;
     File_Close := fun _ d => d;
     jpeg_Encode := fun f img q d => encode q f img d;
     png_Encode := fun f img l d => encode (Toy.png_quality l) f img d;
     os_Open := fun path d =>
                  match Toy.lookup path (files d) with
                  | Some _ => inr path
                  | None => inl "no such file or directory"
                  end;
     File_Stat := fun path d => Toy.stat path (files d);
     image_DecodeConfig := fun path d =>
                             (fst (Toy.decode_config path (files d)), d) |}.

(** The directory of the small platform on a disk that works, and on
    disks that refuse one thing each. *)
Definition sound : disk :=
  {| files := Toy.disk; no_mkdir := false; no_create := false; full := false;
     loses_output := false |}.

Definition no_directories : disk :=
  {| files := Toy.disk; no_mkdir := true; no_create := false; full := false;
     loses_output := false |}.

Definition read_only : disk :=
  {| files := Toy.disk; no_mkdir := false; no_create := true; full := false;
     loses_output := false |}.

Definition full_disk : disk :=
  {| files := Toy.disk; no_mkdir := false; no_create := false; full := true;
     loses_output := false |}.

Definition losing : disk :=
  {| files := Toy.disk; no_mkdir := false; no_create := false; full := false;
     loses_output := true |}.

(** The default options with an output directory. *)
Definition into_out : CompressionOptions :=
  Eval cbv in
    {| Quality := Quality DefaultOptions;
       ResizePercent := ResizePercent DefaultOptions;
       ResizeWidth := ResizeWidth DefaultOptions;
       ResizeHeight := ResizeHeight DefaultOptions;
       StripMetadata := StripMetadata DefaultOptions;
       OutputDir := "out";
       OutputSuffix := OutputSuffix DefaultOptions;
       Progressive := Progressive DefaultOptions;
       ChromaSubsample := ChromaSubsample DefaultOptions;
       CompressionLevel := CompressionLevel DefaultOptions;
       Interlaced := Interlaced DefaultOptions |}.

End Worn.

(** ** Predicates used in the properties *)


(** The messages of the steps of [Compress] that can fail. *)
Definition failure_messages (encode_msg : string) : list string :=
  [ "failed to get input file info"; "failed to open image";
    "failed to create output directory"; "failed to create output file";
    encode_msg; "failed to get output file info" ].

(** ** Invariants of the batch

    What holds of the shared [BatchResult] and of the goroutines in every
    state of a run. *)

(** The input paths of the results, in the order of the results. *)
Definition result_paths (results : list (option CompressionResult)) : list string :=
  flat_map (fun r => match r with
                     | Some result => [InputPath result]
                     | None => []
                     end) results.

(** The result a goroutine holds, if it holds one, is for its own path. *)
Definition carries_own_path (g : goroutine) : Prop :=
  match at_ g with
  | AtLock (Some result) | AtUpdate (Some result)
  | AtUnlock result | AtSend result => InputPath result = inputPath g
  | _ => True
  end.

(** A goroutine whose path has no supported extension gets no further
    than the update of the shared result. *)
Definition stuck_before_update (g : goroutine) : Prop :=
  (exists err, GetImageFormat (inputPath g) = inl err) ->
  at_ g = AtAcquire \/ at_ g = AtCompress \/
  at_ g = AtLock None \/ at_ g = AtUpdate None.

Section Invariants.
Context {P : Platform}.

(** The admission gate: the goroutines past their acquire and before
    their release are as many as the values in the semaphore channel. *)
Definition gate_invariant (s : state) : Prop :=
  count holds_slot (fst s) = semaphore (snd s) /\
  0 <= semaphore (snd s) <= capacity.


(** The results appended so far are those of the goroutines that are
    past their update, one each. *)
Definition results_invariant (inputPaths : list string) (s : state) : Prop :=
  let b := batchResult (snd s) in
  map inputPath (fst s) = inputPaths /\
  Forall carries_own_path (fst s) /\
  (panicked (snd s) = false ->
   Forall (fun r => r <> None) (Results b) /\
   Permutation (result_paths (Results b))
               (map inputPath (filter has_recorded (fst s)))).

End Invariants.

(* ===================================================================== *)
(** * Part I, continued: the rest of the code                             *)
(* ===================================================================== *)

(** ** compressor.go: [FormatBytes] *)

(** [fmt.Sprintf("%d", n)]. *)
Definition format_d (n : Z) : string := NilZero.string_of_int (Z.to_int n).

(** The quotient [n / d] rounded to the nearest integer, ties to even. *)
Definition round_half_even (n d : Z) : Z :=
  let q := n / d in
  let r := n mod d in
  if (2 * r >? d) || ((2 * r =? d) && Z.odd q) then q + 1 else q.

(** The magnitude [m * 2^e] in tenths, rounded as [%.1f] rounds: to the
    nearest tenth of the exact value, ties to even. *)
Definition tenths (m : positive) (e : Z) : Z :=
  match e with
  | Zneg p => round_half_even (Zpos m * 10) (2 ^ Zpos p)
  | _ => Zpos m * 2 ^ e * 10
  end.

(** [fmt.Sprintf("%.1f", f)]. *)
Definition format_f1 (f : float64) : string :=
  match f with
  | S754_nan => "NaN"
  | S754_infinity false => "+Inf"
  | S754_infinity true => "-Inf"
  | S754_zero s => (if s then "-" else "") ++ "0.0"
  | S754_finite s m e =>
      let t := tenths m e in
      (if s then "-" else "") ++ format_d (t / 10) ++ "." ++ format_d (t mod 10)
  end.

(** The loop [for n := bytes / unit; n >= unit; n /= unit { div *= unit;
    exp++ }]: the values of [div] and [exp] when it is left; [None] when
    the fuel is used up before the test fails. *)
Fixpoint unit_loop (fuel : nat) (n div exp : Z) : option (Z * Z) :=
  if n >=? 1024 then
    match fuel with
    | O => None
    | S fuel' => unit_loop fuel' (n / 1024) (wrap64 (div * 1024)) (wrap64 (exp + 1))
    end
  else Some (div, exp).

Variant formatted :=
  | Text (s : string)
  | IndexOutOfRange          (* the run-time panic of ["KMGTPE"[exp]] *)
  | Unfinished.              (* the model's loop ran out of fuel *)

(** [FormatBytes].  The loop divides [n] by 1024 each time round, so 64
    rounds are more than any [int64] takes. *)
Definition FormatBytes (bytes : Z) : formatted :=
  if bytes <? 1024 then Text (format_d bytes ++ " B")
  else
    match unit_loop 64 (bytes / 1024) 1024 0 with
    | None => Unfinished
    | Some (div, exp) =>
        if (0 <=? exp) && (exp <? 6) then
          match String.get (Z.to_nat exp) "KMGTPE" with
          | Some c =>
              Text (format_f1 (Float64.div (of_int bytes) (of_int div))
                    ++ " " ++ String c "B")
          | None => IndexOutOfRange
          end
        else IndexOutOfRange
    end.

(** ** api.go: [ValidateImage], [ScanDirectory], [PreviewCompression] *)

(** What [filepath.Walk] finds at a path: a file that is no directory, or
    a directory with the outcome of reading it, the names in the order
    [Walk] visits them (sorted), each with what [os.Lstat] says of it. *)
#[warnings="-register-all"]
Inductive node :=
| Regular
| Directory (listing : error + list (string * (error + node))).

(** Two more collaborators: [os.IsNotExist] on an error that is not
    [nil], and what [os.Lstat] and the directory reads of [filepath.Walk]
    report from a root on. *)
Class FileSystem (P : Platform) := {
  os_IsNotExist : error -> bool;
  os_Lstat : string -> World -> error + node
}.

(** What a [filepath.WalkFunc] returns, and [walk] with it. *)
Variant walk_result :=
  | Continue                  (* nil *)
  | SkipDir                   (* filepath.SkipDir *)
  | Stop (err : error).

Definition is_dir (n : node) : bool :=
  match n with
  | Regular => false
  | Directory _ => true
  end.

Section Walk.

(** The state the walk function closes over. *)
Variable A : Type.

(** [walkFn(path, info, err)]: of [info] only [IsDir()] is read. *)
Variable walkFn : string -> bool -> option error -> A -> walk_result * A.

Section Names.

(** The recursive call [walk(filename, fileInfo, walkFn)]. *)
Variable visit : string -> node -> A -> walk_result * A.

(** The loop [for _, name := range names] of [walk]. *)
Fixpoint walk_names (path : string) (names : list (string * (error + node)))
  (a : A) : walk_result * A :=
  match names with
  | [] => (Continue, a)
  | (name, inl err) :: rest =>
      let filename := Join [path; name] in
      match walkFn filename false (Some err) a with
      | (Stop err, a) => (Stop err, a)
      | (_, a) => walk_names path rest a
      end
  | (name, inr fileInfo) :: rest =>
      let filename := Join [path; name] in
      match visit filename fileInfo a with
      | (Continue, a) => walk_names path rest a
      | (SkipDir, a) =>
          if is_dir fileInfo then walk_names path rest a else (SkipDir, a)
      | (Stop err, a) => (Stop err, a)
      end
  end.

End Names.

(** [filepath.walk]. *)
Fixpoint walk (path : string) (info : node) (a : A) {struct info}
  : walk_result * A :=
  match info with
  | Regular => walkFn path false None a
  | Directory (inl err) => walkFn path true (Some err) a
  | Directory (inr names) =>
      match walkFn path true None a with
      | (Continue, a) => walk_names walk path names a
      | err1 => err1
      end
  end.

(** [filepath.Walk]: [nil] or the error. *)
Definition Walk (lstat : error + node) (root : string) (a : A)
  : option error * A :=
  let '(r, a) :=
    match lstat with
    | inl err => walkFn root false (Some err) a
    | inr info => walk root info a
    end in
  match r with
  | Stop err => (Some err, a)
  | _ => (None, a)
  end.

End Walk.

Arguments walk_names {A}.
Arguments walk {A}.
Arguments Walk {A}.

Module Preview.

Record CompressionPreview := {
  InputPath : string;
  InputSize : Z;
  EstimatedSize : Z;
  EstimatedReduction : float64;
  Format : ImageFormat;
  Width : Z;
  Height : Z;
  NewWidth : Z;
  NewHeight : Z
}.

Definition set_New (p : CompressionPreview) (w h : Z) :=
  {| InputPath := InputPath p; InputSize := InputSize p;
     EstimatedSize := EstimatedSize p;
     EstimatedReduction := EstimatedReduction p; Format := Format p;
     Width := Width p; Height := Height p; NewWidth := w; NewHeight := h |}.

End Preview.

Abbreviation CompressionPreview := Preview.CompressionPreview.

Section API2.
Context {P : Platform}.
Context {F : FileSystem P}.

(** [ImageAPI.ValidateImage]: [nil] or the error. *)
Definition ValidateImage (path : string) : World -> option error * World :=
  fun w =>
    if match os_Stat path w with
       | inl err => os_IsNotExist err
       | inr _ => false
       end
    then (Some ("file does not exist: " ++ path), w)
    else
      match GetImageFormat path with
      | inl err => (Some err, w)
      | inr format =>
          match GetImageInfo path w with
          | (inl err, w') =>
              (Some ("invalid " ++ format ++ " image: " ++ err), w')
          | (inr _, w') => (None, w')
          end
      end.

(** The walk function of [ScanDirectory]; it appends to [images]. *)
Definition scan (dirPath : string) (recursive : bool)
  (path : string) (isDir : bool) (err : option error) (images : list string)
  : walk_result * list string :=
  match err with
  | Some err => (Stop err, images)
  | None =>
      if isDir then
        if negb recursive && negb (String.eqb path dirPath)
        then (SkipDir, images)
        else (Continue, images)
      else
        match GetImageFormat path with
        | inr _ => (Continue, (images ++ [path])%list)
        | inl _ => (Continue, images)
        end
  end.

(** [ImageAPI.ScanDirectory]. *)
Definition ScanDirectory (dirPath : string) (recursive : bool) (w : World)
  : error + list string :=
  match Walk (scan dirPath recursive) (os_Lstat dirPath w) dirPath [] with
  | (Some err, _) => inl (Errorf "failed to scan directory" err)
  | (None, images) => inr images
  end.

(** [ImageAPI.PreviewCompression]. *)
Definition PreviewCompression (inputPath : string) (options : CompressionOptions)
  : World -> (option CompressionPreview * option error) * World :=
  fun w =>
    match GetImageInfo inputPath w with
    | (inl err, w) => ((None, Some err), w)
    | (inr info, w) =>
        match EstimateSize inputPath options w with
        | ((_, Some err), w) => ((None, Some err), w)
        | ((estimatedSize, None), w) =>
            let preview :=
              {| Preview.InputPath := inputPath;
                 Preview.InputSize := Info.Size info;
                 Preview.EstimatedSize := estimatedSize;
                 Preview.EstimatedReduction :=
                   CalculateReduction (Info.Size info) estimatedSize;
                 Preview.Format := Info.Format info;
                 Preview.Width := Info.Width info;
                 Preview.Height := Info.Height info;
                 Preview.NewWidth := Info.Width info;
                 Preview.NewHeight := Info.Height info |} in
            let preview :=
              if gtb (ResizePercent options) zero
                 && ltb (ResizePercent options) hundred then
                Preview.set_New preview
                  (to_int int_indefinite
                     (div (mul (of_int (Info.Width info)) (ResizePercent options))
                          hundred))
                  (to_int int_indefinite
                     (div (mul (of_int (Info.Height info)) (ResizePercent options))
                          hundred))
              else if (ResizeWidth options >? 0) || (ResizeHeight options >? 0) then
                if (ResizeWidth options >? 0) && (ResizeHeight options >? 0) then
                  Preview.set_New preview (ResizeWidth options) (ResizeHeight options)
                else if ResizeWidth options >? 0 then
                  let ratio := div (of_int (ResizeWidth options))
                                   (of_int (Info.Width info)) in
                  Preview.set_New preview (ResizeWidth options)
                    (to_int int_indefinite (mul (of_int (Info.Height info)) ratio))
                else
                  let ratio := div (of_int (ResizeHeight options))
                                   (of_int (Info.Height info)) in
                  Preview.set_New preview
                    (to_int int_indefinite (mul (of_int (Info.Width info)) ratio))
                    (ResizeHeight options)
              else preview in
            ((Some preview, None), w)
        end
    end.

(** ** The terminal interface: [Model.AddFiles] *)

(** [AddFiles]: the files of the home view after the call. *)
Fixpoint AddFiles (files : list string) (homeFiles : list string) (w : World)
  : list string * World :=
  match files with
  | [] => (homeFiles, w)
  | file :: rest =>
      match ValidateImage file w with
      | (None, w) =>
          let found := existsb (String.eqb file) homeFiles in
          AddFiles rest (if found then homeFiles else (homeFiles ++ [file])%list) w
      | (Some _, w) => AddFiles rest homeFiles w
      end
  end.

End API2.

(** ** Predicates used in the further properties *)

(** A path whose extension [GetImageFormat] accepts. *)
Definition supported (path : string) : bool :=
  match GetImageFormat path with
  | inr _ => true
  | inl _ => false
  end.

(** A goroutine between [mu.Lock()] and [mu.Unlock()]. *)
Definition in_critical (g : goroutine) : bool :=
  match at_ g with
  | AtUpdate _ | AtUnlock _ => true
  | _ => false
  end.

(** The statements a goroutine has still to execute. *)
Definition steps_left (g : goroutine) : Z :=
  match at_ g with
  | AtAcquire => 7
  | AtCompress => 6
  | AtLock _ => 5
  | AtUpdate _ => 4
  | AtUnlock _ => 3
  | AtSend _ => 2
  | AtRelease => 1
  | Finished => 0
  end.

Definition remaining (gs : list goroutine) : Z :=
  fold_right (fun g acc => steps_left g + acc) 0 gs.

(** The results that are appended and not yet pushed to the progress
    channel. *)
Definition unsent (gs : list goroutine) : list CompressionResult :=
  flat_map (fun g => match at_ g with
                     | AtUnlock result | AtSend result => [result]
                     | _ => []
                     end) gs.

(** A goroutine that holds no [nil] result. *)
Definition holds_no_nil (g : goroutine) : Prop :=
  at_ g <> AtLock None /\ at_ g <> AtUpdate None.

(** A goroutine whose next statement never blocks, one that waits for
    the mutex, one that waits for a slot. *)
Definition can_move (g : goroutine) : bool :=
  match at_ g with
  | AtCompress | AtUpdate _ | AtUnlock _ | AtSend _ | AtRelease => true
  | _ => false
  end.

Definition at_lock (g : goroutine) : bool :=
  match at_ g with
  | AtLock _ => true
  | _ => false
  end.

Definition at_acquire (g : goroutine) : bool :=
  match at_ g with
  | AtAcquire => true
  | _ => false
  end.

(** A byte that is neither a separator nor a dot. *)
Definition plain (c : ascii) : Prop := is_sep c = false /\ is_dot c = false.

(** An element that [Clean] keeps. *)
Definition real (el : bytes) : Prop :=
  el <> [] /\ el <> [dot] /\ el <> [dot; dot] /\
  Forall (fun c => is_sep c = false) el.

(** The states [Clean] goes through: no [..] is kept in front of a rooted
    path, and what is kept are real elements. *)
Definition valid (rooted : bool) (st : cleaned) : Prop :=
  (rooted = true -> updirs st = O) /\ Forall real (reals st).

Definition start : cleaned := {| updirs := 0; reals := [] |}.

(** What [Clean] writes for a state. *)
Definition render (rooted : bool) (st : cleaned) : bytes :=
  let body := join_elems (repeat [dot; dot] (updirs st) ++ rev (reals st)) in
  if rooted then sep :: body
  else match body with [] => [dot] | _ => body end.

(** Options that agree on every field the JPEG encoder reads, and on
    every field the PNG encoder reads. *)
Definition same_resize (a b : CompressionOptions) : Prop :=
  ResizePercent a = ResizePercent b /\ ResizeWidth a = ResizeWidth b /\
  ResizeHeight a = ResizeHeight b.

Definition same_output (a b : CompressionOptions) : Prop :=
  OutputDir a = OutputDir b /\ OutputSuffix a = OutputSuffix b.

Definition same_for_jpeg (a b : CompressionOptions) : Prop :=
  Quality a = Quality b /\ same_resize a b /\ same_output a b.

Definition same_for_png (a b : CompressionOptions) : Prop :=
  PNGCompressor.compressionLevel a = PNGCompressor.compressionLevel b /\
  same_resize a b /\ same_output a b.

(** What [imaging.Resize] promises for a source that is not empty and a
    width and height above zero: an image of that width and height. *)
Definition resampler_honours_size (P : Platform) : Prop :=
  forall (img : Image) (w h : Z),
    0 < Bounds_Dx img -> 0 < Bounds_Dy img -> 0 < w -> 0 < h ->
    Bounds_Dx (imaging_Resize img w h) = w /\
    Bounds_Dy (imaging_Resize img w h) = h.

(** ** What a scan finds, read off the tree *)

Section Below.

Variable below : string -> node -> error + list string.

Fixpoint files_of_names (path : string) (names : list (string * (error + node)))
  : error + list string :=
  match names with
  | [] => inr []
  | (name, inl err) :: _ => inl err
  | (name, inr info) :: rest =>
      match below (Join [path; name]) info with
      | inl err => inl err
      | inr files =>
          match files_of_names path rest with
          | inl err => inl err
          | inr more => inr (files ++ more)%list
          end
      end
  end.

End Below.

(** The files that are no directories at and below a node, in the order
    of the walk; the first error met on the way if there is one. *)
Fixpoint files_below (path : string) (info : node) : error + list string :=
  match info with
  | Regular => inr [path]
  | Directory (inl err) => inl err
  | Directory (inr names) => files_of_names files_below path names
  end.

(** The same for the names of one directory, its subdirectories read but
    not entered. *)
Fixpoint direct_files (path : string) (names : list (string * (error + node)))
  : error + list string :=
  match names with
  | [] => inr []
  | (name, inl err) :: _ => inl err
  | (name, inr (Directory (inl err))) :: _ => inl err
  | (name, inr (Directory (inr _))) :: rest => direct_files path rest
  | (name, inr Regular) :: rest =>
      match direct_files path rest with
      | inl err => inl err
      | inr more => inr (Join [path; name] :: more)
      end
  end.

(** What a scan returns for a list of files or an error of the walk. *)
Definition found (files : error + list string) : error + list string :=
  match files with
  | inl err => inl (Errorf "failed to scan directory" err)
  | inr files => inr (filter supported files)
  end.

(** A name as a directory holds it: not empty, without a separator, and
    neither [.] nor [..]. *)
Definition is_file_name (name : string) : bool :=
  let b := list_ascii_of_string name in
  negb (bytes_eqb b []) && negb (bytes_eqb b [dot])
  && negb (bytes_eqb b [dot; dot]) && forallb (fun c => negb (is_sep c)) b.

(** Induction on a tree, with the property at hand for every node of a
    directory. *)
Section NodeInduction.

Variable Q : node -> Prop.

Definition holds_below (entry : string * (error + node)) : Prop :=
  match snd entry with
  | inr info => Q info
  | inl _ => True
  end.

Hypothesis Q_regular : Q Regular.
Hypothesis Q_unread : forall err, Q (Directory (inl err)).
Hypothesis Q_directory :
  forall names, Forall holds_below names -> Q (Directory (inr names)).

Fixpoint node_induction (info : node) : Q info :=
  match info with
  | Regular => Q_regular
  | Directory (inl err) => Q_unread err
  | Directory (inr names) =>
      Q_directory names
        ((fix all (l : list (string * (error + node))) : Forall holds_below l :=
            match l with
            | [] => Forall_nil holds_below
            | (name, inl err) :: rest =>
                @Forall_cons _ holds_below (name, inl err) rest I (all rest)
            | (name, inr info) :: rest =>
                @Forall_cons _ holds_below (name, inr info) rest
                  (node_induction info) (all rest)
            end) names)
  end.

End NodeInduction.

(** What a recursive scan and a scan of one directory find, from what
    [os.Lstat] says of the root. *)
Definition all_files (lstat : error + node) (root : string) : error + list string :=
  match lstat with
  | inl err => inl err
  | inr info => files_below root info
  end.

Definition flat_files (lstat : error + node) (root : string) : error + list string :=
  match lstat with
  | inl err => inl err
  | inr Regular => inr [root]
  | inr (Directory (inl err)) => inl err
  | inr (Directory (inr names)) => direct_files root names
  end.

(** The names of a directory are file names. *)
Definition file_names (lstat : error + node) : Prop :=
  match lstat with
  | inr (Directory (inr names)) =>
      Forall (fun entry : string * (error + node) => is_file_name (fst entry) = true)
             names
  | _ => True
  end.

(** ** A directory tree for the small platform

    [photos] with the four files of [Toy.disk] and a subdirectory; a
    second tree has a subdirectory that cannot be read. *)

Module Album.

Definition tree : node :=
  Directory (inr [ ("broken.jpg", inr Regular);
                   ("cat.jpg", inr Regular);
                   ("dot.png", inr Regular);
                   ("notes.txt", inr Regular);
                   ("raw", inr (Directory (inr [ ("cat.JPG", inr Regular);
                                                 ("readme", inr Regular) ]))) ]).

Definition locked_tree : node :=
  Directory (inr [ ("cat.jpg", inr Regular);
                   ("private", inr (Directory (inl "permission denied"))) ]).

Definition lstat (photos : node) (root : string) (w : Toy.fs) : error + node :=
  if String.eqb root "photos" then inr photos
  else match Toy.lookup root w with
       | Some _ => inr Regular
       | None => inl "no such file or directory"
       end.

Definition missing (err : error) : bool :=
  String.eqb err "no such file or directory".

Definition files : FileSystem Toy.platform :=
  @Build_FileSystem Toy.platform missing (lstat tree).

Definition locked : FileSystem Toy.platform :=
  @Build_FileSystem Toy.platform missing (lstat locked_tree).

(** The first goroutine of the batch of three has taken the mutex. *)
Definition in_update : state (P := Toy.platform) :=
  Eval vm_compute in
    match exec (P := Toy.platform) DefaultOptions true [0; 0; 0]%nat
            (init (P := Toy.platform) Toy.batch_paths Toy.disk) with
    | Some s => s
    | None => init (P := Toy.platform) Toy.batch_paths Toy.disk
    end.

(** Options that differ from the default ones in the fields no encoder
    reads. *)
Definition other_flags : CompressionOptions :=
  {| Quality := 85; ResizePercent := zero; ResizeWidth := 0;
     ResizeHeight := 0; StripMetadata := false; OutputDir := "";
     OutputSuffix := "_compressed"; Progressive := false;
     ChromaSubsample := "4:4:4"; CompressionLevel := 5; Interlaced := true |}.

(** The preview of the large picture with a width of 400 asked for. *)
Definition cat_preview : CompressionPreview :=
  Eval vm_compute in
    match fst (fst (PreviewCompression (P := Toy.platform) "photos/cat.jpg"
                      Toy.width_400 Toy.disk)) with
    | Some preview => preview
    | None =>
        {| Preview.InputPath := ""; Preview.InputSize := 0;
           Preview.EstimatedSize := 0; Preview.EstimatedReduction := zero;
           Preview.Format := ""; Preview.Width := 0; Preview.Height := 0;
           Preview.NewWidth := 0; Preview.NewHeight := 0 |}
    end.

End Album.

(* ===================================================================== *)
(** * Part II: properties                                                 *)
(* ===================================================================== *)

(** ** Facts about float64 *)

(** The constants of the source, as the bits Go gives them. *)
Example constants_bits :
  c0_1 = S754_finite false 0x1999999999999A (-56) /\
  c0_4 = S754_finite false 0x1999999999999A (-54) /\
  c0_05 = S754_finite false 0x1999999999999A (-57) /\
  hundred = S754_finite false 0x19000000000000 (-46) /\
  one = S754_finite false 0x10000000000000 (-52).
Proof. repeat split. Qed.









(** *** Rounding

    What the two rounding stages of [SpecFloat] do to a mantissa of 53 or
    54 bits, up to the sign of [(1 - c/o) * 100] when [c > o]. *)

Lemma fexp_eq : forall e, fexp prec emax e = Z.max (e - 53) (-1074).
Proof. reflexivity. Qed.

Lemma digits_bounds : forall p : positive,
  2 ^ (Zpos (digits2_pos p) - 1) <= Zpos p < 2 ^ Zpos (digits2_pos p).
Proof.
  induction p as [p IH|p IH|]; cbn [digits2_pos].
  - rewrite Pos2Z.inj_succ.
    replace (Z.succ (Zpos (digits2_pos p)) - 1)
      with (Z.succ (Zpos (digits2_pos p) - 1)) by lia.
    rewrite !Z.pow_succ_r by lia. lia.
  - rewrite Pos2Z.inj_succ.
    replace (Z.succ (Zpos (digits2_pos p)) - 1)
      with (Z.succ (Zpos (digits2_pos p) - 1)) by lia.
    rewrite !Z.pow_succ_r by lia. lia.
  - simpl. lia.
Qed.

Lemma digits_unique : forall (p : positive) (k : Z),
  2 ^ (k - 1) <= Zpos p < 2 ^ k -> Zpos (digits2_pos p) = k.
Proof.
  intros p k [H1 H2]. pose proof (digits_bounds p) as [B1 B2].
  assert (0 < k) as Hk.
  { destruct (Z_lt_le_dec 0 k) as [?|Hk]; [assumption|].
    destruct k as [|k|k]; simpl in H2; lia. }
  destruct (Z.lt_trichotomy (Zpos (digits2_pos p)) k) as [L|[E|G]]; [|exact E|].
  - assert (2 ^ Zpos (digits2_pos p) <= 2 ^ (k - 1)) by (apply Z.pow_le_mono_r; lia).
    lia.
  - assert (2 ^ k <= 2 ^ (Zpos (digits2_pos p) - 1)) by (apply Z.pow_le_mono_r; lia).
    lia.
Qed.

Lemma shr_m_of_loc : forall m l, shr_m (shr_record_of_loc m l) = m.
Proof. intros m [|[| |]]; reflexivity. Qed.

Lemma loc_of_shr_of_loc : forall m l, loc_of_shr_record (shr_record_of_loc m l) = l.
Proof. intros m [|[| |]]; reflexivity. Qed.

Lemma shr_1_m : forall mrs, 0 <= shr_m mrs -> shr_m (shr_1 mrs) = shr_m mrs / 2.
Proof.
  intros [m r s] H. cbn [shr_m] in *. unfold shr_1.
  destruct m as [|[p|p|]|p]; cbn [shr_m]; try lia; try reflexivity.
  - apply Z.div_unique with 1; lia.
  - apply Z.div_unique with 0; lia.
Qed.

Lemma pow2_xO : forall p : positive, 2 ^ Zpos p~0 = 2 ^ Zpos p * 2 ^ Zpos p.
Proof.
  intros p. replace (Zpos p~0) with (Zpos p + Zpos p) by lia.
  apply Z.pow_add_r; lia.
Qed.

Lemma pow2_xI : forall p : positive, 2 ^ Zpos p~1 = 2 * (2 ^ Zpos p * 2 ^ Zpos p).
Proof.
  intros p. replace (Zpos p~1) with (1 + (Zpos p + Zpos p)) by lia.
  rewrite !Z.pow_add_r by lia. reflexivity.
Qed.

Lemma iter_shr_m : forall (p : positive) mrs,
  0 <= shr_m mrs -> shr_m (iter_pos shr_1 p mrs) = shr_m mrs / 2 ^ Zpos p.
Proof.
  induction p as [p IH|p IH|]; intros mrs H; cbn [iter_pos].
  - assert (0 < 2 ^ Zpos p) as Hp by (apply Z.pow_pos_nonneg; lia).
    assert (0 <= shr_m (shr_1 mrs)) as H1
        by (rewrite shr_1_m by lia; apply Z.div_pos; lia).
    assert (0 <= shr_m (iter_pos shr_1 p (shr_1 mrs))) as H2
        by (rewrite IH by lia; apply Z.div_pos; lia).
    rewrite IH, IH, shr_1_m by lia.
    rewrite !Z.div_div by lia. now rewrite pow2_xI.
  - assert (0 < 2 ^ Zpos p) as Hp by (apply Z.pow_pos_nonneg; lia).
    assert (0 <= shr_m (iter_pos shr_1 p mrs)) as H2
        by (rewrite IH by lia; apply Z.div_pos; lia).
    rewrite IH, IH by lia.
    rewrite !Z.div_div by lia. now rewrite pow2_xO.
  - rewrite shr_1_m by lia. reflexivity.
Qed.

(** The first rounding stage keeps a positive mantissa positive and does
    not lower the exponent. *)
Lemma shr_fexp_positive : forall (m : positive) e l mrs e1,
  -1074 <= e ->
  shr_fexp prec emax (Zpos m) e l = (mrs, e1) ->
  0 < shr_m mrs /\ e <= e1.
Proof.
  intros m e l mrs e1 He. unfold shr_fexp, shr. cbn [Zdigits2].
  rewrite fexp_eq. pose proof (digits_bounds m) as [B1 B2].
  set (d := Zpos (digits2_pos m)) in *.
  destruct (Z.max (d + e - 53) (-1074) - e) as [|n|n] eqn:En.
  - intros [= <- <-]. rewrite shr_m_of_loc. lia.
  - intros [= <- <-]. rewrite iter_shr_m by (rewrite shr_m_of_loc; lia).
    rewrite shr_m_of_loc. split; [|lia].
    assert (Zpos n = d - 53) as -> by lia.
    assert (2 ^ (d - 1) = 2 ^ 52 * 2 ^ (d - 53)) as E.
    { rewrite <- Z.pow_add_r by lia. f_equal. lia. }
    assert (0 < 2 ^ (d - 53)) by (apply Z.pow_pos_nonneg; lia).
    assert (2 ^ 52 <= Zpos m / 2 ^ (d - 53)).
    { apply Z.div_le_lower_bound; lia. }
    lia.
  - intros [= <- <-]. rewrite shr_m_of_loc. lia.
Qed.

Lemma round_nearest_even_ge : forall m l, m <= round_nearest_even m l <= m + 1.
Proof.
  intros m [|[| |]]; cbn [round_nearest_even]; try lia.
  destruct (Z.even m); lia.
Qed.

(** Rounding a positive mantissa at an exponent above the smallest one
    never gives zero: the result has the sign asked for. *)
Lemma round_aux_nonzero : forall s (m : positive) e l,
  -1074 <= e ->
  exists m' e', e <= e' /\
    (binary_round_aux prec emax s (Zpos m) e l = S754_finite s m' e' \/
     binary_round_aux prec emax s (Zpos m) e l = S754_infinity s).
Proof.
  intros s m e l He. unfold binary_round_aux.
  destruct (shr_fexp prec emax (Zpos m) e l) as [mrs1 e1] eqn:E1.
  destruct (shr_fexp_positive _ _ _ _ _ He E1) as [P1 L1].
  pose proof (round_nearest_even_ge (shr_m mrs1) (loc_of_shr_record mrs1)) as R.
  destruct (round_nearest_even (shr_m mrs1) (loc_of_shr_record mrs1))
    as [|m2|m2] eqn:E2; try lia.
  destruct (shr_fexp prec emax (Zpos m2) e1 loc_Exact) as [mrs3 e3] eqn:E3.
  assert (-1074 <= e1) as He1 by lia.
  destruct (shr_fexp_positive _ _ _ _ _ He1 E3) as [P3 L3].
  destruct (shr_m mrs3) as [|m3|m3]; try lia.
  exists m3, e3. split; [lia|].
  destruct (e3 <=? emax - prec); auto.
Qed.

Lemma iter_xO : forall (d m : positive), Zpos (Pos.iter xO m d) = Zpos m * 2 ^ Zpos d.
Proof.
  intros d m. induction d as [|d IH] using Pos.peano_ind.
  - simpl. lia.
  - rewrite Pos.iter_succ, Pos2Z.inj_xO, IH, Pos2Z.inj_succ, Z.pow_succ_r; lia.
Qed.

Lemma round_nonzero : forall s (k : positive) e,
  -1074 <= e ->
  exists m' e', e - 52 <= e' /\
    (binary_round prec emax s k e = S754_finite s m' e' \/
     binary_round prec emax s k e = S754_infinity s).
Proof.
  intros s k e He. unfold binary_round, shl_align. rewrite fexp_eq.
  pose proof (Pos2Z.is_pos (digits2_pos k)) as Hd.
  set (d := Zpos (digits2_pos k)) in *.
  destruct (Z.max (d + e - 53) (-1074) - e) as [|n|n] eqn:En.
  - destruct (round_aux_nonzero s k e loc_Exact He) as (m' & e' & L & H).
    exists m', e'. split; [lia | exact H].
  - destruct (round_aux_nonzero s k e loc_Exact He) as (m' & e' & L & H).
    exists m', e'. split; [lia | exact H].
  - assert (-1074 <= Z.max (d + e - 53) (-1074)) as He' by lia.
    destruct (round_aux_nonzero s (Pos.iter xO k n) _ loc_Exact He')
      as (m' & e' & L & H).
    exists m', e'. split; [lia | exact H].
Qed.

(** The second rounding stage, on a mantissa of 53 bits or on [2^53]. *)
Lemma second_stage : forall s q1 e1,
  2 ^ 52 <= q1 <= 2 ^ 53 -> -1074 <= e1 <= 970 ->
  (let '(mrs, e2) := shr_fexp prec emax q1 e1 loc_Exact in
   match shr_m mrs with
   | Z0 => S754_zero s
   | Zpos m => if e2 <=? emax - prec then S754_finite s m e2 else S754_infinity s
   | Zneg _ => S754_nan
   end)
  = if q1 <? 2 ^ 53 then S754_finite s (Z.to_pos q1) e1
    else S754_finite s (2 ^ 52)%positive (e1 + 1).
Proof.
  intros s q1 e1 Hq He. destruct q1 as [|p1|p1]; try lia.
  unfold shr_fexp. cbn [Zdigits2]. rewrite fexp_eq.
  destruct (Zpos p1 <? 2 ^ 53) eqn:Hlt.
  - rewrite (digits_unique p1 53) by lia.
    replace (Z.max (53 + e1 - 53) (-1074) - e1) with 0 by lia.
    cbn [shr shr_record_of_loc shr_m Z.to_pos].
    replace (e1 <=? emax - prec) with true; [reflexivity|].
    symmetry. apply Z.leb_le. unfold emax, prec. lia.
  - assert (Zpos p1 = 2 ^ 53) as E by lia. injection E as ->.
    assert (Zpos (digits2_pos 9007199254740992) = 54) as -> by reflexivity.
    replace (Z.max (54 + e1 - 53) (-1074) - e1) with 1 by lia.
    cbn [shr shr_record_of_loc iter_pos shr_1 shr_m].
    replace (e1 + 1 <=? emax - prec) with true; [reflexivity|].
    symmetry. apply Z.leb_le. unfold emax, prec. lia.
Qed.

Lemma round_aux_53 : forall s (q : positive) e l,
  2 ^ 52 <= Zpos q < 2 ^ 53 -> -1074 <= e <= 970 ->
  binary_round_aux prec emax s (Zpos q) e l
  = let q1 := round_nearest_even (Zpos q) l in
    if q1 <? 2 ^ 53 then S754_finite s (Z.to_pos q1) e
    else S754_finite s (2 ^ 52)%positive (e + 1).
Proof.
  intros s q e l Hq He. unfold binary_round_aux.
  unfold shr_fexp at 1. cbn [Zdigits2]. rewrite fexp_eq.
  rewrite (digits_unique q 53) by lia.
  replace (Z.max (53 + e - 53) (-1074) - e) with 0 by lia.
  cbn [shr]. rewrite shr_m_of_loc, loc_of_shr_of_loc.
  pose proof (round_nearest_even_ge (Zpos q) l).
  apply second_stage; lia.
Qed.

Lemma round_aux_54 : forall s (q : positive) e l,
  2 ^ 53 <= Zpos q < 2 ^ 54 -> -1074 <= e <= 969 ->
  binary_round_aux prec emax s (Zpos q) e l
  = let mrs := shr_1 (shr_record_of_loc (Zpos q) l) in
    let q1 := round_nearest_even (shr_m mrs) (loc_of_shr_record mrs) in
    if q1 <? 2 ^ 53 then S754_finite s (Z.to_pos q1) (e + 1)
    else S754_finite s (2 ^ 52)%positive (e + 1 + 1).
Proof.
  intros s q e l Hq He. unfold binary_round_aux.
  unfold shr_fexp at 1. cbn [Zdigits2]. rewrite fexp_eq.
  rewrite (digits_unique q 54) by lia.
  replace (Z.max (54 + e - 53) (-1074) - e) with 1 by lia.
  cbn [shr iter_pos].
  set (mrs := shr_1 (shr_record_of_loc (Zpos q) l)).
  assert (shr_m mrs = Zpos q / 2) as Hm
      by (unfold mrs; rewrite shr_1_m; rewrite shr_m_of_loc; lia).
  pose proof (round_nearest_even_ge (shr_m mrs) (loc_of_shr_record mrs)).
  assert (2 ^ 52 <= Zpos q / 2 < 2 ^ 53).
  { split; [apply Z.div_le_lower_bound | apply Z.div_lt_upper_bound]; lia. }
  cbv zeta. apply second_stage; lia.
Qed.

(** [float64(n)] is exact below [2^53]: a mantissa of 53 bits times a
    power of two between [2^-52] and 1. *)
Lemma of_int_normal : forall n,
  0 < n < 2 ^ 53 ->
  exists m e, of_int n = S754_finite false m e /\
              2 ^ 52 <= Zpos m < 2 ^ 53 /\ -52 <= e <= 0 /\
              Zpos m = n * 2 ^ (- e).
Proof.
  intros [|k|k] Hn; try lia.
  unfold of_int, binary_normalize, binary_round, shl_align. rewrite fexp_eq.
  pose proof (digits_bounds k) as [B1 B2].
  pose proof (Pos2Z.is_pos (digits2_pos k)) as Hd.
  set (d := Zpos (digits2_pos k)) in *.
  assert (d <= 53) as Hd53.
  { destruct (Z_le_gt_dec d 53); [assumption|].
    assert (2 ^ 53 <= 2 ^ (d - 1)) by (apply Z.pow_le_mono_r; lia). lia. }
  destruct (Z.max (d + 0 - 53) (-1074) - 0) as [|q|q] eqn:Eq; try lia.
  - assert (d = 53) as Ed by lia. rewrite Ed in *.
    exists k, 0. rewrite round_aux_53 by lia.
    cbn [round_nearest_even]. cbv zeta.
    replace (Zpos k <? 2 ^ 53) with true by (symmetry; apply Z.ltb_lt; lia).
    cbn [Z.to_pos]. repeat split; try lia.
  - assert (Zpos q = 53 - d) as Eq' by lia.
    assert (Z.max (d + 0 - 53) (-1074) = d - 53) as -> by lia.
    assert (2 ^ 52 <= Zpos k * 2 ^ (53 - d) < 2 ^ 53) as Hb.
    { assert (2 ^ 52 = 2 ^ (d - 1) * 2 ^ (53 - d)) as ->
          by (rewrite <- Z.pow_add_r by lia; f_equal; lia).
      assert (2 ^ 53 = 2 ^ d * 2 ^ (53 - d)) as ->
          by (rewrite <- Z.pow_add_r by lia; f_equal; lia).
      assert (0 < 2 ^ (53 - d)) by (apply Z.pow_pos_nonneg; lia).
      split; [apply Z.mul_le_mono_nonneg_r | apply Z.mul_lt_mono_pos_r]; lia. }
    exists (Pos.iter xO k q), (d - 53).
    rewrite round_aux_53 by (rewrite ?iter_xO, ?Eq'; lia).
    cbn [round_nearest_even]. cbv zeta. rewrite iter_xO, Eq'.
    replace (Zpos k * 2 ^ (53 - d) <? 2 ^ 53) with true
      by (symmetry; apply Z.ltb_lt; lia).
    rewrite <- Eq', <- iter_xO. cbn [Z.to_pos].
    repeat split; try lia; rewrite iter_xO, Eq'; try lia.
    f_equal. f_equal. lia.
Qed.

Lemma new_location_inexact : forall nb r,
  r <> 0 -> exists c, new_location nb r = loc_Inexact c.
Proof.
  intros nb r Hr. unfold new_location.
  destruct (Z.even nb); unfold new_location_even, new_location_odd;
    (assert ((r =? 0) = false) as -> by (apply Z.eqb_neq; exact Hr));
    eexists; reflexivity.
Qed.

Lemma new_location_above_half : forall nb r,
  0 < r -> nb < 2 * r -> new_location nb r = loc_Inexact Gt.
Proof.
  intros nb r Hr Hh. unfold new_location.
  destruct (Z.even nb); unfold new_location_even, new_location_odd;
    (assert ((r =? 0) = false) as -> by (apply Z.eqb_neq; lia)).
  - assert ((2 * r ?= nb) = Gt) as -> by (apply Z.compare_gt_iff; lia). reflexivity.
  - assert ((2 * r + 1 ?= nb) = Gt) as -> by (apply Z.compare_gt_iff; lia).
    reflexivity.
Qed.

(** The quotient of two normal floats, the first one the larger, is
    above 1. *)
Lemma div_above_one : forall (mO mI : positive) (eO eI : Z),
  2 ^ 52 <= Zpos mO < 2 ^ 53 -> 2 ^ 52 <= Zpos mI < 2 ^ 53 ->
  -52 <= eO <= 0 -> -52 <= eI <= 0 ->
  eI <= eO ->
  (eO = eI -> Zpos mI < Zpos mO) ->
  (eO = eI + 1 -> Zpos mI < 2 * Zpos mO) ->
  exists mV eV,
    div (S754_finite false mO eO) (S754_finite false mI eI)
    = S754_finite false mV eV /\
    2 ^ 52 <= Zpos mV /\ -52 <= eV /\ (-52 < eV \/ 2 ^ 52 < Zpos mV).
Proof.
  intros mO mI eO eI HO HI HeO HeI Hle H0 H1.
  unfold div, SFdiv, SFdiv_core_binary. cbn [xorb Zdigits2].
  rewrite (digits_unique mO 53), (digits_unique mI 53), fexp_eq by lia.
  replace (Z.min (Z.max (53 + eO - (53 + eI) - 53) (-1074)) (eO - eI))
    with (eO - eI - 53) by lia.
  replace (eO - eI - (eO - eI - 53)) with 53 by lia.
  rewrite Z.shiftl_mul_pow2 by lia.
  pose proof (Z_div_mod (Zpos mO * 2 ^ 53) (Zpos mI) ltac:(lia)) as Hdm.
  destruct (Z.div_eucl (Zpos mO * 2 ^ 53) (Zpos mI)) as [q r].
  destruct Hdm as [Hq Hr].
  assert (2 ^ 52 <= q < 2 ^ 54) as Hqb by nia.
  destruct q as [|q|q]; try lia.
  destruct (Z_lt_le_dec (Zpos q) (2 ^ 53)) as [Hsmall|Hbig].
  - (* a quotient of 53 bits: the dividend has the smaller mantissa *)
    assert (Zpos mO < Zpos mI) as Hlt by nia.
    assert (eI + 1 <= eO) as HE by (destruct (Z.eq_dec eO eI); [specialize (H0 e)|]; lia).
    rewrite round_aux_53 by lia. cbv zeta.
    pose proof (round_nearest_even_ge (Zpos q) (new_location (Zpos mI) r)) as Hrnd.
    destruct (round_nearest_even (Zpos q) (new_location (Zpos mI) r) <? 2 ^ 53) eqn:Hc.
    + eexists. eexists. split; [reflexivity|].
      apply Z.ltb_lt in Hc. rewrite Z2Pos.id by lia.
      split; [lia|]. split; [lia|].
      destruct (Z.eq_dec eO (eI + 1)) as [E|E]; [|left; lia].
      right. specialize (H1 E).
      destruct (Z.eq_dec (Zpos q) (2 ^ 52)) as [Eq|Eq]; [|lia].
      rewrite Eq in *. rewrite new_location_above_half in * by lia.
      cbn [round_nearest_even] in *. lia.
    + eexists. eexists. split; [reflexivity|]. lia.
  - (* a quotient of 54 bits *)
    rewrite round_aux_54 by lia. cbv zeta.
    set (mrs := shr_1 (shr_record_of_loc (Zpos q) (new_location (Zpos mI) r))).
    assert (shr_m mrs = Zpos q / 2) as Hm
        by (unfold mrs; rewrite shr_1_m; rewrite shr_m_of_loc; lia).
    pose proof (round_nearest_even_ge (shr_m mrs) (loc_of_shr_record mrs)) as Hrnd.
    assert (2 ^ 52 <= Zpos q / 2) as Hhalf by (apply Z.div_le_lower_bound; lia).
    destruct (round_nearest_even (shr_m mrs) (loc_of_shr_record mrs) <? 2 ^ 53) eqn:Hc.
    + eexists. eexists. split; [reflexivity|].
      apply Z.ltb_lt in Hc. rewrite Z2Pos.id by lia.
      split; [lia|]. split; [lia|].
      destruct (Z.eq_dec eO eI) as [E|E]; [|left; lia].
      right. specialize (H0 E).
      assert (2 ^ 53 + 1 <= Zpos q) as Hq1 by nia.
      destruct (Z.eq_dec (Zpos q) (2 ^ 53 + 1)) as [Eq|Eq].
      * assert (r <> 0) as Hr0 by nia.
        destruct (new_location_inexact (Zpos mI) r Hr0) as [c Hloc].
        injection Eq as ->. unfold mrs in *. rewrite Hloc in *.
        destruct c; cbn in Hrnd |- *; lia.
      * assert (2 ^ 52 + 1 <= Zpos q / 2) by (apply Z.div_le_lower_bound; lia).
        lia.
    + eexists. eexists. split; [reflexivity|]. lia.
Qed.

Lemma one_eq : one = S754_finite false 4503599627370496 (-52).
Proof. reflexivity. Qed.

Lemma hundred_eq : hundred = S754_finite false 7036874417766400 (-46).
Proof. reflexivity. Qed.

(** One minus a float above 1 is below zero. *)
Lemma sub_one_below_zero : forall (mV : positive) (eV : Z),
  2 ^ 52 <= Zpos mV -> -52 <= eV -> (-52 < eV \/ 2 ^ 52 < Zpos mV) ->
  (exists m' e', -104 <= e' /\
                 sub one (S754_finite false mV eV) = S754_finite true m' e') \/
  sub one (S754_finite false mV eV) = S754_infinity true.
Proof.
  intros mV eV Hm He Hgt. rewrite one_eq. unfold sub, SFsub. cbn [cond_Zopp].
  replace (Z.min (-52) eV) with (-52) by lia.
  change (fst (shl_align 4503599627370496 (-52) (-52))) with 4503599627370496%positive.
  assert (Zpos 4503599627370496 < Zpos (fst (shl_align mV eV (-52)))) as Hlt.
  { unfold shl_align. destruct (-52 - eV) as [|d|d] eqn:Ed; cbn [fst]; try lia.
    rewrite iter_xO.
    assert (2 <= 2 ^ Zpos d) by (change 2 with (2 ^ 1) at 1; apply Z.pow_le_mono_r; lia).
    change (Zpos 4503599627370496) with (2 ^ 52). nia. }
  destruct (Zpos 4503599627370496 - Zpos (fst (shl_align mV eV (-52))))
    as [|k|k] eqn:Ek; try lia.
  cbn [binary_normalize].
  destruct (round_nonzero true k (-52) ltac:(lia)) as (m' & e' & L & [H|H]).
  - left. exists m', e'. split; [lia | exact H].
  - right. exact H.
Qed.

Lemma mul_hundred_below_zero : forall (m : positive) (e : Z),
  -1028 <= e -> is_negative (mul (S754_finite true m e) hundred) = true.
Proof.
  intros m e He. rewrite hundred_eq. unfold mul, SFmul. cbn [xorb].
  destruct (round_aux_nonzero true (m * 7036874417766400) (e + -46) loc_Exact
              ltac:(lia)) as (m' & e' & _ & [-> | ->]); reflexivity.
Qed.

(** The reduction of a file that grew is below zero, for sizes that
    [float64] holds exactly. *)
Lemma reduction_below_zero : forall inputSize outputSize : Z,
  0 < inputSize -> inputSize < outputSize -> outputSize < 2 ^ 53 ->
  is_negative (Spec.reduction inputSize outputSize) = true.
Proof.
  intros i o Hi Hio Ho. unfold Spec.reduction.
  destruct (of_int_normal o ltac:(lia)) as (mO & eO & -> & HmO & HeO & EO).
  destruct (of_int_normal i ltac:(lia)) as (mI & eI & -> & HmI & HeI & EI).
  assert (0 < 2 ^ (- eO)) as PO by (apply Z.pow_pos_nonneg; lia).
  assert (0 < 2 ^ (- eI)) as PI by (apply Z.pow_pos_nonneg; lia).
  assert (eI <= eO) as Hle.
  { destruct (Z_le_gt_dec eI eO) as [|Hgt]; [assumption|exfalso].
    assert (2 ^ (- eO) = 2 ^ (- eI) * 2 ^ (eI - eO)) as E
        by (rewrite <- Z.pow_add_r by lia; f_equal; lia).
    assert (2 <= 2 ^ (eI - eO))
      by (change 2 with (2 ^ 1) at 1; apply Z.pow_le_mono_r; lia).
    rewrite E in EO. nia. }
  destruct (div_above_one mO mI eO eI HmO HmI HeO HeI Hle)
    as (mV & eV & -> & HmV & HeV & Hgt).
  - intros E. rewrite E in *. nia.
  - intros E. rewrite E in *.
    replace (- (eI + 1)) with (- eI - 1) in * by lia.
    assert (2 ^ (- eI) = 2 * 2 ^ (- eI - 1)) as E2.
    { rewrite <- Z.pow_succ_r by lia. f_equal. lia. }
    rewrite E2 in EI. nia.
  - destruct (sub_one_below_zero mV eV HmV HeV Hgt) as [(m' & e' & L & ->) | ->].
    + apply mul_hundred_below_zero. lia.
    + reflexivity.
Qed.

Example reduction_of_a_grown_file :
  CalculateReduction 100 150 = SFopp (of_int 50) /\
  CalculateReduction 200 50 = of_int 75.
Proof. split; reflexivity. Qed.

(** Above [2^53] two sizes that differ can round to the same float. *)
Example reduction_beyond_exact_sizes :
  CalculateReduction (2 ^ 53) (2 ^ 53 + 1) = zero.
Proof. reflexivity. Qed.

(** ** Facts about paths *)

Lemma string_of_list_ascii_app : forall a b : list ascii,
  string_of_list_ascii (a ++ b)%list
  = string_of_list_ascii a ++ string_of_list_ascii b.
Proof.
  induction a as [|c a IH]; intros b; simpl; [reflexivity | now rewrite IH].
Qed.

Lemma strip_prefix_app : forall a b : bytes, strip_prefix a (a ++ b)%list = Some b.
Proof.
  induction a as [|c a IH]; intros b; simpl; [reflexivity|].
  now rewrite Ascii.eqb_refl.
Qed.

Lemma trim_suffix_bytes_app : forall pre e : bytes,
  trim_suffix_bytes (pre ++ e)%list e = pre.
Proof.
  intros pre e. unfold trim_suffix_bytes.
  rewrite rev_app_distr, strip_prefix_app. apply rev_involutive.
Qed.

Lemma last_elem_rev_keeps_acc : forall r acc : bytes,
  exists pre, last_elem_rev r acc = (pre ++ acc)%list.
Proof.
  induction r as [|c r IH]; intros acc; simpl.
  - now exists [].
  - destruct (is_sep c); [now exists []|].
    destruct (IH (c :: acc)) as [pre Hpre].
    exists (pre ++ [c])%list. now rewrite Hpre, <- app_assoc.
Qed.

Lemma ext_scan_suffix : forall r acc : bytes,
  exists pre, last_elem_rev r acc = (pre ++ ext_scan r acc)%list.
Proof.
  induction r as [|c r IH]; intros acc; simpl.
  - exists acc. now rewrite app_nil_r.
  - destruct (is_sep c).
    + exists acc. now rewrite app_nil_r.
    + destruct (is_dot c); [|apply IH].
      apply last_elem_rev_keeps_acc.
Qed.

(** The extension is a suffix of the base name. *)
Lemma ext_suffix_of_base : forall p : bytes,
  exists pre, base_bytes p = (pre ++ ext_bytes p)%list.
Proof.
  intros p. unfold base_bytes, ext_bytes.
  destruct p as [|c0 p0]; [now exists [dot]|].
  remember (rev (c0 :: p0)) as r eqn:Hr.
  destruct r as [|c r].
  - now exists [sep].
  - simpl. destruct (is_sep c) eqn:Hc.
    + eexists. rewrite app_nil_r. reflexivity.
    + simpl. rewrite Hc.
      destruct (ext_scan_suffix r [c]) as [pre Hpre].
      destruct (is_dot c) eqn:Hd.
      * destruct (last_elem_rev_keeps_acc r [c]) as [pre' Hpre'].
        rewrite Hpre'. destruct (pre' ++ [c])%list eqn:E.
        -- now destruct pre'.
        -- now exists pre'.
      * rewrite Hpre. destruct (pre ++ ext_scan r [c])%list eqn:E.
        -- apply app_eq_nil in E as [-> ->]. now exists [sep].
        -- now exists pre.
Qed.

Lemma Base_splits : forall path : string,
  Base path = TrimSuffix (Base path) (Ext path) ++ Ext path.
Proof.
  intros path. unfold TrimSuffix, Base, Ext.
  rewrite !list_ascii_of_string_of_list_ascii.
  destruct (ext_suffix_of_base (list_ascii_of_string path)) as [pre Hpre].
  rewrite Hpre at 2. rewrite trim_suffix_bytes_app.
  rewrite <- string_of_list_ascii_app. now rewrite <- Hpre.
Qed.

(** ** compressor.go *)

(** C10.  [CalculateReduction(0, c)] is [0] for every compressed size [c]:
    the guard on a zero original returns before the division is reached. *)
Theorem CalculateReduction_zero_original : forall c : Z,
  CalculateReduction 0 c = zero.
Proof. intros c. reflexivity. Qed.

(** With any other original size the value is the unclamped quotient
    formula of the design document. *)
Lemma CalculateReduction_formula : forall original compressed : Z,
  original <> 0 ->
  CalculateReduction original compressed = Spec.reduction original compressed.
Proof.
  intros original compressed H. unfold CalculateReduction, Spec.reduction.
  destruct (original =? 0) eqn:E; [lia | reflexivity].
Qed.

(** C6.  [GenerateOutputPath] joins the output directory, when one is
    given, and otherwise the directory of the input, with a file name made
    of the stem, the suffix and the extension, where the stem is the base
    name with its extension removed (base name = stem + extension).  It
    takes no file system: its value depends on its two arguments only. *)
Theorem GenerateOutputPath_shape :
  forall (inputPath : string) (options : CompressionOptions),
    let stem := TrimSuffix (Base inputPath) (Ext inputPath) in
    Base inputPath = stem ++ Ext inputPath /\
    GenerateOutputPath inputPath options
    = Spec.OutputPathGenerator inputPath stem options.
Proof.
  intros inputPath options stem. split.
  - apply Base_splits.
  - unfold GenerateOutputPath, Spec.OutputPathGenerator.
    destruct (String.eqb (OutputDir options) ""); reflexivity.
Qed.

Example GenerateOutputPath_default :
  GenerateOutputPath "photos/cat.jpg" DefaultOptions = "photos/cat_compressed.jpg".
Proof. reflexivity. Qed.

Example GenerateOutputPath_outputDir :
  GenerateOutputPath "photos/2024/cat.JPG"
    {| Quality := 85; ResizePercent := zero; ResizeWidth := 0; ResizeHeight := 0;
       StripMetadata := true; OutputDir := "out/small"; OutputSuffix := "-s";
       Progressive := true; ChromaSubsample := "4:2:0"; CompressionLevel := 6;
       Interlaced := false |}
  = "out/small/cat-s.JPG".
Proof. reflexivity. Qed.

(** ** jpeg.go and png.go *)

Section CompressorFacts.
Context {P : Platform}.

Lemma percent_test : forall options : CompressionOptions,
  gtb (ResizePercent options) zero && ltb (ResizePercent options) hundred
  = Spec.percent_active options.
Proof. reflexivity. Qed.

(** [applyResize] calls the resampler with [resizeRequest], and only
    then. *)
Lemma applyResize_request : forall (img : Image) (options : CompressionOptions),
  applyResize img options
  = match resizeRequest (Bounds_Dx img) (Bounds_Dy img) options with
    | Some (w, h) => imaging_Resize img w h
    | None => img
    end.
Proof.
  intros img options. unfold applyResize, resizeRequest.
  destruct (gtb _ _ && ltb _ _); [reflexivity|].
  destruct ((ResizeWidth options >? 0) || (ResizeHeight options >? 0));
    [|reflexivity].
  destruct (ResizeWidth options =? 0); [reflexivity|].
  destruct (ResizeHeight options =? 0); reflexivity.
Qed.


End CompressorFacts.


(** The two cases the design document works out for an 800 x 600 source:
    the percent rule wins over a width, and a width alone keeps the aspect
    ratio. *)
Example resize_percent_wins :
  resizeTarget (P := Toy.platform) 800 600
    {| Quality := 85; ResizePercent := of_int 50; ResizeWidth := 1000;
       ResizeHeight := 0; StripMetadata := true; OutputDir := "";
       OutputSuffix := ""; Progressive := true; ChromaSubsample := "4:2:0";
       CompressionLevel := 6; Interlaced := false |}
  = (400, 300).
Proof. reflexivity. Qed.

(** A percent of 100 is no percent resize: the height rule is next. *)
Example resize_percent_100_falls_through :
  resizeTarget (P := Toy.platform) 800 600
    {| Quality := 85; ResizePercent := hundred; ResizeWidth := 0;
       ResizeHeight := 150; StripMetadata := true; OutputDir := "";
       OutputSuffix := ""; Progressive := true; ChromaSubsample := "4:2:0";
       CompressionLevel := 6; Interlaced := false |}
  = (200, 150).
Proof. reflexivity. Qed.

Example resize_width_only :
  resizeTarget (P := Toy.platform) 800 600
    {| Quality := 85; ResizePercent := zero; ResizeWidth := 400;
       ResizeHeight := 0; StripMetadata := true; OutputDir := "";
       OutputSuffix := ""; Progressive := true; ChromaSubsample := "4:2:0";
       CompressionLevel := 6; Interlaced := false |}
  = (400, 300).
Proof. reflexivity. Qed.

(** C3, as the design document has it: whenever the computed target equals
    the source size, the image reaches the encoder untouched.  It fails
    when the width and height asked for are those of the source: the
    dimension rule applies, and [applyResize] hands the image to the
    resampler without comparing the target with the source. *)
Lemma applyResize_resamples_at_source_size :
  ~ Spec.resampling_skipped (P := Toy.platform) (Toy.picture 800 600)
      Toy.same_size.
Proof.
  unfold Spec.resampling_skipped. intros H.
  assert (applyResize (P := Toy.platform) (Toy.picture 800 600) Toy.same_size
          = Toy.resize (Toy.picture 800 600) 800 600) as E by reflexivity.
  rewrite E in H. specialize (H eq_refl). discriminate H.
Qed.

(** C3, amended.  When no resize rule applies (the percent is not strictly
    between 0 and 100 and neither a width nor a height above 0 is given),
    [applyResize] does not call the resampler and returns the decoded
    image itself. *)
Theorem applyResize_without_rule_is_identity :
  forall (P : Platform) (img : Image) (options : CompressionOptions),
    Spec.percent_active options = false ->
    ResizeWidth options <= 0 -> ResizeHeight options <= 0 ->
    resizeRequest (Bounds_Dx img) (Bounds_Dy img) options = None /\
    applyResize img options = img.
Proof.
  intros P img options Hp Hw Hh.
  assert (resizeRequest (Bounds_Dx img) (Bounds_Dy img) options = None) as E.
  { unfold resizeRequest. rewrite percent_test, Hp.
    destruct (ResizeWidth options >? 0) eqn:E1; [lia|].
    destruct (ResizeHeight options >? 0) eqn:E2; [lia|]. reflexivity. }
  split; [exact E|]. now rewrite applyResize_request, E.
Qed.

Lemma applyResize_without_rule_is_identity_witness :
  resizeRequest (P := Toy.platform) 800 600 DefaultOptions = None /\
  applyResize (P := Toy.platform) (Toy.picture 800 600) DefaultOptions
  = Toy.picture 800 600.
Proof.
  apply (applyResize_without_rule_is_identity Toy.platform
           (Toy.picture 800 600) DefaultOptions);
    [reflexivity | simpl; lia | simpl; lia].
Defined.

(** As soon as a rule applies the resampler is called, whatever the
    target. *)
Lemma applyResize_with_rule_resamples :
  forall (P : Platform) (img : Image) (options : CompressionOptions) (w h : Z),
    resizeRequest (Bounds_Dx img) (Bounds_Dy img) options = Some (w, h) ->
    applyResize img options = imaging_Resize img w h.
Proof.
  intros P img options w h E. now rewrite applyResize_request, E.
Qed.


(** Unfolding one of the two [Compress] bodies along every outcome of the
    calls it makes. *)
Ltac unfold_body :=
  cbv beta iota zeta delta [JPEGCompressor.Compress PNGCompressor.Compress run
                            bind read call pure return_ defer_Close fail].

Ltac next_call :=
  match goal with
  | |- context [os_Stat ?p ?w] => destruct (os_Stat p w) eqn:?
  | |- context [imaging_Open ?p ?w] => destruct (imaging_Open p w) eqn:?
  | |- context [String.eqb (OutputDir ?o) ?b] =>
      destruct (String.eqb (OutputDir o) b) eqn:?
  | |- context [os_MkdirAll ?p ?w] =>
      destruct (os_MkdirAll p w) as [[?|] ?] eqn:?
  | |- context [os_Create ?p ?w] =>
      destruct (os_Create p w) as [[?|?] ?] eqn:?
  | |- context [jpeg_Encode ?f ?i ?q ?w] =>
      destruct (jpeg_Encode f i q w) as [[?|] ?] eqn:?
  | |- context [png_Encode ?f ?i ?l ?w] =>
      destruct (png_Encode f i l w) as [[?|] ?] eqn:?
  end.

Ltac compress_cases :=
  unfold_body; repeat (next_call; cbv beta iota zeta delta [negb]).

(** Reading a field of the result that was built. *)
Ltac read_fields :=
  cbn [fst snd InputPath OutputPath InputSize OutputSize Reduction Result.Width
       Result.Height Success Error Result.new set_Error set_InputSize
       set_OutputSize set_Bounds set_OutputPath set_Reduction set_Success].

(** The failing branches build a failed result. *)
Lemma failed_with_fail :
  forall (result : CompressionResult) (msg : string) (err : error),
    Success result = false ->
    failed_with msg err
      (set_Error result (Some (Errorf msg err)),
       Error (set_Error result (Some (Errorf msg err)))).
Proof.
  intros result msg err H. unfold failed_with. cbn. auto.
Qed.

(** C5.  Both [Compress] operations are total, and in the result they
    return [Error] is set exactly when [Success] is false; the error they
    return next to it is that same [Error].  A failure of any call on the
    way ends in such a failed result, with the message of that step: the
    stat of the input, the decoding, the creation of the output directory
    (called only when one is set), the creation of the output file, the
    encoding, and the stat of the output, each on the file system the
    calls before it have left. *)
Theorem Compress_error_iff_failure :
  forall (P : Platform) (inputPath : string) (options : CompressionOptions)
         (w : World),
    let jpeg := fst (JPEGCompressor.Compress inputPath options w) in
    let png := fst (PNGCompressor.Compress inputPath options w) in
    let outputPath := GenerateOutputPath inputPath options in
    (* the error and the flag *)
    ((Error (fst jpeg) <> None <-> Success (fst jpeg) = false) /\
     snd jpeg = Error (fst jpeg) /\
     (Error (fst png) <> None <-> Success (fst png) = false) /\
     snd png = Error (fst png)) /\
    (* stat *)
    (forall err,
        os_Stat inputPath w = inl err ->
        failed_with "failed to get input file info" err jpeg /\
        failed_with "failed to get input file info" err png) /\
    (* decode *)
    (forall size err,
        os_Stat inputPath w = inr size ->
        imaging_Open inputPath w = inl err ->
        failed_with "failed to open image" err jpeg /\
        failed_with "failed to open image" err png) /\
    (forall size img,
        os_Stat inputPath w = inr size ->
        imaging_Open inputPath w = inr img ->
        (* directory creation *)
        (forall err w1,
            OutputDir options <> "" ->
            os_MkdirAll (OutputDir options) w = (Some err, w1) ->
            failed_with "failed to create output directory" err jpeg /\
            failed_with "failed to create output directory" err png) /\
        (forall w1,
            directory_made options w w1 ->
            (* output-file creation *)
            (forall err w2,
                os_Create outputPath w1 = (inl err, w2) ->
                failed_with "failed to create output file" err jpeg /\
                failed_with "failed to create output file" err png) /\
            (forall outFile w2,
                os_Create outputPath w1 = (inr outFile, w2) ->
                (* encode *)
                (forall err w3,
                    jpeg_Encode outFile (applyResize img options)
                      (Quality options) w2 = (Some err, w3) ->
                    failed_with "failed to encode JPEG" err jpeg) /\
                (forall err w3,
                    png_Encode outFile (applyResize img options)
                      (PNGCompressor.compressionLevel options) w2 = (Some err, w3) ->
                    failed_with "failed to encode PNG" err png) /\
                (* output stat *)
                (forall err w3,
                    jpeg_Encode outFile (applyResize img options)
                      (Quality options) w2 = (None, w3) ->
                    os_Stat outputPath w3 = inl err ->
                    failed_with "failed to get output file info" err jpeg) /\
                (forall err w3,
                    png_Encode outFile (applyResize img options)
                      (PNGCompressor.compressionLevel options) w2 = (None, w3) ->
                    os_Stat outputPath w3 = inl err ->
                    failed_with "failed to get output file info" err png)))).
Proof.
  intros P inputPath options w jpeg png outputPath. subst jpeg png outputPath.
  split.
  { repeat split; compress_cases; read_fields; intros; congruence. }
  split.
  { intros err H. split; unfold_body; rewrite H; apply failed_with_fail; reflexivity. }
  split.
  { intros size err H1 H2.
    split; unfold_body; rewrite H1, H2; apply failed_with_fail; reflexivity. }
  intros size img H1 H2. split.
  { intros err w1 Hdir H3. apply String.eqb_neq in Hdir.
    split; unfold_body; rewrite H1, H2, Hdir; cbv beta iota zeta delta [negb];
      rewrite H3; apply failed_with_fail; reflexivity. }
  intros w1 Hmade.
  unfold directory_made in Hmade.
  split.
  { intros err w2 H3.
    split; unfold_body; rewrite H1, H2;
      destruct (String.eqb (OutputDir options) "");
      cbv beta iota zeta delta [negb];
      [subst w1 | rewrite Hmade | subst w1 | rewrite Hmade];
      rewrite H3; apply failed_with_fail; reflexivity. }
  intros outFile w2 H3.
  split; [|split; [|split]]; intros err w3 H4; try intros H5;
    unfold_body; rewrite H1, H2;
    destruct (String.eqb (OutputDir options) "");
    cbv beta iota zeta delta [negb];
    try subst w1; try rewrite Hmade;
    rewrite H3; rewrite H4; try rewrite H5;
    cbn [fst snd]; apply failed_with_fail; reflexivity.
Qed.

(** Each of the six steps failing on the small platform: a missing
    input, a truncated picture, a disk that refuses the directory, the
    file, or the bytes, and a file that is gone when it is looked up. *)
Lemma Compress_error_iff_failure_witness :
  let cat := "photos/cat.jpg" in
  let out := "photos/cat_compressed.jpg" in
  let compress := JPEGCompressor.Compress (P := Worn.platform) in
  (* no such input *)
  (os_Stat (Platform := Worn.platform) "photos/dog.jpg" Worn.sound
     = inl "no such file or directory" /\
   failed_with "failed to get input file info" "no such file or directory"
     (fst (compress "photos/dog.jpg" DefaultOptions Worn.sound))) /\
  (* a truncated picture *)
  (imaging_Open (Platform := Worn.platform) "photos/broken.jpg" Worn.sound
     = inl "image: unknown format" /\
   failed_with "failed to open image" "image: unknown format"
     (fst (compress "photos/broken.jpg" DefaultOptions Worn.sound))) /\
  (* the directory is refused *)
  (os_MkdirAll (Platform := Worn.platform) "out" Worn.no_directories
     = (Some "permission denied", Worn.no_directories) /\
   failed_with "failed to create output directory" "permission denied"
     (fst (compress cat Worn.into_out Worn.no_directories))) /\
  (* the file is refused *)
  (os_Create (Platform := Worn.platform) out Worn.read_only
     = (inl "permission denied", Worn.read_only) /\
   failed_with "failed to create output file" "permission denied"
     (fst (compress cat DefaultOptions Worn.read_only))) /\
  (* the disk is full *)
  (failed_with "failed to encode JPEG" "no space left on device"
     (fst (compress cat DefaultOptions Worn.full_disk)) /\
   failed_with "failed to encode PNG" "no space left on device"
     (fst (PNGCompressor.Compress (P := Worn.platform) "photos/dot.png"
             DefaultOptions Worn.full_disk))) /\
  (* the written file is gone *)
  (failed_with "failed to get output file info" "no such file or directory"
     (fst (compress cat DefaultOptions Worn.losing)) /\
   failed_with "failed to get output file info" "no such file or directory"
     (fst (PNGCompressor.Compress (P := Worn.platform) "photos/dot.png"
             DefaultOptions Worn.losing))).
Proof.
  cbv zeta.
  split; [|split; [|split; [|split; [|split]]]].
  - split; [reflexivity|].
    pose proof (Compress_error_iff_failure Worn.platform "photos/dog.jpg"
                  DefaultOptions Worn.sound) as H.
    cbv zeta in H. destruct H as (_ & H & _).
    exact (proj1 (H _ eq_refl)).
  - split; [reflexivity|].
    pose proof (Compress_error_iff_failure Worn.platform "photos/broken.jpg"
                  DefaultOptions Worn.sound) as H.
    cbv zeta in H. destruct H as (_ & _ & H & _).
    exact (proj1 (H 7 _ eq_refl eq_refl)).
  - split; [reflexivity|].
    pose proof (Compress_error_iff_failure Worn.platform "photos/cat.jpg"
                  Worn.into_out Worn.no_directories) as H.
    cbv zeta in H. destruct H as (_ & _ & _ & H).
    destruct (H 2000000 (Toy.picture 800 600) eq_refl eq_refl) as [H1 _].
    refine (proj1 (H1 _ Worn.no_directories _ eq_refl)). discriminate.
  - split; [reflexivity|].
    pose proof (Compress_error_iff_failure Worn.platform "photos/cat.jpg"
                  DefaultOptions Worn.read_only) as H.
    cbv zeta in H. destruct H as (_ & _ & _ & H).
    destruct (H 2000000 (Toy.picture 800 600) eq_refl eq_refl) as [_ H1].
    destruct (H1 Worn.read_only eq_refl) as [H2 _].
    exact (proj1 (H2 _ Worn.read_only eq_refl)).
  - split.
    + pose proof (Compress_error_iff_failure Worn.platform "photos/cat.jpg"
                    DefaultOptions Worn.full_disk) as H.
      cbv zeta in H. destruct H as (_ & _ & _ & H).
      destruct (H 2000000 (Toy.picture 800 600) eq_refl eq_refl) as [_ H1].
      destruct (H1 Worn.full_disk eq_refl) as [_ H2].
      edestruct H2 as (H3 & _); [vm_compute; reflexivity|].
      eapply H3. vm_compute. reflexivity.
    + pose proof (Compress_error_iff_failure Worn.platform "photos/dot.png"
                    DefaultOptions Worn.full_disk) as H.
      cbv zeta in H. destruct H as (_ & _ & _ & H).
      destruct (H 100 (Toy.picture 10 10) eq_refl eq_refl) as [_ H1].
      destruct (H1 Worn.full_disk eq_refl) as [_ H2].
      edestruct H2 as (_ & H3 & _); [vm_compute; reflexivity|].
      eapply H3. vm_compute. reflexivity.
  - split.
    + pose proof (Compress_error_iff_failure Worn.platform "photos/cat.jpg"
                    DefaultOptions Worn.losing) as H.
      cbv zeta in H. destruct H as (_ & _ & _ & H).
      destruct (H 2000000 (Toy.picture 800 600) eq_refl eq_refl) as [_ H1].
      destruct (H1 Worn.losing eq_refl) as [_ H2].
      edestruct H2 as (_ & _ & H3 & _); [vm_compute; reflexivity|].
      eapply H3; vm_compute; reflexivity.
    + pose proof (Compress_error_iff_failure Worn.platform "photos/dot.png"
                    DefaultOptions Worn.losing) as H.
      cbv zeta in H. destruct H as (_ & _ & _ & H).
      destruct (H 100 (Toy.picture 10 10) eq_refl eq_refl) as [_ H1].
      destruct (H1 Worn.losing eq_refl) as [_ H2].
      edestruct H2 as (_ & _ & _ & H3); [vm_compute; reflexivity|].
      eapply H3; vm_compute; reflexivity.
Defined.

(** Every way [Compress] can end: with [Success], or failed with the
    message of the step that failed. *)
Lemma JPEG_Compress_outcomes :
  forall (P : Platform) (inputPath : string) (options : CompressionOptions)
         (w : World),
    let result := fst (fst (JPEGCompressor.Compress inputPath options w)) in
    Success result = true \/
    exists msg err, In msg (failure_messages "failed to encode JPEG") /\
                    Error result = Some (Errorf msg err).
Proof.
  intros P inputPath options w result. subst result.
  compress_cases; read_fields; auto; right; eexists; eexists;
    (split; [|reflexivity]); simpl; tauto.
Qed.

Lemma PNG_Compress_outcomes :
  forall (P : Platform) (inputPath : string) (options : CompressionOptions)
         (w : World),
    let result := fst (fst (PNGCompressor.Compress inputPath options w)) in
    Success result = true \/
    exists msg err, In msg (failure_messages "failed to encode PNG") /\
                    Error result = Some (Errorf msg err).
Proof.
  intros P inputPath options w result. subst result.
  compress_cases; read_fields; auto; right; eexists; eexists;
    (split; [|reflexivity]); simpl; tauto.
Qed.

(** A failure of the first step leaves the file system as it was. *)
Lemma Compress_unreadable_input :
  forall (P : Platform) (inputPath : string) (options : CompressionOptions)
         (w : World) (err : error),
    os_Stat inputPath w = inl err ->
    let failed := set_Error (Result.new inputPath)
                    (Some (Errorf "failed to get input file info" err)) in
    JPEGCompressor.Compress inputPath options w = ((failed, Error failed), w) /\
    PNGCompressor.Compress inputPath options w = ((failed, Error failed), w).
Proof.
  intros P inputPath options w err H failed. subst failed.
  split; unfold_body; rewrite H; reflexivity.
Qed.

(** In a successful result the reduction is computed from the two sizes
    stored next to it. *)
Lemma Compress_reduction_of_sizes :
  forall (P : Platform) (inputPath : string) (options : CompressionOptions)
         (w : World) (result : CompressionResult),
    result = fst (fst (JPEGCompressor.Compress inputPath options w)) \/
    result = fst (fst (PNGCompressor.Compress inputPath options w)) ->
    Success result = true ->
    Reduction result = CalculateReduction (InputSize result) (OutputSize result).
Proof.
  intros P inputPath options w result [-> | ->]; compress_cases; read_fields;
    intros; congruence.
Qed.

(** C4.  In the result of a successful compression of a file of size
    [I > 0] the [Reduction] is [(1 - O/I) * 100], computed in [float64]
    from the [InputSize] and [OutputSize] of that same result, with no
    clamping: when [O > I] (and [O] is below [2^53], so that [float64]
    holds both sizes exactly) it is below zero. *)
Theorem Compress_reduction_unclamped :
  forall (P : Platform) (inputPath : string) (options : CompressionOptions)
         (w : World) (result : CompressionResult),
    result = fst (fst (JPEGCompressor.Compress inputPath options w)) \/
    result = fst (fst (PNGCompressor.Compress inputPath options w)) ->
    Success result = true ->
    0 < InputSize result ->
    Reduction result = Spec.reduction (InputSize result) (OutputSize result) /\
    (InputSize result < OutputSize result -> OutputSize result < 2 ^ 53 ->
     is_negative (Reduction result) = true).
Proof.
  intros P inputPath options w result Hres Hok Hpos.
  rewrite (Compress_reduction_of_sizes P inputPath options w result Hres Hok).
  rewrite CalculateReduction_formula by lia.
  split; [reflexivity|]. intros Hgrow Hfit.
  now apply reduction_below_zero.
Qed.

Lemma Compress_reduction_unclamped_witness :
  Reduction Toy.dot_result
  = Spec.reduction (InputSize Toy.dot_result) (OutputSize Toy.dot_result) /\
  (InputSize Toy.dot_result < OutputSize Toy.dot_result ->
   OutputSize Toy.dot_result < 2 ^ 53 ->
   is_negative (Reduction Toy.dot_result) = true).
Proof.
  apply (Compress_reduction_unclamped Toy.platform "photos/dot.png"
           DefaultOptions Toy.disk Toy.dot_result).
  - right. vm_compute. reflexivity.
  - reflexivity.
  - vm_compute. reflexivity.
Defined.

(** The 100 bytes of [photos/dot.png] come out as 151: a reduction of
    -51 percent, reported as such. *)
Example dot_png_grows :
  InputSize Toy.dot_result = 100 /\ OutputSize Toy.dot_result = 151 /\
  Reduction Toy.dot_result = SFopp (of_int 51) /\
  is_negative (Reduction Toy.dot_result) = true.
Proof. vm_compute. repeat split. Qed.



(** The default quality 85 on two million bytes: 0.1 + 0.85 * 0.4 of them;
    a PNG of 20 bytes at level 7 is estimated at 12 bytes, since
    [1 - 7 * 0.05] falls just below 0.65 in [float64]. *)
Example EstimateSize_jpeg_default :
  fst (EstimateSize (P := Toy.platform) "photos/cat.jpg" DefaultOptions Toy.disk)
  = (880000, None).
Proof. reflexivity. Qed.

Example png_estimate_rounding :
  Spec.png_estimate (P := Toy.platform) 20
    {| Quality := 85; ResizePercent := zero; ResizeWidth := 0; ResizeHeight := 0;
       StripMetadata := true; OutputDir := ""; OutputSuffix := "";
       Progressive := true; ChromaSubsample := "4:2:0"; CompressionLevel := 7;
       Interlaced := false |}
  = 12.
Proof. reflexivity. Qed.

(** ** api.go: the batch *)

Lemma wrap64_small : forall z, in_int64 z = true -> wrap64 z = z.
Proof.
  intros z H. unfold in_int64, int64_min, int64_max in H. unfold wrap64.
  apply andb_prop in H as [H1 H2].
  rewrite Z.mod_small; lia.
Qed.


Lemma count_cons : forall f g gs,
  count f (g :: gs) = (if f g then 1 else 0) + count f gs.
Proof.
  intros f g gs. unfold count. cbn [filter]. destruct (f g); cbn [List.length]; lia.
Qed.

Lemma count_app : forall f gs1 gs2,
  count f (gs1 ++ gs2)%list = count f gs1 + count f gs2.
Proof.
  intros f gs1 gs2. unfold count.
  rewrite filter_app, length_app. lia.
Qed.

Lemma count_bounds : forall f gs, 0 <= count f gs <= Z.of_nat (List.length gs).
Proof.
  intros f gs. unfold count. pose proof (filter_length_le f gs). lia.
Qed.




(** The cases of [act]. *)
Ltac act_cases H :=
  unfold act in H;
  match type of H with
  | (if panicked ?sh then _ else _) = _ =>
      destruct (panicked sh) eqn:?; [discriminate|]
  end;
  match type of H with
  | match at_ ?g with _ => _ end = _ =>
      destruct g as [path [| |result|[result|]|result|result| |]];
      cbn [at_ inputPath] in H
  end;
  repeat match type of H with
         | (if ?c then _ else _) = _ => destruct c eqn:?; try discriminate
         | (let '(_, _) := ?c in _) = _ => destruct c as [[? ?] ?] eqn:?
         end;
  try discriminate;
  injection H as <- <-.

Section BatchFacts.
Context {P : Platform}.
Variable options : CompressionOptions.
Variable progressChan : bool.

(** One step changes one goroutine, by its next statement. *)
Lemma fire_one : forall i gs sh gs' sh',
  fire options progressChan i gs sh = Some (gs', sh') ->
  exists before g g' after,
    gs = (before ++ g :: after)%list /\ gs' = (before ++ g' :: after)%list /\
    act options progressChan g sh = Some (g', sh').
Proof.
  induction i as [|i IH]; intros [|g gs] sh gs' sh' H; simpl in H;
    try discriminate.
  - destruct (act options progressChan g sh) as [[g' sh'']|] eqn:E;
      [|discriminate].
    injection H as <- <-. now exists [], g, g', gs.
  - destruct (fire options progressChan i gs sh) as [[rest' sh'']|] eqn:E;
      [|discriminate].
    injection H as <- <-.
    destruct (IH _ _ _ _ E) as (before & g0 & g' & after & -> & -> & Hact).
    now exists (g :: before), g0, g', after.
Qed.

Lemma exec_reachable : forall schedule s s',
  exec options progressChan schedule s = Some s' ->
  reachable options progressChan s s'.
Proof.
  intros schedule s s' H.
  enough (forall s0, reachable options progressChan s0 s ->
                     reachable options progressChan s0 s') as G
      by (apply G; constructor).
  revert s H. induction schedule as [|i later IH]; intros s H s0 Hs; simpl in H.
  - now injection H as <-.
  - destruct (fire options progressChan i (fst s) (snd s)) as [s1|] eqn:E;
      [|discriminate].
    apply (IH s1 H). econstructor; [exact Hs|]. now exists i.
Qed.

(** A property of the states that holds at the start and is kept by
    every statement holds in every reachable state. *)
Lemma reachable_invariant : forall (Inv : state -> Prop) s0,
  Inv s0 ->
  (forall gs sh g g' before after sh',
      Inv ((before ++ g :: after)%list, sh) ->
      gs = (before ++ g :: after)%list ->
      act options progressChan g sh = Some (g', sh') ->
      Inv ((before ++ g' :: after)%list, sh')) ->
  forall s, reachable options progressChan s0 s -> Inv s.
Proof.
  intros Inv s0 H0 Hstep s Hs. induction Hs as [|s s' _ IH [i Hi]]; [exact H0|].
  destruct s as [gs sh], s' as [gs' sh']. simpl in Hi.
  destruct (fire_one _ _ _ _ _ Hi) as (before & g & g' & after & -> & -> & Hact).
  eapply Hstep; eauto.
Qed.

(** *** The admission gate *)

Lemma gate_invariant_reachable : forall inputPaths w s,
  reachable options progressChan (init inputPaths w) s -> gate_invariant s.
Proof.
  intros inputPaths w. apply reachable_invariant.
  - unfold gate_invariant, init, capacity. simpl. split; [|lia].
    induction inputPaths as [|p ps IH]; [reflexivity|].
    simpl map. rewrite count_cons, IH. reflexivity.
  - unfold gate_invariant, capacity. simpl fst. simpl snd.
    intros gs sh g g' before after sh' [Hc Hs] _ Hact.
    rewrite count_app, count_cons in *.
    pose proof (count_bounds holds_slot before).
    pose proof (count_bounds holds_slot after).
    act_cases Hact; unfold capacity in *;
      cbn [holds_slot at_ move semaphore set_semaphore set_world
           set_mu set_batchResult set_panicked set_sent] in *;
      try (destruct progressChan; cbn [semaphore set_sent]); lia.
Qed.

Lemma in_flight_holds_slot : forall gs,
  count in_flight gs <= count holds_slot gs.
Proof.
  induction gs as [|g gs IH]; [reflexivity|].
  rewrite !count_cons.
  assert (in_flight g = true -> holds_slot g = true) as H
      by (unfold in_flight, holds_slot; destruct (at_ g); congruence).
  destruct (in_flight g), (holds_slot g); lia.
Qed.

End BatchFacts.

(** C9.  In every state a batch run can reach, the goroutines between
    their acquire and their release are as many as the slots taken in the
    semaphore, which has 4; the goroutines inside [CompressImage] are among
    them, so at most 4 compressions are in flight. *)
Theorem BatchCompress_at_most_four_in_flight :
  forall (P : Platform) (options : CompressionOptions) (progressChan : bool)
         (inputPaths : list string) (w : World) (s : state),
    reachable options progressChan (init inputPaths w) s ->
    count in_flight (fst s) <= 4 /\
    count in_flight (fst s) <= count holds_slot (fst s) /\
    count holds_slot (fst s) = semaphore (snd s) /\
    0 <= semaphore (snd s) <= 4 /\
    Forall (fun g => in_flight g = true -> holds_slot g = true) (fst s).
Proof.
  intros P options progressChan inputPaths w s Hs.
  destruct (gate_invariant_reachable _ _ _ _ _ Hs) as [Hc Hb].
  pose proof (in_flight_holds_slot (fst s)) as Hf.
  unfold capacity in Hb. repeat split; try lia.
  apply Forall_forall. intros g _. unfold in_flight, holds_slot.
  destruct (at_ g); congruence.
Qed.

(** *** What [CompressImage] hands to a goroutine *)

Lemma Compress_keeps_InputPath :
  forall (P : Platform) (inputPath : string) (options : CompressionOptions)
         (w : World),
    InputPath (fst (fst (JPEGCompressor.Compress inputPath options w))) = inputPath /\
    InputPath (fst (fst (PNGCompressor.Compress inputPath options w))) = inputPath.
Proof.
  intros P inputPath options w. split; compress_cases; reflexivity.
Qed.

Lemma GetImageFormat_supported : forall (path : string) (format : ImageFormat),
  GetImageFormat path = inr format -> format = FormatJPEG \/ format = FormatPNG.
Proof.
  intros path format. unfold GetImageFormat.
  destruct (_ || _)%bool; [intros [= <-]; now left|].
  destruct (String.eqb _ ".png"); [intros [= <-]; now right | discriminate].
Qed.

Lemma CompressImage_unsupported :
  forall (P : Platform) (inputPath : string) (options : CompressionOptions)
         (w : World) (err : error),
    GetImageFormat inputPath = inl err ->
    CompressImage inputPath options w = ((None, Some err), w).
Proof.
  intros P inputPath options w err H. unfold CompressImage. now rewrite H.
Qed.

Lemma CompressImage_supported :
  forall (P : Platform) (inputPath : string) (options : CompressionOptions)
         (w : World) (format : ImageFormat),
    GetImageFormat inputPath = inr format ->
    exists result, fst (fst (CompressImage inputPath options w)) = Some result.
Proof.
  intros P inputPath options w format H. unfold CompressImage. rewrite H.
  destruct (GetImageFormat_supported _ _ H) as [-> | ->]; simpl.
  - destruct (JPEGCompressor.Compress inputPath options w) as [[result err] w'].
    now exists result.
  - destruct (PNGCompressor.Compress inputPath options w) as [[result err] w'].
    now exists result.
Qed.

Lemma CompressImage_keeps_InputPath :
  forall (P : Platform) (inputPath : string) (options : CompressionOptions)
         (w w' : World) (result : CompressionResult) (err : option error),
    CompressImage inputPath options w = ((Some result, err), w') ->
    InputPath result = inputPath.
Proof.
  intros P inputPath options w w' result err. unfold CompressImage.
  destruct (Compress_keeps_InputPath P inputPath options w) as [Hj Hp].
  destruct (GetImageFormat inputPath) as [e|format]; [discriminate|].
  destruct (String.eqb format FormatJPEG).
  - destruct (JPEGCompressor.Compress inputPath options w) as [[r e] w1].
    intros [= <- _ _]. exact Hj.
  - destruct (String.eqb format FormatPNG); [|discriminate].
    destruct (PNGCompressor.Compress inputPath options w) as [[r e] w1].
    intros [= <- _ _]. exact Hp.
Qed.

Section BatchResults.
Context {P : Platform}.
Variable options : CompressionOptions.
Variable progressChan : bool.

(** Reading the shared state after a statement. *)
Ltac read_shared :=
  unfold move in *;
  cbn [fst snd at_ inputPath move has_recorded holds_slot semaphore mu
       batchResult sent world panicked set_semaphore set_mu set_batchResult
       set_sent set_world set_panicked Results TotalInput TotalOutput
       TotalReduction SuccessCount FailCount set_Results update_nil] in *.

Ltac split_chan :=
  try match goal with
      | |- context [if progressChan then _ else _] => destruct progressChan
      end.


Lemma filter_has_recorded_move : forall before after g g',
  has_recorded g' = has_recorded g -> inputPath g' = inputPath g ->
  map inputPath (filter has_recorded (before ++ g' :: after)%list)
  = map inputPath (filter has_recorded (before ++ g :: after)%list).
Proof.
  intros before after g g' H1 H2. rewrite !filter_app. cbn [filter].
  rewrite H1. destruct (has_recorded g); [|reflexivity].
  rewrite !map_app. cbn [map]. now rewrite H2.
Qed.

(** A statement that appends nothing keeps the invariant. *)
Lemma results_invariant_move :
  forall inputPaths before after (g g' : goroutine) (sh sh' : shared),
    inputPath g' = inputPath g -> carries_own_path g' ->
    has_recorded g' = has_recorded g ->
    batchResult sh' = batchResult sh -> panicked sh' = panicked sh ->
    results_invariant inputPaths ((before ++ g :: after)%list, sh) ->
    results_invariant inputPaths ((before ++ g' :: after)%list, sh').
Proof.
  unfold results_invariant. cbn [fst snd].
  intros inputPaths before after g g' sh sh' Hpath Hown Hrec Hb Hp (Hm & Hc & Hr).
  rewrite Hb, Hp. split; [|split].
  - rewrite <- Hm, !map_app. cbn [map]. now rewrite Hpath.
  - apply Forall_app in Hc as [Hc1 Hc2]. inversion Hc2; subst.
    apply Forall_app. split; [assumption | now constructor].
  - intros H. destruct (Hr H) as [Hr1 Hr2]. split; [assumption|].
    now rewrite (filter_has_recorded_move before after g g').
Qed.

Lemma results_invariant_reachable : forall inputPaths w s,
  reachable options progressChan (init inputPaths w) s ->
  results_invariant inputPaths s.
Proof.
  intros inputPaths w. apply reachable_invariant.
  - unfold results_invariant, init. cbn [fst snd batchResult panicked].
    split; [|split].
    + rewrite map_map. apply map_id.
    + apply Forall_forall. intros g Hg. apply in_map_iff in Hg as (p & <- & _).
      exact I.
    + intros _. split; [constructor|].
      replace (filter has_recorded _) with (@nil goroutine); [constructor|].
      induction inputPaths as [|p ps IH]; [reflexivity | exact IH].
  - intros gs sh g g' before after sh' Hinv _ Hact.
    assert (carries_own_path g) as Hg.
    { destruct Hinv as (_ & Hc & _). cbn [fst] in Hc.
      apply Forall_app in Hc as [_ Hc]. now inversion Hc. }
    act_cases Hact; split_chan;
      try (eapply results_invariant_move; [| | | | |exact Hinv];
           first [reflexivity | exact I | exact Hg]).
    + (* CompressImage has returned *)
      eapply results_invariant_move; [| | | | |exact Hinv]; try reflexivity.
      unfold carries_own_path. cbn [at_ inputPath move].
      match goal with
      | E : CompressImage _ _ _ = (?r, _, _) |- _ =>
          destruct r as [result|]; [|exact I];
          eapply CompressImage_keeps_InputPath; exact E
      end.
    + (* the update with a result *)
      unfold results_invariant in *. read_shared.
      destruct Hinv as (Hm & Hc & Hr).
      apply Forall_app in Hc as [Hc1 Hc2]. inversion Hc2; subst.
      split; [|split].
      * rewrite !map_app. reflexivity.
      * apply Forall_app. split; [assumption | now constructor].
      * intros Hp. destruct (Hr Hp) as [Hr1 Hr2].
        assert (Results (update (batchResult sh) result)
                = (Results (batchResult sh) ++ [Some result])%list) as ->
            by (unfold update; destruct (Success result); reflexivity).
        split.
        -- apply Forall_app. split; [assumption|].
           constructor; [discriminate | constructor].
        -- unfold result_paths in *. rewrite flat_map_app. cbn [flat_map].
           rewrite app_nil_r.
           rewrite filter_app in *. cbn [filter has_recorded at_] in *.
           rewrite map_app in *. cbn [map inputPath].
           unfold carries_own_path in Hg. cbn [at_ inputPath] in Hg.
           rewrite Hg.
           eapply Permutation_trans;
             [apply Permutation_sym, Permutation_cons_append|].
           apply Permutation_cons_app. exact Hr2.
    + (* the update with nil: the process has panicked *)
      unfold results_invariant in *. read_shared.
      destruct Hinv as (Hm & Hc & Hr).
      split; [assumption|]. split; [assumption | discriminate].
Qed.


End BatchResults.







Example batch_result_values :
  map (option_map InputPath) (Results Toy.batch_result)
  = [Some "photos/broken.jpg"; Some "photos/cat.jpg"; Some "photos/dot.png"] /\
  TotalInput Toy.batch_result = 2000100 /\
  TotalOutput Toy.batch_result = 408152 /\
  SuccessCount Toy.batch_result = 2 /\ FailCount Toy.batch_result = 1.
Proof. vm_compute. repeat split. Qed.

Section BatchRuns.
Context {P : Platform}.
Variable options : CompressionOptions.
Variable progressChan : bool.

Lemma fire_at : forall before after g g' sh sh',
  act options progressChan g sh = Some (g', sh') ->
  fire options progressChan (List.length before) (before ++ g :: after)%list sh
  = Some ((before ++ g' :: after)%list, sh').
Proof.
  induction before as [|g0 before IH]; intros after g g' sh sh' H; simpl.
  - now rewrite H.
  - now rewrite (IH _ _ _ _ _ H).
Qed.

Lemma reachable_act : forall s0 before after g g' sh sh',
  reachable options progressChan s0 ((before ++ g :: after)%list, sh) ->
  act options progressChan g sh = Some (g', sh') ->
  reachable options progressChan s0 ((before ++ g' :: after)%list, sh').
Proof.
  intros s0 before after g g' sh sh' Hs Hact.
  econstructor; [exact Hs|]. exists (List.length before). now apply fire_at.
Qed.

(** A goroutine whose path has no supported extension stays before the
    update, where only the panic is left to it. *)
Lemma stuck_before_update_reachable : forall inputPaths w s,
  reachable options progressChan (init inputPaths w) s ->
  Forall stuck_before_update (fst s).
Proof.
  intros inputPaths w.
  apply (reachable_invariant options progressChan
           (fun s => Forall stuck_before_update (fst s))).
  - cbn [init fst]. apply Forall_forall. intros g Hg.
    apply in_map_iff in Hg as (p & <- & _). intros _. now left.
  - cbn [fst]. intros gs sh g g' before after sh' Hall _ Hact.
    apply Forall_app in Hall as [H1 H2]. inversion H2 as [|? ? Hg H3]; subst.
    apply Forall_app. split; [exact H1|]. constructor; [|exact H3].
    unfold stuck_before_update in *.
    act_cases Hact; unfold move; cbn [at_ inputPath] in *; intros Hbad;
      try (destruct (Hg Hbad) as [?|[?|[?|?]]]; discriminate); auto.
    + (* CompressImage returns nil on such a path *)
      destruct Hbad as [err Herr].
      match goal with
      | E : CompressImage _ _ _ = _ |- _ =>
          rewrite (CompressImage_unsupported _ _ _ _ _ Herr) in E;
          injection E as <- _ _
      end.
      auto.
    + destruct (Hg Hbad) as [?|[?|[E|?]]]; try discriminate.
      injection E as ->. auto.
Qed.

Lemma BatchCompress_unsupported_never_returns :
  forall (inputPaths : list string) (path : string) (err : error) (w : World)
         (res : BatchResult),
    In path inputPaths -> GetImageFormat path = inl err ->
    ~ BatchCompress_returns options progressChan inputPaths w res.
Proof.
  intros inputPaths path err w res Hin Herr (s & Hs & Hdone & _ & _).
  pose proof (stuck_before_update_reachable _ _ _ Hs) as Hstuck.
  destruct (results_invariant_reachable _ _ _ _ _ Hs) as (Hm & _ & _).
  rewrite <- Hm in Hin. apply in_map_iff in Hin as (g & Hg & Hin).
  unfold all_done in Hdone. rewrite Forall_forall in Hstuck, Hdone.
  specialize (Hdone g Hin). cbv beta in Hdone.
  destruct (Hstuck g Hin) as [E|[E|[E|E]]];
    try (rewrite Hg; now exists err); congruence.
Qed.

Lemma BatchCompress_unsupported_can_panic :
  forall (before after : list string) (path : string) (err : error) (w : World),
    GetImageFormat path = inl err ->
    BatchCompress_panics options progressChan (before ++ path :: after)%list w.
Proof.
  intros before after path err w Herr. unfold BatchCompress_panics, init.
  rewrite map_app. cbn [map].
  set (gb := map (fun p => {| inputPath := p; at_ := AtAcquire |}) before).
  set (ga := map (fun p => {| inputPath := p; at_ := AtAcquire |}) after).
  eexists. split.
  - eapply reachable_act; [eapply reachable_act; [eapply reachable_act;
      [eapply reachable_act; [apply reachable_start|]|]|]|].
    + unfold act. cbn [panicked at_ semaphore]. reflexivity.
    + unfold act. cbn [panicked at_ semaphore set_semaphore move inputPath world].
      rewrite (CompressImage_unsupported _ _ _ _ _ Herr). reflexivity.
    + unfold act. cbn. reflexivity.
    + unfold act. cbn. reflexivity.
  - reflexivity.
Qed.

Lemma push_keeps : forall (b : bool) (sh : shared) (l : list CompressionResult),
  let sh' := if b then set_sent sh l else sh in
  semaphore sh' = semaphore sh /\ mu sh' = mu sh /\ panicked sh' = panicked sh.
Proof. intros [|] sh l; repeat split. Qed.

(** From a state where nobody holds a slot or the mutex, a goroutine
    whose path has a supported extension runs to its end. *)
Lemma goroutine_runs_to_end :
  forall s0 before after path format sh,
    GetImageFormat path = inr format ->
    semaphore sh = 0 -> mu sh = false -> panicked sh = false ->
    reachable options progressChan s0
      ((before ++ {| inputPath := path; at_ := AtAcquire |} :: after)%list, sh) ->
    exists sh',
      semaphore sh' = 0 /\ mu sh' = false /\ panicked sh' = false /\
      reachable options progressChan s0
        ((before ++ {| inputPath := path; at_ := Finished |} :: after)%list, sh').
Proof.
  intros s0 before after path format sh Hfmt Hsem Hmu Hpanic Hs.
  destruct (CompressImage_supported _ path options (world sh) _ Hfmt)
    as [result Hres].
  destruct (CompressImage path options (world sh)) as [[r e] w'] eqn:Hcall.
  cbn [fst] in Hres. subst r.
  set (sh3 := set_mu (set_world (set_semaphore sh 1) w') true).
  set (sh5 := set_mu (set_batchResult sh3 (update (batchResult sh3) result))
                     false).
  set (sh6 := if progressChan then set_sent sh5 (sent sh5 ++ [result])%list
              else sh5).
  destruct (push_keeps progressChan sh5 (sent sh5 ++ [result])%list)
    as (K1 & K2 & K3).
  fold sh6 in K1, K2, K3. cbn in K1, K2, K3.
  exists (set_semaphore sh6 (semaphore sh6 - 1)).
  split; [cbn [semaphore set_semaphore]; lia|].
  split; [exact K2|]. split; [cbn [panicked set_semaphore]; congruence|].
  eapply reachable_act; [eapply reachable_act; [eapply reachable_act;
    [eapply reachable_act; [eapply reachable_act; [eapply reachable_act;
    [eapply reachable_act; [exact Hs|]|]|]|]|]|]|].
  - unfold act. rewrite Hpanic, Hsem. reflexivity.
  - unfold act. cbn. rewrite Hpanic, Hcall. reflexivity.
  - unfold act. cbn. rewrite Hpanic, Hmu. reflexivity.
  - unfold act. cbn. rewrite Hpanic. reflexivity.
  - unfold act. cbn. rewrite Hpanic. reflexivity.
  - unfold act. cbn. rewrite Hpanic. reflexivity.
  - unfold act.
    match goal with
    | |- (if panicked (if progressChan then set_sent ?a ?l else ?a)
          then _ else _) = _ =>
        destruct (push_keeps progressChan a l) as (_ & _ & ->)
    end.
    cbn. rewrite Hpanic. reflexivity.
Qed.

(** When every path has a supported extension the batch can run to the
    end, whatever the files hold. *)
Lemma BatchCompress_supported_can_return :
  forall (inputPaths : list string) (w : World),
    Forall (fun path => exists format, GetImageFormat path = inr format)
           inputPaths ->
    exists res, BatchCompress_returns options progressChan inputPaths w res.
Proof.
  intros inputPaths w Hall.
  enough (forall todo done sh,
             Forall (fun path => exists format, GetImageFormat path = inr format)
                    todo ->
             Forall (fun g => at_ g = Finished) done ->
             semaphore sh = 0 -> mu sh = false -> panicked sh = false ->
             reachable options progressChan (init inputPaths w)
               ((done ++ map (fun p => {| inputPath := p; at_ := AtAcquire |})
                              todo)%list, sh) ->
             exists s, reachable options progressChan (init inputPaths w) s /\
                       all_done s /\ panicked (snd s) = false) as G.
  { destruct (G inputPaths [] (snd (init inputPaths w)) Hall) as (s & H1 & H2 & H3);
      try reflexivity; [constructor | apply reachable_start|].
    exists (finish (batchResult (snd s))), s. auto. }
  induction todo as [|path todo IH]; intros done sh Htodo Hdone Hsem Hmu Hp Hs.
  - exists (done, sh). cbn [map] in Hs. rewrite app_nil_r in Hs.
    repeat split; assumption.
  - inversion Htodo as [|? ? [format Hfmt] Htodo']; subst. cbn [map] in Hs.
    destruct (goroutine_runs_to_end _ _ _ _ _ _ Hfmt Hsem Hmu Hp Hs)
      as (sh' & Hsem' & Hmu' & Hp' & Hs').
    apply (IH (done ++ [{| inputPath := path; at_ := Finished |}])%list sh');
      try assumption.
    + apply Forall_app. split; [assumption|]. now repeat constructor.
    + now rewrite <- app_assoc.
Qed.

End BatchRuns.

(** C1, on a batch that holds a path with an unsupported extension.
    [CompressImage] returns a [nil] result for it, the goroutine appends
    the [nil] and reads [result.Success] through it: the run can end in a
    panic, and on no interleaving does [BatchCompress] return a
    [BatchResult]. *)
Theorem BatchCompress_aborts_on_unsupported_extension :
  forall (P : Platform) (options : CompressionOptions) (progressChan : bool)
         (w : World),
    fst (fst (CompressImage "photos/notes.txt" options w)) = None /\
    BatchCompress_panics options progressChan Toy.mixed_paths w /\
    forall res : BatchResult,
      ~ BatchCompress_returns options progressChan Toy.mixed_paths w res.
Proof.
  intros P options progressChan w. split; [reflexivity|]. split.
  - apply (BatchCompress_unsupported_can_panic options progressChan
             ["photos/cat.jpg"] ["photos/dot.png"] "photos/notes.txt"
             "unsupported image format: .txt").
    reflexivity.
  - intros res.
    apply (BatchCompress_unsupported_never_returns options progressChan
             Toy.mixed_paths "photos/notes.txt" "unsupported image format: .txt").
    + simpl. auto.
    + reflexivity.
Qed.

Lemma BatchCompress_at_most_four_in_flight_witness :
  count in_flight (fst Toy.gate_full_state) <= 4 /\
  count in_flight (fst Toy.gate_full_state)
  <= count holds_slot (fst Toy.gate_full_state) /\
  count holds_slot (fst Toy.gate_full_state)
  = semaphore (snd Toy.gate_full_state) /\
  0 <= semaphore (snd Toy.gate_full_state) <= 4 /\
  Forall (fun g => in_flight g = true -> holds_slot g = true)
         (fst Toy.gate_full_state).
Proof.
  apply (BatchCompress_at_most_four_in_flight Toy.platform DefaultOptions false
           Toy.five_paths Toy.disk Toy.gate_full_state).
  apply exec_reachable with (schedule := [0; 1; 2; 3]%nat).
  vm_compute. reflexivity.
Defined.

(** With four goroutines in flight the fifth cannot pass the gate. *)
Example fifth_goroutine_blocks :
  count in_flight (fst Toy.gate_full_state) = 4 /\
  fire (P := Toy.platform) DefaultOptions false 4
    (fst Toy.gate_full_state) (snd Toy.gate_full_state) = None.
Proof. vm_compute. split; reflexivity. Qed.

(** ** compressor.go: the sign of the reduction *)

Lemma new_location_exact : forall nb, new_location nb 0 = loc_Exact.
Proof.
  intros nb. unfold new_location.
  destruct (Z.even nb); reflexivity.
Qed.

(** The quotient of two normal floats, the first one the smaller, is
    below 1. *)
Lemma div_below_one : forall (mC mO : positive) (eC eO : Z),
  2 ^ 52 <= Zpos mC < 2 ^ 53 -> 2 ^ 52 <= Zpos mO < 2 ^ 53 ->
  -52 <= eC <= 0 -> -52 <= eO <= 0 ->
  eC <= eO ->
  (eC = eO -> Zpos mC < Zpos mO) ->
  (eO = eC + 1 -> Zpos mC < 2 * Zpos mO) ->
  exists mV eV,
    div (S754_finite false mC eC) (S754_finite false mO eO)
    = S754_finite false mV eV /\
    Zpos mV < 2 ^ 53 /\ -105 <= eV <= -53.
Proof.
  intros mC mO eC eO HC HO HeC HeO Hle H0 H1.
  unfold div, SFdiv, SFdiv_core_binary. cbn [xorb Zdigits2].
  rewrite (digits_unique mC 53), (digits_unique mO 53), fexp_eq by lia.
  replace (Z.min (Z.max (53 + eC - (53 + eO) - 53) (-1074)) (eC - eO))
    with (eC - eO - 53) by lia.
  replace (eC - eO - (eC - eO - 53)) with 53 by lia.
  rewrite Z.shiftl_mul_pow2 by lia.
  pose proof (Z_div_mod (Zpos mC * 2 ^ 53) (Zpos mO) ltac:(lia)) as Hdm.
  destruct (Z.div_eucl (Zpos mC * 2 ^ 53) (Zpos mO)) as [q r].
  destruct Hdm as [Hq Hr].
  assert (2 ^ 52 <= q < 2 ^ 54) as Hqb by nia.
  destruct q as [|q|q]; try lia.
  destruct (Z_lt_le_dec (Zpos q) (2 ^ 53)) as [Hsmall|Hbig].
  - (* a quotient of 53 bits *)
    rewrite round_aux_53 by lia. cbv zeta.
    pose proof (round_nearest_even_ge (Zpos q) (new_location (Zpos mO) r)) as Hrnd.
    destruct (round_nearest_even (Zpos q) (new_location (Zpos mO) r) <? 2 ^ 53) eqn:Hc.
    + eexists. eexists. split; [reflexivity|].
      apply Z.ltb_lt in Hc. rewrite Z2Pos.id by lia. lia.
    + eexists. eexists. split; [reflexivity|].
      apply Z.ltb_ge in Hc.
      split; [reflexivity|].
      destruct (Z.eq_dec eC eO) as [E|E]; [|lia].
      (* equal exponents: the quotient stays two units below 2^53 *)
      specialize (H0 E). exfalso. nia.
  - (* a quotient of 54 bits: the exponents differ *)
    assert (Zpos mO <= Zpos mC) as Hge by nia.
    assert (eC + 1 <= eO) as HE
        by (destruct (Z.eq_dec eC eO) as [e|e]; [specialize (H0 e)|]; lia).
    rewrite round_aux_54 by lia. cbv zeta.
    set (mrs := shr_1 (shr_record_of_loc (Zpos q) (new_location (Zpos mO) r))).
    assert (shr_m mrs = Zpos q / 2) as Hm
        by (unfold mrs; rewrite shr_1_m; rewrite shr_m_of_loc; lia).
    pose proof (round_nearest_even_ge (shr_m mrs) (loc_of_shr_record mrs)) as Hrnd.
    assert (2 ^ 52 <= Zpos q / 2 < 2 ^ 53) as Hhalf.
    { split; [apply Z.div_le_lower_bound | apply Z.div_lt_upper_bound]; lia. }
    destruct (round_nearest_even (shr_m mrs) (loc_of_shr_record mrs) <? 2 ^ 53) eqn:Hc.
    + eexists. eexists. split; [reflexivity|].
      apply Z.ltb_lt in Hc. rewrite Z2Pos.id by lia. lia.
    + eexists. eexists. split; [reflexivity|].
      apply Z.ltb_ge in Hc.
      split; [reflexivity|].
      destruct (Z.eq_dec eO (eC + 1)) as [E|E]; [|lia].
      specialize (H1 E). exfalso.
      assert (Zpos q <= 2 ^ 54 - 2) as Hq2 by nia.
      assert (Zpos q / 2 = 2 ^ 53 - 1) as Hq3 by lia.
      assert (Zpos q = 2 ^ 54 - 2) as Hq4.
      { pose proof (Z_div_mod_eq_full (Zpos q) 2).
        pose proof (Z.mod_pos_bound (Zpos q) 2 ltac:(lia)). lia. }
      injection Hq4 as ->. unfold mrs in *.
      destruct (new_location (Zpos mO) r) as [|[| |]]; cbn in Hc; lia.
Qed.

(** One minus a float below 1 is above zero. *)
Lemma sub_one_above_zero : forall (mV : positive) (eV : Z),
  Zpos mV < 2 ^ 53 -> -105 <= eV <= -53 ->
  (exists m' e', -157 <= e' /\
                 sub one (S754_finite false mV eV) = S754_finite false m' e') \/
  sub one (S754_finite false mV eV) = S754_infinity false.
Proof.
  intros mV eV Hm He. rewrite one_eq. unfold sub, SFsub. cbn [cond_Zopp].
  replace (Z.min (-52) eV) with eV by lia.
  assert (fst (shl_align mV eV eV) = mV) as ->.
  { unfold shl_align. replace (eV - eV) with 0 by lia. reflexivity. }
  assert (2 ^ 53 <= Zpos (fst (shl_align 4503599627370496 (-52) eV))) as Hlt.
  { unfold shl_align. destruct (eV - -52) as [|d|d] eqn:Ed; cbn [fst]; try lia.
    rewrite iter_xO.
    assert (2 <= 2 ^ Zpos d) by (change 2 with (2 ^ 1) at 1; apply Z.pow_le_mono_r; lia).
    change (Zpos 4503599627370496) with (2 ^ 52). nia. }
  destruct (Zpos (fst (shl_align 4503599627370496 (-52) eV)) - Zpos mV)
    as [|k|k] eqn:Ek; try lia.
  cbn [binary_normalize].
  destruct (round_nonzero false k eV ltac:(lia)) as (m' & e' & L & [H|H]).
  - left. exists m', e'. split; [lia | exact H].
  - right. exact H.
Qed.

Lemma mul_hundred_above_zero : forall (m : positive) (e : Z),
  -1028 <= e -> ltb zero (mul (S754_finite false m e) hundred) = true.
Proof.
  intros m e He. rewrite hundred_eq. unfold mul, SFmul. cbn [xorb].
  destruct (round_aux_nonzero false (m * 7036874417766400) (e + -46) loc_Exact
              ltac:(lia)) as (m' & e' & _ & [-> | ->]); reflexivity.
Qed.

(** A normal float divided by itself is 1. *)
Lemma div_self : forall (m : positive) (e : Z),
  2 ^ 52 <= Zpos m < 2 ^ 53 -> -52 <= e <= 0 ->
  div (S754_finite false m e) (S754_finite false m e) = one.
Proof.
  intros m e Hm He.
  unfold div, SFdiv, SFdiv_core_binary. cbn [xorb Zdigits2].
  rewrite (digits_unique m 53), fexp_eq by lia.
  replace (Z.min (Z.max (53 + e - (53 + e) - 53) (-1074)) (e - e)) with (-53) by lia.
  replace (e - e - -53) with 53 by lia.
  rewrite Z.shiftl_mul_pow2 by lia.
  pose proof (Z_div_mod (Zpos m * 2 ^ 53) (Zpos m) ltac:(lia)) as Hdm.
  destruct (Z.div_eucl (Zpos m * 2 ^ 53) (Zpos m)) as [q r].
  destruct Hdm as [Hq Hr].
  assert (q = 2 ^ 53) as -> by nia.
  assert (r = 0) as -> by lia.
  rewrite new_location_exact. reflexivity.
Qed.

(** The reduction has the sign of the saving, for sizes that [float64]
    holds exactly. *)
Lemma reduction_above_zero : forall original compressed : Z,
  0 <= compressed -> compressed < original -> original < 2 ^ 53 ->
  ltb zero (CalculateReduction original compressed) = true.
Proof.
  intros o c Hc Hco Ho. rewrite CalculateReduction_formula by lia.
  unfold Spec.reduction.
  destruct (of_int_normal o ltac:(lia)) as (mO & eO & -> & HmO & HeO & EO).
  destruct (Z.eq_dec c 0) as [->|Hc0].
  { reflexivity. }
  destruct (of_int_normal c ltac:(lia)) as (mC & eC & -> & HmC & HeC & EC).
  assert (0 < 2 ^ (- eO)) as PO by (apply Z.pow_pos_nonneg; lia).
  assert (0 < 2 ^ (- eC)) as PC by (apply Z.pow_pos_nonneg; lia).
  assert (eC <= eO) as Hle.
  { destruct (Z_le_gt_dec eC eO) as [|Hgt]; [assumption|exfalso].
    assert (2 ^ (- eO) = 2 ^ (- eC) * 2 ^ (eC - eO)) as E
        by (rewrite <- Z.pow_add_r by lia; f_equal; lia).
    assert (2 <= 2 ^ (eC - eO))
      by (change 2 with (2 ^ 1) at 1; apply Z.pow_le_mono_r; lia).
    rewrite E in EO. nia. }
  destruct (div_below_one mC mO eC eO HmC HmO HeC HeO Hle)
    as (mV & eV & -> & HmV & HeV).
  - intros E. rewrite E in *. nia.
  - intros E. rewrite E in *.
    replace (- (eC + 1)) with (- eC - 1) in * by lia.
    assert (2 ^ (- eC) = 2 * 2 ^ (- eC - 1)) as E2.
    { rewrite <- Z.pow_succ_r by lia. f_equal. lia. }
    rewrite E2 in EC. nia.
  - destruct (sub_one_above_zero mV eV HmV HeV) as [(m' & e' & L & ->) | ->].
    + apply mul_hundred_above_zero. lia.
    + reflexivity.
Qed.

Lemma reduction_of_equal_sizes : forall size : Z,
  0 < size < 2 ^ 53 -> CalculateReduction size size = zero.
Proof.
  intros n Hn. rewrite CalculateReduction_formula by lia.
  unfold Spec.reduction.
  destruct (of_int_normal n ltac:(lia)) as (m & e & -> & Hm & He & _).
  rewrite div_self by assumption. reflexivity.
Qed.

(** X1.  For sizes that [float64] holds exactly (below [2^53]),
    [CalculateReduction] has the sign of the saving: above zero when the
    output is smaller than the original, zero when the sizes are equal,
    below zero when the output is larger. *)
Theorem CalculateReduction_sign :
  forall original compressed : Z,
    0 < original < 2 ^ 53 -> 0 <= compressed < 2 ^ 53 ->
    (compressed < original ->
     ltb zero (CalculateReduction original compressed) = true) /\
    (compressed = original -> CalculateReduction original compressed = zero) /\
    (original < compressed ->
     is_negative (CalculateReduction original compressed) = true).
Proof.
  intros o c Ho Hc. split; [|split].
  - intros H. apply reduction_above_zero; lia.
  - intros ->. now apply reduction_of_equal_sizes.
  - intros H. rewrite CalculateReduction_formula by lia.
    apply reduction_below_zero; lia.
Qed.

Lemma CalculateReduction_sign_witness :
  (1500 < 2000 -> ltb zero (CalculateReduction 2000 1500) = true) /\
  (1500 = 2000 -> CalculateReduction 2000 1500 = zero) /\
  (2000 < 1500 -> is_negative (CalculateReduction 2000 1500) = true).
Proof. apply (CalculateReduction_sign 2000 1500); lia. Defined.

(** ** compressor.go: [FormatBytes] *)

Lemma pow_1024_pos : forall e, 0 <= e -> 0 < 1024 ^ e.
Proof. intros e He. apply Z.pow_pos_nonneg; lia. Qed.

Lemma pow_1024_bound : forall e, 0 <= e -> 1024 ^ e < 2 ^ 63 -> e <= 6.
Proof.
  intros e He H. destruct (Z_le_gt_dec e 6) as [|Hgt]; [assumption|exfalso].
  assert (1024 ^ 7 <= 1024 ^ e) by (apply Z.pow_le_mono_r; lia).
  change (1024 ^ 7) with (2 ^ 70) in *.
  assert (2 ^ 63 < 2 ^ 70) by reflexivity. lia.
Qed.

Lemma div_lt_inv : forall a b q, 0 < b -> a / b < q -> a < b * q.
Proof.
  intros a b q Hb H. pose proof (Z_div_mod_eq_full a b).
  pose proof (Z.mod_pos_bound a b Hb). nia.
Qed.

Lemma div_le_inv : forall a b q, 0 < b -> q <= a / b -> b * q <= a.
Proof.
  intros a b q Hb H. pose proof (Z_div_mod_eq_full a b).
  pose proof (Z.mod_pos_bound a b Hb). nia.
Qed.

(** The loop stops by its test, at the largest power of 1024 that is not
    above [bytes]; [div] does not overflow on the way. *)
Lemma unit_loop_spec : forall fuel e bytes,
  0 <= e -> 1024 ^ (e + 1) <= bytes < 2 ^ 63 ->
  bytes / 1024 ^ (e + 1) < 1024 ^ (Z.of_nat fuel + 1) ->
  exists k, e <= k /\ 1024 ^ (k + 1) <= bytes < 1024 ^ (k + 2) /\
            unit_loop fuel (bytes / 1024 ^ (e + 1)) (1024 ^ (e + 1)) e
            = Some (1024 ^ (k + 1), k).
Proof.
  induction fuel as [|fuel IH]; intros e bytes He Hb Hn.
  - exists e. cbn [unit_loop].
    change (1024 ^ (Z.of_nat 0 + 1)) with 1024 in Hn.
    replace (bytes / 1024 ^ (e + 1) >=? 1024) with false
      by (rewrite Z.geb_leb; symmetry; apply Z.leb_gt; lia).
    repeat split; try lia.
    replace (e + 2) with (Z.succ (e + 1)) by lia. rewrite Z.pow_succ_r by lia.
    pose proof (pow_1024_pos (e + 1) ltac:(lia)) as Hp.
    apply div_lt_inv in Hn; lia.
  - cbn [unit_loop].
    pose proof (pow_1024_pos (e + 1) ltac:(lia)) as Hp.
    assert (1024 ^ (e + 2) = 1024 ^ (e + 1) * 1024) as Hsucc.
    { replace (e + 2) with (Z.succ (e + 1)) by lia. rewrite Z.pow_succ_r; lia. }
    destruct (bytes / 1024 ^ (e + 1) >=? 1024) eqn:Hge.
    + rewrite Z.geb_leb in Hge. apply Z.leb_le in Hge.
      assert (1024 ^ (e + 2) <= bytes) as Hb'.
      { rewrite Hsucc. apply div_le_inv in Hge; lia. }
      assert (e + 2 <= 6) by (apply pow_1024_bound; lia).
      rewrite Z.div_div by lia. rewrite <- Hsucc.
      rewrite !wrap64_small
        by (unfold in_int64, int64_min, int64_max; apply andb_true_intro;
            split; apply Z.leb_le; lia).
      replace (e + 2) with (e + 1 + 1) in * by lia.
      destruct (IH (e + 1) bytes ltac:(lia) ltac:(lia)) as (k & Hk & Hkb & Hloop).
      { rewrite Hsucc in *. rewrite <- Z.div_div by lia.
        apply Z.div_lt_upper_bound; [lia|].
        replace (Z.of_nat (S fuel) + 1) with (Z.succ (Z.of_nat fuel + 1)) in Hn by lia.
        rewrite Z.pow_succ_r in Hn by lia. lia. }
      exists k. repeat split; try lia. exact Hloop.
    + rewrite Z.geb_leb in Hge. apply Z.leb_gt in Hge.
      exists e. repeat split; try lia.
      rewrite Hsucc. apply div_lt_inv in Hge; lia.
Qed.

(** X2.  [FormatBytes] on any [int64]: below 1024 (negative numbers
    too) it prints the number and [" B"]; from 1024 on it divides, in
    [float64], by the largest power [1024^k] that is not above the value,
    prints the quotient with one decimal and the [k]-th letter of
    [KMGTPE].  The index never leaves the six letters, since an [int64]
    is below [1024^7]. *)
Theorem FormatBytes_unit :
  forall bytes : Z,
    in_int64 bytes = true ->
    if bytes <? 1024 then FormatBytes bytes = Text (format_d bytes ++ " B")
    else exists (k : Z) (c : ascii),
        1 <= k <= 6 /\ 1024 ^ k <= bytes < 1024 ^ (k + 1) /\
        String.get (Z.to_nat (k - 1)) "KMGTPE" = Some c /\
        FormatBytes bytes
        = Text (format_f1 (Float64.div (of_int bytes) (of_int (1024 ^ k)))
                ++ " " ++ String c "B").
Proof.
  intros bytes Hin. unfold FormatBytes.
  destruct (bytes <? 1024) eqn:Hlt; [reflexivity|].
  apply Z.ltb_ge in Hlt.
  unfold in_int64, int64_min, int64_max in Hin.
  apply andb_prop in Hin as [_ Hmax]. apply Z.leb_le in Hmax.
  destruct (unit_loop_spec 64 0 bytes ltac:(lia)) as (k & Hk & Hkb & Hloop).
  - change (1024 ^ (0 + 1)) with 1024. lia.
  - change (1024 ^ (0 + 1)) with 1024.
    apply Z.div_lt_upper_bound; [lia|].
    assert (2 ^ 63 < 1024 * 1024 ^ (Z.of_nat 64 + 1)) by reflexivity. lia.
  - change (1024 ^ (0 + 1)) with 1024 in Hloop. rewrite Hloop.
    assert (k + 1 <= 6) by (apply pow_1024_bound; lia).
    replace ((0 <=? k) && (k <? 6)) with true
      by (symmetry; apply andb_true_intro; split;
          [apply Z.leb_le | apply Z.ltb_lt]; lia).
    assert (exists c, String.get (Z.to_nat k) "KMGTPE" = Some c) as [c Hc].
    { assert (k = 0 \/ k = 1 \/ k = 2 \/ k = 3 \/ k = 4 \/ k = 5)
        as [->|[->|[->|[->|[->| ->]]]]] by lia; eexists; reflexivity. }
    rewrite Hc. exists (k + 1), c.
    replace (k + 1 - 1) with k by lia. replace (k + 1 + 1) with (k + 2) by lia.
    repeat split; try lia. exact Hc.
Qed.

Example FormatBytes_values :
  FormatBytes 1023 = Text "1023 B" /\ FormatBytes 1536 = Text "1.5 KB" /\
  FormatBytes 1048575 = Text "1024.0 KB" /\ FormatBytes 2000000 = Text "1.9 MB" /\
  FormatBytes (-5000) = Text "-5000 B" /\ FormatBytes int64_max = Text "8.0 EB".
Proof. vm_compute. repeat split. Qed.

(** ** More facts about paths *)

Lemma list_ascii_of_string_app : forall a b : string,
  list_ascii_of_string (a ++ b)
  = (list_ascii_of_string a ++ list_ascii_of_string b)%list.
Proof.
  induction a as [|c a IH]; intros b; simpl; [reflexivity | now rewrite IH].
Qed.

Lemma bytes_eqb_eq : forall a b : bytes, bytes_eqb a b = true <-> a = b.
Proof.
  intros a b. unfold bytes_eqb. rewrite String.eqb_eq. split; [|now intros ->].
  intros H. rewrite <- (list_ascii_of_string_of_list_ascii a),
              <- (list_ascii_of_string_of_list_ascii b).
  now rewrite H.
Qed.

Lemma bytes_eqb_neq : forall a b : bytes, a <> b -> bytes_eqb a b = false.
Proof.
  intros a b H. destruct (bytes_eqb a b) eqn:E; [|reflexivity].
  apply bytes_eqb_eq in E. contradiction.
Qed.

Lemma is_dot_eq : forall c, is_dot c = true -> c = dot.
Proof. intros c H. now apply Ascii.eqb_eq in H. Qed.

Lemma is_sep_eq : forall c, is_sep c = true -> c = sep.
Proof. intros c H. now apply Ascii.eqb_eq in H. Qed.

(** What [Ext] returns is empty, or a dot followed by bytes that are
    neither dots nor separators. *)
Lemma ext_scan_shape : forall r acc : bytes,
  Forall plain acc ->
  ext_scan r acc = [] \/
  exists e, ext_scan r acc = dot :: e /\ Forall plain e.
Proof.
  induction r as [|c r IH]; intros acc Hacc; cbn [ext_scan]; [now left|].
  destruct (is_sep c) eqn:Hs; [now left|].
  destruct (is_dot c) eqn:Hd.
  - right. exists acc. apply is_dot_eq in Hd. subst c. auto.
  - apply IH. constructor; [split|]; assumption.
Qed.

Lemma ext_scan_plain : forall e r acc : bytes,
  Forall plain e ->
  ext_scan (rev e ++ dot :: r)%list acc = (dot :: e ++ acc)%list.
Proof.
  intros e. induction e as [|c e IH] using rev_ind; intros r acc He.
  - reflexivity.
  - apply Forall_app in He as [He Hc]. inversion Hc as [|? ? [Hs Hd] _]; subst.
    rewrite rev_app_distr. cbn [rev app ext_scan]. rewrite Hs, Hd.
    rewrite IH by assumption. now rewrite <- app_assoc.
Qed.

(** The extension of a path that ends in a dot and plain bytes. *)
Lemma ext_bytes_plain : forall y e : bytes,
  Forall plain e -> ext_bytes (y ++ dot :: e)%list = dot :: e.
Proof.
  intros y e He. unfold ext_bytes.
  rewrite rev_app_distr. cbn [rev]. rewrite <- app_assoc. cbn [app].
  rewrite ext_scan_plain by assumption. now rewrite app_nil_r.
Qed.

Lemma split_elems_nosep : forall l cur : bytes,
  Forall (fun c => is_sep c = false) l ->
  split_elems l cur = [(rev cur ++ l)%list].
Proof.
  induction l as [|c l IH]; intros cur H; cbn [split_elems].
  - now rewrite app_nil_r.
  - inversion H as [|? ? Hc Hl]; subst. rewrite Hc, IH by assumption.
    cbn [rev]. now rewrite <- app_assoc.
Qed.

(** The last element of a path that ends in bytes without a separator
    ends in these bytes. *)
Lemma split_elems_last : forall x cur l : bytes,
  Forall (fun c => is_sep c = false) l ->
  exists els t, split_elems (x ++ l)%list cur = (els ++ [(t ++ l)%list])%list.
Proof.
  induction x as [|c x IH]; intros cur l H; cbn [app split_elems].
  - exists [], (rev cur). now apply split_elems_nosep.
  - destruct (is_sep c).
    + destruct (IH [] l H) as (els & t & ->). now exists (rev cur :: els), t.
    + apply IH. exact H.
Qed.

Lemma join_elems_last : forall (els : list bytes) (l : bytes),
  exists y, join_elems (els ++ [l])%list = (y ++ l)%list.
Proof.
  induction els as [|e els IH]; intros l.
  - now exists [].
  - destruct (IH l) as [y Hy]. cbn [app join_elems].
    destruct (els ++ [l])%list eqn:E.
    + now destruct els.
    + rewrite Hy. exists (e ++ sep :: y)%list. now rewrite <- app_assoc.
Qed.

Lemma clean_bytes_nonempty : forall p : bytes, clean_bytes p <> [].
Proof.
  intros [|c p]; cbn [clean_bytes]; [discriminate|].
  destruct (is_sep c); [discriminate|].
  destruct (join_elems _); discriminate.
Qed.

(** [Clean] keeps a last element that is neither empty, [.] nor [..]. *)
Lemma clean_bytes_last : forall x e : bytes,
  e <> [] -> Forall plain e ->
  exists y, clean_bytes (x ++ dot :: e)%list = (y ++ dot :: e)%list.
Proof.
  intros x e Hne He.
  assert (Forall (fun c => is_sep c = false) (dot :: e)) as Hl.
  { constructor; [reflexivity|]. eapply Forall_impl; [|exact He]. now intros c [? _]. }
  destruct (split_elems_last x [] (dot :: e) Hl) as (els & t & Hsplit).
  assert (forall rooted st,
             clean_step rooted st (t ++ dot :: e)%list
             = {| updirs := updirs st;
                  reals := (t ++ dot :: e)%list :: reals st |}) as Hstep.
  { intros rooted st. unfold clean_step.
    assert (exists c e0, e = (e0 ++ [c])%list /\ is_dot c = false) as (c & e0 & -> & Hc).
    { destruct (exists_last Hne) as (e0 & c & ->).
      apply Forall_app in He as [_ Hc]. inversion Hc as [|? ? [_ Hd] _]; subst.
      now exists c, e0. }
    assert (forall z : bytes, (t ++ dot :: e0 ++ [c])%list <> z ->
                              bytes_eqb (t ++ dot :: e0 ++ [c])%list z = false) as Hneq
        by (intros z; apply bytes_eqb_neq).
    rewrite !Hneq; [reflexivity| | |].
    - intros E. apply (f_equal (@rev ascii)) in E.
      rewrite rev_app_distr in E. cbn [rev] in E. rewrite rev_app_distr in E.
      cbn in E. injection E as -> _. discriminate.
    - intros E. apply (f_equal (@rev ascii)) in E.
      rewrite rev_app_distr in E. cbn [rev] in E. rewrite rev_app_distr in E.
      cbn in E. injection E as -> _. discriminate.
    - intros E. apply (f_equal (@List.length ascii)) in E.
      rewrite length_app in E. cbn [List.length] in E. rewrite length_app in E.
      cbn [List.length] in E. lia. }
  destruct (x ++ dot :: e)%list as [|c0 p0] eqn:Ep.
  { now destruct x. }
  cbn [clean_bytes]. rewrite Hsplit, fold_left_app. cbn [fold_left].
  rewrite Hstep. cbn [updirs reals rev]. rewrite app_assoc.
  match goal with
  | |- context [join_elems (?a ++ [?l])%list] =>
      destruct (join_elems_last a l) as [y Hy]
  end.
  rewrite Hy.
  destruct (is_sep c0).
  - exists (sep :: y ++ t)%list. cbn [app]. now rewrite <- app_assoc.
  - destruct (y ++ t ++ dot :: e)%list eqn:E.
    + destruct y; [destruct t|]; discriminate.
    + rewrite <- E. exists (y ++ t)%list. now rewrite <- app_assoc.
Qed.

Lemma ToLower_length : forall s : string,
  String.length (ToLower s) = String.length s.
Proof.
  intros s. unfold ToLower. induction s as [|c s IH]; [reflexivity|].
  cbn [list_ascii_of_string map string_of_list_ascii String.length]. now rewrite IH.
Qed.

Lemma supported_ext_length : forall path : string,
  supported path = true -> (4 <= String.length (Ext path))%nat.
Proof.
  intros path. unfold supported, GetImageFormat.
  rewrite <- (ToLower_length (Ext path)).
  destruct (String.eqb (ToLower (Ext path)) ".jpg") eqn:E1.
  { apply String.eqb_eq in E1. rewrite E1. cbn. lia. }
  destruct (String.eqb (ToLower (Ext path)) ".jpeg") eqn:E2.
  { apply String.eqb_eq in E2. rewrite E2. cbn. lia. }
  destruct (String.eqb (ToLower (Ext path)) ".png") eqn:E3.
  { apply String.eqb_eq in E3. rewrite E3. cbn. lia. }
  cbn. discriminate.
Qed.

(** The extension of the output path is the extension of the input,
    when that has more than its dot. *)
Lemma GenerateOutputPath_Ext :
  forall (inputPath : string) (options : CompressionOptions),
    (2 <= String.length (Ext inputPath))%nat ->
    Ext (GenerateOutputPath inputPath options) = Ext inputPath.
Proof.
  intros inputPath options Hlen.
  destruct (ext_scan_shape (rev (list_ascii_of_string inputPath)) [] (Forall_nil _))
    as [Hnone | (e & He & Hplain)].
  { unfold Ext, ext_bytes in Hlen. rewrite Hnone in Hlen. cbn in Hlen. lia. }
  assert (Ext inputPath = string_of_list_ascii (dot :: e)) as HE
      by (unfold Ext, ext_bytes; now rewrite He).
  assert (e <> []) as Hne.
  { intros ->. rewrite HE in Hlen. cbn in Hlen. lia. }
  unfold GenerateOutputPath. rewrite HE.
  set (dir := if negb (String.eqb (OutputDir options) "") then OutputDir options
              else Dir inputPath).
  set (stem := TrimSuffix (Base inputPath) (string_of_list_ascii (dot :: e))).
  assert (String.eqb dir "" = false) as Hdir.
  { apply String.eqb_neq. unfold dir.
    destruct (String.eqb (OutputDir options) "") eqn:E; cbn [negb].
    - unfold Dir. intros H.
      apply (f_equal list_ascii_of_string) in H.
      rewrite list_ascii_of_string_of_list_ascii in H.
      now apply clean_bytes_nonempty in H.
    - now apply String.eqb_neq in E. }
  cbn [Join]. rewrite Hdir. cbn [String.concat].
  unfold Clean, Ext.
  rewrite list_ascii_of_string_of_list_ascii.
  rewrite !list_ascii_of_string_app, list_ascii_of_string_of_list_ascii.
  rewrite !app_assoc.
  match goal with
  | |- context [clean_bytes (?x ++ dot :: e)%list] =>
      destruct (clean_bytes_last x e Hne Hplain) as [y Hy]
  end.
  rewrite Hy, ext_bytes_plain by assumption. reflexivity.
Qed.

(** X3.  The output path of an input with a supported extension has that
    same extension, whatever directory and suffix the options name; so it
    is a supported path of the same format. *)
Theorem GenerateOutputPath_keeps_format :
  forall (inputPath : string) (options : CompressionOptions) (format : ImageFormat),
    GetImageFormat inputPath = inr format ->
    Ext (GenerateOutputPath inputPath options) = Ext inputPath /\
    GetImageFormat (GenerateOutputPath inputPath options) = inr format.
Proof.
  intros inputPath options format H.
  assert (Ext (GenerateOutputPath inputPath options) = Ext inputPath) as HE.
  { apply GenerateOutputPath_Ext.
    assert (supported inputPath = true) as Hs by (unfold supported; now rewrite H).
    apply supported_ext_length in Hs. lia. }
  split; [exact HE|]. unfold GetImageFormat in *. now rewrite HE.
Qed.

Lemma GenerateOutputPath_keeps_format_witness :
  Ext (GenerateOutputPath "photos/cat.JPG" DefaultOptions) = Ext "photos/cat.JPG" /\
  GetImageFormat (GenerateOutputPath "photos/cat.JPG" DefaultOptions) = inr FormatJPEG.
Proof.
  apply (GenerateOutputPath_keeps_format "photos/cat.JPG" DefaultOptions FormatJPEG).
  reflexivity.
Defined.

(** Without an extension of its own the output takes one from the
    suffix, and an extension of a single dot is lost. *)
Example GenerateOutputPath_other_extensions :
  Ext (GenerateOutputPath "notes"
         {| Quality := 85; ResizePercent := zero; ResizeWidth := 0; ResizeHeight := 0;
            StripMetadata := true; OutputDir := ""; OutputSuffix := ".small";
            Progressive := true; ChromaSubsample := "4:2:0"; CompressionLevel := 6;
            Interlaced := false |}) = ".small" /\
  GenerateOutputPath "a/."
    {| Quality := 85; ResizePercent := zero; ResizeWidth := 0; ResizeHeight := 0;
       StripMetadata := true; OutputDir := ""; OutputSuffix := ".";
       Progressive := true; ChromaSubsample := "4:2:0"; CompressionLevel := 6;
       Interlaced := false |} = ".".
Proof. split; reflexivity. Qed.

(** ** api.go: more on the batch *)

Lemma supported_format : forall path,
  supported path = true <-> exists format, GetImageFormat path = inr format.
Proof.
  intros path. unfold supported. destruct (GetImageFormat path) as [err|format].
  - split; [discriminate | intros [f Hf]; discriminate].
  - split; [now exists format | reflexivity].
Qed.

Lemma unsupported_format : forall path,
  supported path = false <-> exists err, GetImageFormat path = inl err.
Proof.
  intros path. unfold supported. destruct (GetImageFormat path) as [err|format].
  - split; [now exists err | reflexivity].
  - split; [discriminate | intros [f Hf]; discriminate].
Qed.

Lemma remaining_app : forall gs1 gs2,
  remaining (gs1 ++ gs2)%list = remaining gs1 + remaining gs2.
Proof.
  intros gs1 gs2. unfold remaining.
  induction gs1 as [|g gs1 IH]; cbn [app fold_right]; lia.
Qed.

Lemma remaining_cons : forall g gs, remaining (g :: gs) = steps_left g + remaining gs.
Proof. reflexivity. Qed.

Lemma steps_left_bounds : forall g, 0 <= steps_left g <= 7.
Proof. intros g. unfold steps_left. destruct (at_ g); lia. Qed.

Lemma remaining_nonneg : forall gs, 0 <= remaining gs.
Proof.
  induction gs as [|g gs IH]; [reflexivity|].
  rewrite remaining_cons. pose proof (steps_left_bounds g). lia.
Qed.

Lemma remaining_zero : forall gs,
  remaining gs = 0 <-> Forall (fun g => at_ g = Finished) gs.
Proof.
  induction gs as [|g gs IH].
  - split; [constructor | reflexivity].
  - rewrite remaining_cons.
    pose proof (steps_left_bounds g). pose proof (remaining_nonneg gs).
    split.
    + intros H1. constructor.
      * unfold steps_left in *. destruct (at_ g); try lia. reflexivity.
      * apply IH. lia.
    + intros H1. inversion H1 as [|? ? Hg Hgs]; subst.
      apply IH in Hgs. unfold steps_left. rewrite Hg. lia.
Qed.

Lemma unsent_app : forall gs1 gs2,
  unsent (gs1 ++ gs2)%list = (unsent gs1 ++ unsent gs2)%list.
Proof. intros. unfold unsent. apply flat_map_app. Qed.

Section BatchMore.
Context {P : Platform}.
Variable options : CompressionOptions.
Variable progressChan : bool.

Ltac read_shared :=
  unfold move in *;
  cbn [fst snd at_ inputPath move has_recorded holds_slot in_critical steps_left
       semaphore mu
       batchResult sent world panicked set_semaphore set_mu set_batchResult
       set_sent set_world set_panicked Results TotalInput TotalOutput
       TotalReduction SuccessCount FailCount set_Results update_nil] in *.

Ltac split_chan :=
  try match goal with
      | |- context [if progressChan then _ else _] => destruct progressChan
      end.

(** *** No [nil] result without an unsupported path *)

Lemma holds_no_nil_reachable : forall inputPaths w s,
  Forall (fun path => supported path = true) inputPaths ->
  reachable options progressChan (init inputPaths w) s ->
  Forall holds_no_nil (fst s) /\ panicked (snd s) = false.
Proof.
  intros inputPaths w s Hall Hs.
  pose proof (results_invariant_reachable options progressChan _ _ _ Hs)
    as (Hpaths & _ & _).
  revert s Hs Hpaths.
  enough (forall s, reachable options progressChan (init inputPaths w) s ->
                    Forall (fun g => supported (inputPath g) = true) (fst s) ->
                    Forall holds_no_nil (fst s) /\ panicked (snd s) = false) as G.
  { intros s Hs Hpaths. apply G; [exact Hs|].
    rewrite <- Hpaths in Hall. now apply Forall_map in Hall. }
  apply (reachable_invariant options progressChan
           (fun s => Forall (fun g => supported (inputPath g) = true) (fst s) ->
                     Forall holds_no_nil (fst s) /\ panicked (snd s) = false)).
  - intros _. cbn [init fst snd panicked]. split; [|reflexivity].
    apply Forall_forall. intros g Hg. apply in_map_iff in Hg as (p & <- & _).
    split; discriminate.
  - cbn [fst snd]. intros gs sh g g' before after sh' Hinv _ Hact Hsup.
    assert (inputPath g' = inputPath g) as Hpath.
    { act_cases Hact; reflexivity. }
    assert (Forall (fun g => supported (inputPath g) = true)
                   (before ++ g :: after)%list) as Hsup0.
    { apply Forall_app in Hsup as [H1 H2]. inversion H2; subst.
      apply Forall_app. split; [assumption|]. constructor; [congruence | assumption]. }
    destruct (Hinv Hsup0) as [Hno Hp].
    apply Forall_app in Hno as [Hno1 Hno2].
    inversion Hno2 as [|? ? Hg Hno3]; subst.
    apply Forall_app in Hsup0 as [_ Hsup0]. inversion Hsup0 as [|? ? Hsg _]; subst.
    assert (holds_no_nil g' /\ panicked sh' = false) as [Hg' Hp'].
    { unfold holds_no_nil in *.
      act_cases Hact; split_chan; read_shared;
        try (repeat split; (discriminate || assumption)).
      - (* CompressImage on a supported path *)
        apply supported_format in Hsg as [format Hfmt].
        destruct (CompressImage_supported _ path options (world sh) _ Hfmt)
          as [result Hres].
        match goal with
        | E : CompressImage _ _ _ = _ |- _ => rewrite E in Hres
        end.
        cbn [fst] in Hres. subst. repeat split; (discriminate || assumption).
      - (* the lock is taken with the result in hand *)
        destruct Hg as [Hg _].
        repeat split; try discriminate; try assumption.
        intros [= ->]. now apply Hg.
      - (* no goroutine stands before the update with nil *)
        destruct Hg as [_ Hg]. now contradiction Hg. }
    split; [|exact Hp'].
    apply Forall_app. split; [assumption | now constructor].
Qed.

(** *** The mutex *)

Lemma mutex_invariant_reachable : forall inputPaths w s,
  reachable options progressChan (init inputPaths w) s ->
  count in_critical (fst s) = if mu (snd s) then 1 else 0.
Proof.
  intros inputPaths w. apply reachable_invariant.
  - cbn [init fst snd mu].
    induction inputPaths as [|p ps IH]; [reflexivity|].
    cbn [map]. rewrite count_cons, IH. reflexivity.
  - cbn [fst snd]. intros gs sh g g' before after sh' Hc _ Hact.
    rewrite count_app, count_cons in *.
    pose proof (count_bounds in_critical before).
    pose proof (count_bounds in_critical after).
    act_cases Hact; split_chan; read_shared;
      repeat match goal with
             | E : mu _ = _ |- _ => rewrite E in *
             end;
      try lia;
      destruct (mu sh); lia.
Qed.

(** *** Every statement brings the batch one step nearer its end *)

Lemma act_steps_left : forall g sh g' sh',
  act options progressChan g sh = Some (g', sh') ->
  panicked sh' = false ->
  steps_left g' = steps_left g - 1.
Proof.
  intros g sh g' sh' Hact Hp.
  act_cases Hact; split_chan; read_shared; try reflexivity; discriminate.
Qed.

Lemma init_remaining : forall inputPaths w,
  remaining (fst (init (P := P) inputPaths w)) = 7 * Z.of_nat (List.length inputPaths).
Proof.
  intros inputPaths w. cbn [init fst].
  induction inputPaths as [|p ps IH]; [reflexivity|].
  cbn [map List.length]. rewrite remaining_cons, IH. unfold steps_left. cbn [at_]. lia.
Qed.

Lemma exec_remaining : forall schedule s s',
  exec options progressChan schedule s = Some s' ->
  panicked (snd s') = false ->
  Z.of_nat (List.length schedule) + remaining (fst s') = remaining (fst s).
Proof.
  induction schedule as [|i later IH]; intros s s' H Hp; cbn [exec] in H.
  - injection H as <-. cbn [List.length]. lia.
  - destruct (fire options progressChan i (fst s) (snd s)) as [[gs1 sh1]|] eqn:E;
      [|discriminate].
    pose proof (IH _ _ H Hp) as IH'.
    destruct (fire_one _ _ _ _ _ _ _ E)
      as (before & g & g' & after & Hgs & -> & Hact).
    rewrite Hgs.
    assert (panicked sh1 = false) as Hp1.
    { destruct (panicked sh1) eqn:Hp1; [|reflexivity].
      (* a panicked state has no successor *)
      destruct later as [|j later].
      - cbn [exec] in H. injection H as <-. cbn [snd] in Hp. congruence.
      - cbn [exec fst snd] in H.
        destruct (fire options progressChan j (before ++ g' :: after)%list sh1)
          as [[gs2 sh2]|] eqn:E2; [|discriminate].
        destruct (fire_one _ _ _ _ _ _ _ E2) as (? & g2 & ? & ? & _ & _ & Hact2).
        unfold act in Hact2. rewrite Hp1 in Hact2. discriminate. }
    pose proof (act_steps_left _ _ _ _ Hact Hp1) as Hd.
    cbn [fst] in IH'. rewrite remaining_app, remaining_cons in *.
    cbn [List.length]. lia.
Qed.

(** *** Some goroutine can always move *)

Lemma In_split_act : forall (g : goroutine) gs sh,
  In g gs -> act options progressChan g sh <> None ->
  exists i s', fire options progressChan i gs sh = Some s'.
Proof.
  intros g gs sh Hin Hact.
  destruct (act options progressChan g sh) as [[g' sh']|] eqn:E; [|congruence].
  clear Hact. rename E into Hact.
  apply in_split in Hin as (before & after & ->).
  exists (List.length before), ((before ++ g' :: after)%list, sh').
  now apply fire_at.
Qed.

Lemma count_zero : forall f (gs : list goroutine),
  count f gs = 0 -> Forall (fun g => f g = false) gs.
Proof.
  induction gs as [|g gs IH]; intros H; [constructor|].
  rewrite count_cons in H. pose proof (count_bounds f gs).
  destruct (f g) eqn:E; [lia|]. constructor; [exact E | apply IH; lia].
Qed.

Lemma existsb_false_Forall : forall (f : goroutine -> bool) gs,
  existsb f gs = false -> Forall (fun g => f g = false) gs.
Proof.
  induction gs as [|g gs IH]; intros H; [constructor|].
  cbn [existsb] in H. apply orb_false_iff in H as [H1 H2]. constructor; auto.
Qed.

Lemma never_stuck : forall inputPaths w s,
  Forall (fun path => supported path = true) inputPaths ->
  reachable options progressChan (init inputPaths w) s ->
  all_done s \/ exists i s', fire options progressChan i (fst s) (snd s) = Some s'.
Proof.
  intros inputPaths w [gs sh] Hall Hs.
  destruct (holds_no_nil_reachable _ _ _ Hall Hs) as [Hno Hp].
  pose proof (mutex_invariant_reachable _ _ _ Hs) as Hmu.
  destruct (gate_invariant_reachable options progressChan _ _ _ Hs) as [Hgate _].
  cbn [fst snd] in *.
  destruct (existsb can_move gs) eqn:E1.
  { (* a goroutine is at a statement that never blocks *)
    right. apply existsb_exists in E1 as (g & Hin & Hg).
    destruct g as [path pc]. unfold can_move in Hg. cbn [at_] in *.
    destruct pc as [| |r|[r|]|r|r| |]; try discriminate;
      try (eapply In_split_act; [exact Hin|]; unfold act; rewrite Hp;
           cbn [at_ inputPath]; try discriminate).
    destruct (CompressImage path options (world sh)) as [[r e] w']. discriminate. }
  apply existsb_false_Forall in E1.
  destruct (existsb at_lock gs) eqn:E2.
  { (* a goroutine waits for the mutex, and nobody holds it *)
    right. apply existsb_exists in E2 as (g & Hin & Hg).
    assert (count in_critical gs = 0) as Hc.
    { clear - E1. induction gs as [|g gs IH]; [reflexivity|].
      inversion E1 as [|? ? Hg Hgs]; subst. rewrite count_cons, (IH Hgs).
      unfold can_move, in_critical in *. destruct (at_ g); try discriminate; lia. }
    rewrite Hc in Hmu. destruct (mu sh) eqn:Em; [lia|].
    destruct g as [path pc]. unfold at_lock in Hg. cbn [at_] in Hg.
    destruct pc; try discriminate.
    eapply In_split_act; [exact Hin|]. unfold act. rewrite Hp. cbn [at_].
    rewrite Em. discriminate. }
  apply existsb_false_Forall in E2.
  destruct (existsb at_acquire gs) eqn:E3.
  { (* a goroutine waits for a slot, and all slots are free *)
    right. apply existsb_exists in E3 as (g & Hin & Hg).
    assert (count holds_slot gs = 0) as Hc.
    { clear - E1 E2. induction gs as [|g gs IH]; [reflexivity|].
      inversion E1 as [|? ? Hg1 Hgs1]; subst.
      inversion E2 as [|? ? Hg2 Hgs2]; subst. rewrite count_cons, (IH Hgs1 Hgs2).
      unfold can_move, at_lock, holds_slot in *.
      destruct (at_ g); try discriminate; lia. }
    rewrite Hc in Hgate.
    destruct g as [path pc]. unfold at_acquire in Hg. cbn [at_] in Hg.
    destruct pc; try discriminate.
    eapply In_split_act; [exact Hin|]. unfold act. rewrite Hp. cbn [at_].
    rewrite <- Hgate. discriminate. }
  apply existsb_false_Forall in E3.
  left. unfold all_done. cbn [fst].
  rewrite Forall_forall in *. intros g Hin.
  specialize (E1 g Hin). specialize (E2 g Hin). specialize (E3 g Hin).
  unfold can_move, at_lock, at_acquire in *.
  destruct (at_ g); try discriminate. reflexivity.
Qed.

(** *** What goes to the progress channel *)

Lemma progress_invariant_reachable : forall inputPaths w s,
  reachable options progressChan (init inputPaths w) s ->
  panicked (snd s) = false ->
  if progressChan
  then Permutation (Results (batchResult (snd s)))
                   (map Some (sent (snd s) ++ unsent (fst s))%list)
  else sent (snd s) = [].
Proof.
  intros inputPaths w.
  apply (reachable_invariant options progressChan
           (fun s => panicked (snd s) = false ->
                     if progressChan
                     then Permutation (Results (batchResult (snd s)))
                            (map Some (sent (snd s) ++ unsent (fst s))%list)
                     else sent (snd s) = [])).
  - intros _. cbn [init fst snd batchResult sent Batch.new Results].
    destruct progressChan; [|reflexivity].
    replace (unsent _) with (@nil CompressionResult); [constructor|].
    induction inputPaths as [|p ps IH]; [reflexivity | exact IH].
  - cbn [fst snd]. intros gs sh g g' before after sh' Hinv _ Hact Hp'.
    assert (panicked sh = false) as Hp.
    { unfold act in Hact. destruct (panicked sh); [discriminate | reflexivity]. }
    specialize (Hinv Hp).
    rewrite !unsent_app in *.
    act_cases Hact; read_shared; try discriminate;
      destruct progressChan; read_shared;
      unfold unsent in *; cbn [flat_map at_ app] in *;
      rewrite ?app_nil_r in *; try assumption.
    + (* the update appends the result *)
      assert (Results (update (batchResult sh) result)
              = (Results (batchResult sh) ++ [Some result])%list) as ->
          by (unfold update; destruct (Success result); reflexivity).
      rewrite !map_app in *. cbn [map].
      eapply Permutation_trans;
        [apply Permutation_sym, Permutation_cons_append|].
      rewrite app_assoc. apply Permutation_cons_app.
      rewrite <- app_assoc. exact Hinv.
    + (* the send moves it to the channel *)
      rewrite !map_app in *. cbn [map app] in *.
      rewrite <- !app_assoc. cbn [app].
      eapply Permutation_trans; [exact Hinv|].
      apply Permutation_app_head. apply Permutation_sym.
      apply Permutation_middle.
Qed.

End BatchMore.

(** ** jpeg.go and png.go: more on [Compress] *)

(** X4.  [Compress] reads the quality (JPEG) or the tier of the
    compression level (PNG), the three resize fields, the output directory
    and the suffix; two sets of options that agree on these give the same
    result and the same file system.  [StripMetadata], [Progressive],
    [ChromaSubsample] and [Interlaced] change nothing. *)
Theorem Compress_ignored_options :
  forall (P : Platform) (inputPath : string) (a b : CompressionOptions) (w : World),
    (same_for_jpeg a b ->
     JPEGCompressor.Compress inputPath a w = JPEGCompressor.Compress inputPath b w) /\
    (same_for_png a b ->
     PNGCompressor.Compress inputPath a w = PNGCompressor.Compress inputPath b w).
Proof.
  intros P inputPath a b w.
  unfold same_for_jpeg, same_for_png, same_resize, same_output.
  split; intros (H1 & (H2 & H3 & H4) & H5 & H6);
    unfold JPEGCompressor.Compress, PNGCompressor.Compress, applyResize,
      GenerateOutputPath;
    rewrite H1, H2, H3, H4, H5, H6; reflexivity.
Qed.

(** X5.  The size estimates read less: the JPEG estimate depends on the
    options through [Quality] and [ResizePercent] only, the PNG estimate
    through [CompressionLevel] and [ResizePercent] only.  A resize by
    [ResizeWidth] or [ResizeHeight], which [Compress] carries out, does
    not change the estimate. *)
Theorem EstimateSize_ignored_options :
  forall (P : Platform) (inputPath : string) (a b : CompressionOptions) (w : World),
    ResizePercent a = ResizePercent b ->
    (Quality a = Quality b ->
     JPEGCompressor.EstimateSize inputPath a w
     = JPEGCompressor.EstimateSize inputPath b w) /\
    (CompressionLevel a = CompressionLevel b ->
     PNGCompressor.EstimateSize inputPath a w
     = PNGCompressor.EstimateSize inputPath b w).
Proof.
  intros P inputPath a b w Hp.
  split; intros H;
    unfold JPEGCompressor.EstimateSize, PNGCompressor.EstimateSize, resizeFactor;
    rewrite Hp, H; reflexivity.
Qed.

(** The fields of the result, case by case. *)
Lemma Compress_fields :
  forall (P : Platform) (inputPath : string) (options : CompressionOptions)
         (w : World) (result : CompressionResult),
    result = fst (fst (JPEGCompressor.Compress inputPath options w)) \/
    result = fst (fst (PNGCompressor.Compress inputPath options w)) ->
    (Success result = false -> OutputSize result = 0 /\ Reduction result = zero) /\
    (OutputPath result = "" \/
     OutputPath result = GenerateOutputPath inputPath options) /\
    (Success result = true ->
     OutputPath result = GenerateOutputPath inputPath options /\
     os_Stat inputPath w = inr (InputSize result)).
Proof.
  intros P inputPath options w result [-> | ->]; compress_cases; read_fields;
    repeat split; intros; auto; congruence.
Qed.

(** X6.  A result that is not a success carries no output: [OutputSize]
    is 0 and [Reduction] is 0, so it adds nothing to the totals of a
    batch; a success names [GenerateOutputPath] as its output and the size
    [os.Stat] gave for the input. *)
Theorem Compress_result_fields :
  forall (P : Platform) (inputPath : string) (options : CompressionOptions)
         (w : World) (result : CompressionResult),
    result = fst (fst (JPEGCompressor.Compress inputPath options w)) \/
    result = fst (fst (PNGCompressor.Compress inputPath options w)) ->
    InputPath result = inputPath /\
    (Success result = false -> OutputSize result = 0 /\ Reduction result = zero) /\
    (Success result = true ->
     OutputPath result = GenerateOutputPath inputPath options /\
     os_Stat inputPath w = inr (InputSize result)).
Proof.
  intros P inputPath options w result H.
  destruct (Compress_fields P inputPath options w result H) as (H1 & _ & H3).
  repeat split; try (apply H1; assumption); try (apply H3; assumption).
  destruct (Compress_keeps_InputPath P inputPath options w) as [Hj Hp].
  destruct H as [-> | ->]; assumption.
Qed.

(** X7.  When the input cannot be read or cannot be decoded, [Compress]
    returns with the file system as it found it: no directory and no
    output file is created before the image is decoded. *)
Theorem Compress_writes_after_decode :
  forall (P : Platform) (inputPath : string) (options : CompressionOptions)
         (w : World),
    (exists err, os_Stat inputPath w = inl err) \/
    (exists err, imaging_Open inputPath w = inl err) ->
    snd (JPEGCompressor.Compress inputPath options w) = w /\
    snd (PNGCompressor.Compress inputPath options w) = w /\
    Success (fst (fst (JPEGCompressor.Compress inputPath options w))) = false /\
    Success (fst (fst (PNGCompressor.Compress inputPath options w))) = false.
Proof.
  intros P inputPath options w [[err H] | [err H]];
    repeat split; unfold_body; rewrite ?H;
    try reflexivity; destruct (os_Stat inputPath w); rewrite ?H; reflexivity.
Qed.

(** X8.  With a resampler that returns the size it is asked for, the
    [Width] and [Height] of the result are the target of the resize rule
    for the decoded image, whenever the decode succeeds and the target is
    not degenerate. *)
Theorem Compress_result_dimensions :
  forall (P : Platform) (inputPath : string) (options : CompressionOptions)
         (w : World) (size : Z) (img : Image),
    resampler_honours_size P ->
    os_Stat inputPath w = inr size -> imaging_Open inputPath w = inr img ->
    0 < Bounds_Dx img -> 0 < Bounds_Dy img ->
    0 < fst (resizeTarget (Bounds_Dx img) (Bounds_Dy img) options) ->
    0 < snd (resizeTarget (Bounds_Dx img) (Bounds_Dy img) options) ->
    let jpeg := fst (fst (JPEGCompressor.Compress inputPath options w)) in
    let png := fst (fst (PNGCompressor.Compress inputPath options w)) in
    (Width jpeg, Height jpeg)
    = resizeTarget (Bounds_Dx img) (Bounds_Dy img) options /\
    (Width png, Height png)
    = resizeTarget (Bounds_Dx img) (Bounds_Dy img) options.
Proof.
  intros P inputPath options w size img Hres Hstat Hopen Hx Hy Hw Hh jpeg png.
  assert ((Bounds_Dx (applyResize img options), Bounds_Dy (applyResize img options))
          = resizeTarget (Bounds_Dx img) (Bounds_Dy img) options) as E.
  { rewrite applyResize_request. unfold resizeTarget in *.
    destruct (resizeRequest (Bounds_Dx img) (Bounds_Dy img) options)
      as [[tw th]|]; [|reflexivity].
    cbn [fst snd] in Hw, Hh.
    destruct (Hres img tw th Hx Hy Hw Hh) as [-> ->]. reflexivity. }
  rewrite <- E. subst jpeg png.
  split; unfold_body; rewrite Hstat, Hopen;
    repeat (next_call; cbv beta iota zeta delta [negb]); reflexivity.
Qed.

(** ** compressor.go: [GetImageInfo] *)

(** X9.  What [GetImageInfo] returns for a file it can read: the path it
    was given, the size [file.Stat] reports, and as format the one of the
    extension when that is supported, else the one the decoder detected;
    either way JPEG or PNG. *)
Theorem GetImageInfo_format :
  forall (P : Platform) (path : string) (w w' : World) (info : ImageInfo),
    GetImageInfo path w = (inr info, w') ->
    Info.Path info = path /\
    (Info.Format info = FormatJPEG \/ Info.Format info = FormatPNG) /\
    (forall format, GetImageFormat path = inr format -> Info.Format info = format) /\
    (supported path = false -> Info.Format info = Info.ColorMode info).
Proof.
  intros P path w w' info. unfold GetImageInfo, run, bind, read, call, return_,
    defer_Close, supported.
  destruct (os_Open path w) as [err|file]; [discriminate|].
  destruct (File_Stat file w) as [err|size]; [discriminate|].
  destruct (image_DecodeConfig file w) as [[err|[[cw ch] format]] w1];
    [discriminate|].
  destruct (GetImageFormat path) as [err|imgFormat] eqn:Hfmt.
  - destruct (String.eqb format "jpeg") eqn:E1.
    + apply String.eqb_eq in E1. subst format.
      intros [= <- _]. cbn. repeat split; auto. discriminate.
    + destruct (String.eqb format "png") eqn:E2; [|discriminate].
      apply String.eqb_eq in E2. subst format.
      intros [= <- _]. cbn. repeat split; auto. discriminate.
  - intros [= <- _]. cbn. repeat split.
    + exact (GetImageFormat_supported _ _ Hfmt).
    + now intros f [= ->].
    + discriminate.
Qed.

(** ** api.go: [CompressImage] *)

Lemma Compress_error_or_success :
  forall (P : Platform) (inputPath : string) (options : CompressionOptions)
         (w : World) (out : CompressionResult * option error),
    out = fst (JPEGCompressor.Compress inputPath options w) \/
    out = fst (PNGCompressor.Compress inputPath options w) ->
    (snd out = None /\ Success (fst out) = true) \/
    (snd out <> None /\ Success (fst out) = false).
Proof.
  intros P inputPath options w out [-> | ->]; compress_cases; read_fields;
    (left; split; [reflexivity | reflexivity]) ||
    (right; split; [discriminate | reflexivity]).
Qed.

(** X10.  [CompressImage] returns the error [nil] exactly when it returns
    a result with [Success]; the result is [nil] exactly when the
    extension is not supported, and then the file system is not touched. *)
Theorem CompressImage_error_iff :
  forall (P : Platform) (inputPath : string) (options : CompressionOptions)
         (w : World),
    let result := fst (fst (CompressImage inputPath options w)) in
    let err := snd (fst (CompressImage inputPath options w)) in
    (err = None <-> exists r, result = Some r /\ Success r = true) /\
    (result = None <-> supported inputPath = false) /\
    (result = None -> snd (CompressImage inputPath options w) = w).
Proof.
  intros P inputPath options w. unfold CompressImage, supported.
  destruct (GetImageFormat inputPath) as [e|format] eqn:Hfmt; cbn [fst snd].
  - repeat split; try discriminate; auto. intros (r & Hr & _). discriminate.
  - destruct (GetImageFormat_supported _ _ Hfmt) as [-> | ->];
      [ change (String.eqb FormatJPEG FormatJPEG) with true
      | change (String.eqb FormatPNG FormatJPEG) with false;
        change (String.eqb FormatPNG FormatPNG) with true ]; cbv iota.
    + destruct (Compress_error_or_success P inputPath options w _ (or_introl eq_refl))
        as [[H1 H2] | [H1 H2]];
        destruct (JPEGCompressor.Compress inputPath options w) as [[r e] w'];
        cbn [fst snd] in *; repeat split; try discriminate; try congruence.
      * intros _. now exists r.
      * intros (r' & [= <-] & Hs). congruence.
    + destruct (Compress_error_or_success P inputPath options w _ (or_intror eq_refl))
        as [[H1 H2] | [H1 H2]];
        destruct (PNGCompressor.Compress inputPath options w) as [[r e] w'];
        cbn [fst snd] in *; repeat split; try discriminate; try congruence.
      * intros _. now exists r.
      * intros (r' & [= <-] & Hs). congruence.
Qed.

(** ** [filepath.Clean] on a path that is clean *)

Lemma clean_bytes_render : forall (c : ascii) (p : bytes),
  clean_bytes (c :: p)
  = render (is_sep c) (fold_left (clean_step (is_sep c)) (split_elems (c :: p) []) start).
Proof. reflexivity. Qed.

Lemma clean_step_real : forall rooted st el,
  real el ->
  clean_step rooted st el = {| updirs := updirs st; reals := el :: reals st |}.
Proof.
  intros rooted st el (H1 & H2 & H3 & _). unfold clean_step.
  now rewrite !bytes_eqb_neq by assumption.
Qed.

Lemma split_elems_sep_free : forall p cur : bytes,
  Forall (fun c => is_sep c = false) cur ->
  Forall (Forall (fun c => is_sep c = false)) (split_elems p cur).
Proof.
  induction p as [|c p IH]; intros cur Hcur; cbn [split_elems].
  - constructor; [|constructor]. now apply Forall_rev.
  - destruct (is_sep c) eqn:Hc.
    + constructor; [now apply Forall_rev | apply IH; constructor].
    + apply IH. now constructor.
Qed.

Lemma clean_step_valid : forall rooted st el,
  Forall (fun c => is_sep c = false) el ->
  valid rooted st -> valid rooted (clean_step rooted st el).
Proof.
  intros rooted st el Hel [Hu Hr]. unfold clean_step.
  destruct (bytes_eqb el []) eqn:E1; [now split|].
  destruct (bytes_eqb el [dot]) eqn:E2; [now split|].
  destruct (bytes_eqb el [dot; dot]) eqn:E3.
  - destruct (reals st) as [|top below] eqn:Er.
    + destruct rooted eqn:Hroot; [split; [exact Hu | now rewrite Er]|].
      split; [discriminate | constructor].
    + split; [exact Hu|]. cbn [reals]. now inversion Hr.
  - split; [exact Hu|]. cbn [reals]. constructor; [|exact Hr].
    repeat split; try assumption; intros ->;
      [rewrite (proj2 (bytes_eqb_eq _ _) eq_refl) in E1
      |rewrite (proj2 (bytes_eqb_eq _ _) eq_refl) in E2
      |rewrite (proj2 (bytes_eqb_eq _ _) eq_refl) in E3]; discriminate.
Qed.

Lemma fold_clean_step_valid : forall rooted els st,
  Forall (Forall (fun c => is_sep c = false)) els ->
  valid rooted st -> valid rooted (fold_left (clean_step rooted) els st).
Proof.
  intros rooted els. induction els as [|el els IH]; intros st Hels Hst; [exact Hst|].
  inversion Hels; subst. cbn [fold_left]. apply IH; [assumption|].
  now apply clean_step_valid.
Qed.

Lemma split_elems_app_sep : forall a b cur : bytes,
  Forall (fun c => is_sep c = false) a ->
  split_elems (a ++ sep :: b)%list cur = (rev cur ++ a)%list :: split_elems b [].
Proof.
  induction a as [|c a IH]; intros b cur Ha; cbn [app split_elems].
  - change (is_sep sep) with true. cbv iota. now rewrite app_nil_r.
  - inversion Ha as [|? ? Hc Ha']; subst. rewrite Hc, IH by assumption.
    cbn [rev]. now rewrite <- app_assoc.
Qed.

Lemma split_elems_any_sep : forall a b cur : bytes,
  split_elems (a ++ sep :: b)%list cur
  = (split_elems a cur ++ split_elems b [])%list.
Proof.
  induction a as [|c a IH]; intros b cur; cbn [app split_elems].
  - change (is_sep sep) with true. reflexivity.
  - destruct (is_sep c); [cbn [app]; f_equal|]; apply IH.
Qed.

(** Splitting what [join_elems] has joined. *)
Lemma split_join : forall els : list bytes,
  els <> [] -> Forall (Forall (fun c => is_sep c = false)) els ->
  split_elems (join_elems els) [] = els.
Proof.
  induction els as [|e els IH]; intros Hne Hels; [congruence|].
  inversion Hels as [|? ? He Hels']; subst.
  destruct els as [|e2 els].
  - cbn [join_elems]. now rewrite split_elems_nosep.
  - change (join_elems (e :: e2 :: els)) with (e ++ sep :: join_elems (e2 :: els))%list.
    rewrite split_elems_app_sep by assumption. cbn [rev app].
    f_equal. apply IH; [discriminate | assumption].
Qed.

Lemma fold_dots : forall n k,
  fold_left (clean_step false) (repeat [dot; dot] n) {| updirs := k; reals := [] |}
  = {| updirs := k + n; reals := [] |}.
Proof.
  induction n as [|n IH]; intros k; cbn [repeat fold_left].
  - now rewrite Nat.add_0_r.
  - unfold clean_step at 2. cbn [bytes_eqb]. cbn. rewrite IH. f_equal. lia.
Qed.

Lemma fold_reals : forall rooted els st,
  Forall real els ->
  fold_left (clean_step rooted) els st
  = {| updirs := updirs st; reals := (rev els ++ reals st)%list |}.
Proof.
  intros rooted els. induction els as [|el els IH]; intros st Hels.
  - now destruct st.
  - inversion Hels; subst. cbn [fold_left]. rewrite clean_step_real by assumption.
    rewrite IH by assumption. cbn [updirs reals rev]. now rewrite <- app_assoc.
Qed.

Lemma real_sep_free : forall els,
  Forall real els -> Forall (Forall (fun c => is_sep c = false)) els.
Proof.
  intros els H. eapply Forall_impl; [|exact H]. now intros el (_ & _ & _ & ?).
Qed.

Lemma dots_sep_free : forall n,
  Forall (Forall (fun c => is_sep c = false)) (repeat [dot; dot] n).
Proof.
  intros n. apply Forall_forall. intros el Hel. apply repeat_spec in Hel. subst.
  repeat constructor.
Qed.

(** Cleaning what [Clean] has written gives the state it was written
    from. *)
Lemma process_render : forall rooted st,
  valid rooted st ->
  fold_left (clean_step rooted) (split_elems (render rooted st) []) start = st.
Proof.
  intros rooted [n rs] [Hu Hr]. cbn [updirs reals] in *. unfold render.
  cbn [updirs reals].
  assert (Forall real (rev rs)) as Hrev by now apply Forall_rev.
  assert (Forall (Forall (fun c => is_sep c = false)) (repeat [dot; dot] n ++ rev rs))
    as Hfree.
  { apply Forall_app. split; [apply dots_sep_free | now apply real_sep_free]. }
  destruct rooted.
  - rewrite (Hu eq_refl) in *. cbn [repeat app] in *.
    cbn [split_elems]. change (is_sep sep) with true. cbv iota.
    cbn [rev fold_left]. unfold clean_step at 2.
    assert (bytes_eqb [] [] = true) as -> by reflexivity.
    destruct (rev rs) as [|e els] eqn:Er.
    + cbn. apply (f_equal (@rev bytes)) in Er. rewrite rev_involutive in Er.
      now subst.
    + rewrite split_join by (assumption || discriminate).
      rewrite fold_reals by assumption. unfold start. cbn [updirs reals].
      rewrite <- Er, rev_involutive, app_nil_r. reflexivity.
  - destruct (repeat [dot; dot] n ++ rev rs)%list as [|e els] eqn:Eels.
    + apply app_eq_nil in Eels as [E1 E2].
      destruct n; [|discriminate].
      apply (f_equal (@rev bytes)) in E2. rewrite rev_involutive in E2. subst.
      reflexivity.
    + assert (join_elems (e :: els) <> []) as Hbody.
      { assert (e <> []) as He.
        { destruct n as [|n]; cbn [repeat app] in Eels.
          - rewrite Eels in Hrev. inversion Hrev as [|? ? (H & _) _]. exact H.
          - injection Eels as <- _. discriminate. }
        destruct els; cbn [join_elems]; [exact He|].
        destruct e; [congruence | discriminate]. }
      destruct (join_elems (e :: els)) as [|b body] eqn:Ej; [congruence|].
      rewrite <- Ej, split_join by (assumption || discriminate).
      rewrite <- Eels, fold_left_app. unfold start. rewrite fold_dots.
      rewrite fold_reals by assumption. cbn [updirs reals].
      now rewrite rev_involutive, app_nil_r.
Qed.

Lemma is_file_name_real : forall name : string,
  is_file_name name = true -> real (list_ascii_of_string name).
Proof.
  intros name H. unfold is_file_name in H.
  apply andb_prop in H as [H H4]. apply andb_prop in H as [H H3].
  apply andb_prop in H as [H1 H2].
  apply negb_true_iff in H1, H2, H3.
  repeat split.
  - intros E. rewrite E in H1. discriminate.
  - intros E. rewrite E in H2. discriminate.
  - intros E. rewrite E in H3. discriminate.
  - rewrite forallb_forall in H4. apply Forall_forall. intros c Hc.
    specialize (H4 c Hc). now apply negb_true_iff in H4.
Qed.

Lemma string_of_list_ascii_inj : forall a b : bytes,
  string_of_list_ascii a = string_of_list_ascii b -> a = b.
Proof.
  intros a b H. rewrite <- (list_ascii_of_string_of_list_ascii a),
                  <- (list_ascii_of_string_of_list_ascii b).
  now rewrite H.
Qed.

(** Joining a file name to a directory never gives the directory
    back. *)
Lemma Join_file_name : forall dir name : string,
  is_file_name name = true -> Join [dir; name] <> dir.
Proof.
  intros dir name Hname. pose proof (is_file_name_real name Hname) as Hreal.
  cbn [Join]. destruct (String.eqb dir "") eqn:Hdir.
  - apply String.eqb_eq in Hdir. subst dir.
    destruct (String.eqb name "") eqn:Hn.
    + apply String.eqb_eq in Hn. subst name. destruct Hreal as [H _]. now contradiction H.
    + unfold Clean. intros E. apply (f_equal list_ascii_of_string) in E.
      rewrite list_ascii_of_string_of_list_ascii in E.
      now apply clean_bytes_nonempty in E.
  - cbn [String.concat]. unfold Clean. intros E.
    apply (f_equal list_ascii_of_string) in E.
    rewrite list_ascii_of_string_of_list_ascii in E.
    rewrite !list_ascii_of_string_app in E.
    remember (list_ascii_of_string dir) as d eqn:Hd.
    remember (list_ascii_of_string name) as n eqn:Hn.
    change (list_ascii_of_string "/") with [sep] in E. cbn [app] in E.
    destruct d as [|c d'] eqn:Ed.
    { apply String.eqb_neq in Hdir. apply Hdir.
      rewrite <- (string_of_list_ascii_of_string dir). now rewrite <- Hd. }
    rewrite <- Ed in *.
    assert (clean_bytes (d ++ sep :: n)%list
            = render (is_sep c)
                (fold_left (clean_step (is_sep c))
                           (split_elems (d ++ sep :: n)%list []) start))
      as Hclean by (rewrite Ed; apply clean_bytes_render).
    rewrite Hclean in E.
    rewrite split_elems_any_sep, fold_left_app in E.
    destruct Hreal as (R1 & R2 & R3 & R4).
    rewrite (split_elems_nosep n [] R4) in E. cbn [rev app fold_left] in E.
    remember (fold_left (clean_step (is_sep c)) (split_elems d []) start) as st
      eqn:Est.
    assert (valid (is_sep c) st) as Hst.
    { rewrite Est.
      apply fold_clean_step_valid; [apply split_elems_sep_free; constructor|].
      split; [reflexivity | constructor]. }
    rewrite clean_step_real in E by (repeat split; assumption).
    assert (valid (is_sep c) {| updirs := updirs st; reals := n :: reals st |}) as Hst'.
    { destruct Hst as [Hu Hr]. split; [exact Hu|]. cbn [reals].
      constructor; [repeat split; assumption | exact Hr]. }
    pose proof (process_render _ _ Hst') as Hback.
    assert (render (is_sep c) {| updirs := updirs st; reals := n :: reals st |} = d)
      as E2 by exact E.
    rewrite E2, <- Est in Hback.
    apply (f_equal reals) in Hback. cbn [reals] in Hback.
    apply (f_equal (@List.length bytes)) in Hback. cbn [List.length] in Hback. lia.
Qed.

(** ** api.go: [ScanDirectory] *)

Section ScanFacts.
Context {P : Platform}.
Context {F : FileSystem P}.
Variable dirPath : string.

Lemma scan_file : forall recursive path images,
  scan dirPath recursive path false None images
  = (Continue, (images ++ filter supported [path])%list).
Proof.
  intros recursive path images. unfold scan, supported. cbn [filter].
  destruct (GetImageFormat path); [now rewrite app_nil_r | reflexivity].
Qed.

(** The walk of a recursive scan, from any node on. *)
Lemma walk_recursive : forall (info : node) (path : string) (images : list string),
  match files_below path info with
  | inl err => fst (walk (scan dirPath true) path info images) = Stop err
  | inr files =>
      walk (scan dirPath true) path info images
      = (Continue, (images ++ filter supported files)%list)
  end.
Proof.
  induction info as [|err|names IH] using node_induction; intros path images.
  - cbn [files_below walk]. apply scan_file.
  - reflexivity.
  - cbn [files_below walk scan negb andb].
    revert images. induction IH as [|[name [err|info]] rest Hentry _ IHrest];
      intros images; cbn [files_of_names walk_names].
    + now rewrite app_nil_r.
    + reflexivity.
    + unfold holds_below in Hentry. cbn [snd] in Hentry.
      specialize (Hentry (Join [path; name]) images).
      destruct (files_below (Join [path; name]) info) as [err|files].
      * destruct (walk (scan dirPath true) (Join [path; name]) info images)
          as [r images'].
        cbn [fst] in Hentry. subst r. reflexivity.
      * rewrite Hentry. specialize (IHrest (images ++ filter supported files)%list).
        destruct (files_of_names files_below path rest) as [err|more];
          [exact IHrest|].
        rewrite IHrest, filter_app, app_assoc. reflexivity.
Qed.

(** The walk of a scan that is not recursive, through the names of the
    root. *)
Lemma walk_names_flat : forall (names : list (string * (error + node)))
                               (images : list string),
  Forall (fun entry => is_file_name (fst entry) = true) names ->
  match direct_files dirPath names with
  | inl err =>
      fst (walk_names (scan dirPath false) (walk (scan dirPath false))
                      dirPath names images) = Stop err
  | inr files =>
      walk_names (scan dirPath false) (walk (scan dirPath false)) dirPath names images
      = (Continue, (images ++ filter supported files)%list)
  end.
Proof.
  induction names as [|[name [err|[|[err|below]]]] rest IH]; intros images Hnames;
    cbn [direct_files walk_names walk].
  - now rewrite app_nil_r.
  - reflexivity.
  - (* a file *)
    inversion Hnames as [|? ? _ Hrest]; subst.
    rewrite scan_file.
    specialize (IH (images ++ filter supported [Join [dirPath; name]])%list Hrest).
    destruct (direct_files dirPath rest) as [err|more]; [exact IH|].
    rewrite IH, <- app_assoc.
    change (Join [dirPath; name] :: more) with ([Join [dirPath; name]] ++ more)%list.
    now rewrite filter_app.
  - (* a directory that cannot be read *)
    reflexivity.
  - (* a directory: skipped *)
    inversion Hnames as [|? ? Hname Hrest]; subst. cbn [fst] in Hname.
    cbn [scan negb andb].
    assert (String.eqb (Join [dirPath; name]) dirPath = false) as ->
        by (apply String.eqb_neq; now apply Join_file_name).
    cbn [negb is_dir]. apply IH. exact Hrest.
Qed.

(** Whatever the mode and the tree, the walk appends supported paths
    only. *)
Lemma walk_supported : forall (recursive : bool) (info : node) (path : string)
                              (images : list string),
  Forall (fun p => supported p = true) images ->
  Forall (fun p => supported p = true)
         (snd (walk (scan dirPath recursive) path info images)).
Proof.
  intros recursive.
  assert (forall path isDir err images,
             Forall (fun p => supported p = true) images ->
             Forall (fun p => supported p = true)
                    (snd (scan dirPath recursive path isDir err images))) as Hscan.
  { intros path isDir err images H. unfold scan.
    destruct err; [exact H|]. destruct isDir.
    - destruct (negb recursive && negb (String.eqb path dirPath)); exact H.
    - destruct (GetImageFormat path) eqn:E; [exact H|].
      apply Forall_app. split; [exact H|]. constructor; [|constructor].
      unfold supported. now rewrite E. }
  induction info as [|err|names IH] using node_induction; intros path images Himg.
  - apply Hscan, Himg.
  - apply Hscan, Himg.
  - cbn [walk]. pose proof (Hscan path true None images Himg) as Hroot.
    destruct (scan dirPath recursive path true None images) as [[| |err] images1];
      cbn [snd] in *; try exact Hroot.
    clear Himg. revert images1 Hroot.
    induction IH as [|[name [err|info]] rest Hentry _ IHrest];
      intros images1 Himg; cbn [walk_names].
    + exact Himg.
    + pose proof (Hscan (Join [path; name]) false (Some err) images1 Himg) as Hnext.
      destruct (scan dirPath recursive (Join [path; name]) false (Some err) images1)
        as [[| |e] images2]; cbn [snd] in *; auto.
    + unfold holds_below in Hentry. cbn [snd] in Hentry.
      specialize (Hentry (Join [path; name]) images1 Himg).
      destruct (walk (scan dirPath recursive) (Join [path; name]) info images1)
        as [[| |e] images2]; cbn [snd] in *; auto.
      destruct (is_dir info); cbn [snd]; auto.
Qed.

End ScanFacts.

(** X11.  A recursive [ScanDirectory] returns the files below the root
    that are no directories and have a supported extension, in the order
    of the walk (directory by directory, names sorted); any error of
    [os.Lstat] or of reading a directory on the way makes it return that
    error, wrapped, and no list. *)
Theorem ScanDirectory_recursive :
  forall (P : Platform) (F : FileSystem P) (dirPath : string) (w : World),
    ScanDirectory dirPath true w = found (all_files (os_Lstat dirPath w) dirPath).
Proof.
  intros P F dirPath w. unfold ScanDirectory, Walk, all_files, found.
  destruct (os_Lstat dirPath w) as [err|info]; [reflexivity|].
  pose proof (walk_recursive dirPath info dirPath []) as H.
  destruct (files_below dirPath info) as [err|files].
  - destruct (walk (scan dirPath true) dirPath info []) as [r images].
    cbn [fst] in H. now subst r.
  - now rewrite H.
Qed.

(** X12.  A [ScanDirectory] that is not recursive returns the supported
    files among the names of the directory, and does not enter its
    subdirectories.  [filepath.Walk] has read each of them before the walk
    function can skip it, so a subdirectory that cannot be read makes the
    whole scan fail. *)
Theorem ScanDirectory_flat :
  forall (P : Platform) (F : FileSystem P) (dirPath : string) (w : World),
    file_names (os_Lstat dirPath w) ->
    ScanDirectory dirPath false w = found (flat_files (os_Lstat dirPath w) dirPath).
Proof.
  intros P F dirPath w Hnames. unfold ScanDirectory, Walk, flat_files, found.
  destruct (os_Lstat dirPath w) as [err|[|[err|names]]]; try reflexivity.
  - cbn [walk]. rewrite scan_file. reflexivity.
  - cbn [walk scan negb andb]. rewrite String.eqb_refl. cbn [negb andb].
    cbn [file_names] in Hnames.
    pose proof (walk_names_flat dirPath names [] Hnames) as H.
    destruct (direct_files dirPath names) as [err|files].
    + destruct (walk_names (scan dirPath false) (walk (scan dirPath false))
                           dirPath names []) as [r images].
      cbn [fst] in H. now subst r.
    + now rewrite H.
Qed.

(** X13.  The paths [ScanDirectory] returns all have a supported
    extension, in either mode; so a batch over them cannot meet the [nil]
    result: no run of [BatchCompress] on them panics, and it can
    return. *)
Theorem ScanDirectory_feeds_BatchCompress :
  forall (P : Platform) (F : FileSystem P) (dirPath : string) (recursive : bool)
         (w w' : World) (images : list string)
         (options : CompressionOptions) (progressChan : bool),
    ScanDirectory dirPath recursive w = inr images ->
    Forall (fun path => supported path = true) images /\
    ~ BatchCompress_panics options progressChan images w' /\
    exists res, BatchCompress_returns options progressChan images w' res.
Proof.
  intros P F dirPath recursive w w' images options progressChan H.
  assert (Forall (fun path => supported path = true) images) as Hall.
  { unfold ScanDirectory, Walk in H.
    destruct (os_Lstat dirPath w) as [err|info].
    - cbn in H. discriminate.
    - pose proof (walk_supported dirPath recursive info dirPath [] (Forall_nil _)) as Hs.
      destruct (walk (scan dirPath recursive) dirPath info []) as [[| |err] found];
        cbn [snd] in *; try discriminate; now injection H as <-. }
  split; [exact Hall|]. split.
  - intros (s & Hs & Hp).
    destruct (holds_no_nil_reachable options progressChan _ _ _ Hall Hs) as [_ Hnp].
    congruence.
  - apply BatchCompress_supported_can_return.
    eapply Forall_impl; [|exact Hall]. intros path Hp. now apply supported_format.
Qed.

(** ** api.go: [ValidateImage] and [PreviewCompression] *)

Lemma ValidateImage_supported :
  forall (P : Platform) (F : FileSystem P) (path : string) (w w' : World),
    ValidateImage path w = (None, w') -> supported path = true.
Proof.
  intros P F path w w' H. unfold ValidateImage in H.
  destruct (match os_Stat path w with
            | inl err => os_IsNotExist err
            | inr _ => false
            end); [discriminate|].
  unfold supported.
  destruct (GetImageFormat path) as [err|format]; [discriminate | reflexivity].
Qed.

(** X14.  A path that [ValidateImage] accepts has a supported extension
    and is a file [GetImageInfo] can read; [CompressImage] returns a result
    for it that is not [nil].  [os.Stat] may have failed on it, as long as
    the error is not the one of a missing file. *)
Theorem ValidateImage_accepts :
  forall (P : Platform) (F : FileSystem P) (path : string) (w w' : World),
    ValidateImage path w = (None, w') ->
    supported path = true /\
    (exists info, GetImageInfo path w = (inr info, w')) /\
    (forall err, os_Stat path w = inl err -> os_IsNotExist err = false) /\
    forall options w1, fst (fst (CompressImage path options w1)) <> None.
Proof.
  intros P F path w w' H. unfold ValidateImage in H.
  destruct (match os_Stat path w with
            | inl err => os_IsNotExist err
            | inr _ => false
            end) eqn:Hstat; [discriminate|].
  destruct (GetImageFormat path) as [err|format] eqn:Hfmt; [discriminate|].
  destruct (GetImageInfo path w) as [[err|info] w1] eqn:Hinfo; [discriminate|].
  injection H as <-.
  assert (supported path = true) as Hs by (unfold supported; now rewrite Hfmt).
  repeat split.
  - exact Hs.
  - now exists info.
  - intros err Herr. now rewrite Herr in Hstat.
  - intros options w2 Hnil.
    destruct (CompressImage_supported P path options w2 format Hfmt) as [r Hr].
    congruence.
Qed.

Lemma ValidateImage_accepts_witness :
  supported "photos/cat.jpg" = true /\
  (exists info, GetImageInfo (P := Toy.platform) "photos/cat.jpg" Toy.disk
                = (inr info, Toy.disk)) /\
  (forall err, os_Stat (Platform := Toy.platform) "photos/cat.jpg" Toy.disk = inl err ->
               os_IsNotExist (FileSystem := Album.files) err = false) /\
  forall options w1,
    fst (fst (CompressImage (P := Toy.platform) "photos/cat.jpg" options w1)) <> None.
Proof.
  apply (ValidateImage_accepts Toy.platform Album.files "photos/cat.jpg"
           Toy.disk Toy.disk).
  reflexivity.
Defined.

(** What it refuses, on the small platform: a missing file, a text
    file, a file that is no image. *)
Example ValidateImage_refuses :
  fst (ValidateImage (F := Album.files) "photos/dog.jpg" Toy.disk)
  = Some "file does not exist: photos/dog.jpg" /\
  fst (ValidateImage (F := Album.files) "photos/notes.txt" Toy.disk)
  = Some "unsupported image format: .txt" /\
  fst (ValidateImage (F := Album.files) "photos/broken.jpg" Toy.disk)
  = Some "invalid jpeg image: failed to decode image config: image: unknown format".
Proof. repeat split. Qed.

(** X15.  For options with a width and height that are not negative, the
    new dimensions of a preview are the target [applyResize] computes for
    an image of the size in the preview, although the two functions test
    the options differently; the estimated reduction is
    [CalculateReduction] of the two sizes of the preview, and a preview is
    returned with the error [nil] only. *)
Theorem PreviewCompression_dimensions :
  forall (P : Platform) (inputPath : string) (options : CompressionOptions)
         (w w' : World) (preview : CompressionPreview) (err : option error),
    PreviewCompression inputPath options w = ((Some preview, err), w') ->
    0 <= ResizeWidth options -> 0 <= ResizeHeight options ->
    err = None /\
    Preview.InputPath preview = inputPath /\
    (Preview.NewWidth preview, Preview.NewHeight preview)
    = resizeTarget (Preview.Width preview) (Preview.Height preview) options /\
    Preview.EstimatedReduction preview
    = CalculateReduction (Preview.InputSize preview) (Preview.EstimatedSize preview).
Proof.
  intros P inputPath options w w' preview err H Hw Hh.
  unfold PreviewCompression in H.
  destruct (GetImageInfo inputPath w) as [[e|info] w1]; [discriminate|].
  destruct (EstimateSize inputPath options w1) as [[size [e|]] w2]; [discriminate|].
  injection H as <- <- _. split; [reflexivity|].
  unfold resizeTarget, resizeRequest.
  destruct (gtb (ResizePercent options) zero && ltb (ResizePercent options) hundred).
  { repeat split. }
  destruct (ResizeWidth options >? 0) eqn:E1;
    destruct (ResizeHeight options >? 0) eqn:E2;
    destruct (ResizeWidth options =? 0) eqn:E3;
    destruct (ResizeHeight options =? 0) eqn:E4;
    try lia; repeat split.
Qed.

Lemma PreviewCompression_dimensions_witness :
  @None error = None /\
  Preview.InputPath Album.cat_preview = "photos/cat.jpg" /\
  (Preview.NewWidth Album.cat_preview, Preview.NewHeight Album.cat_preview)
  = resizeTarget (P := Toy.platform) (Preview.Width Album.cat_preview)
      (Preview.Height Album.cat_preview) Toy.width_400 /\
  Preview.EstimatedReduction Album.cat_preview
  = CalculateReduction (Preview.InputSize Album.cat_preview)
      (Preview.EstimatedSize Album.cat_preview).
Proof.
  apply (PreviewCompression_dimensions Toy.platform "photos/cat.jpg" Toy.width_400
           Toy.disk Toy.disk Album.cat_preview None).
  - vm_compute. reflexivity.
  - simpl. lia.
  - simpl. lia.
Defined.

(** The preview of 800 x 600 at a width of 400; with a negative width
    the preview scales by the height, while [applyResize] hands the
    negative width to the resampler. *)
Example PreviewCompression_values :
  (Preview.NewWidth Album.cat_preview, Preview.NewHeight Album.cat_preview)
  = (400, 300) /\
  Preview.EstimatedSize Album.cat_preview = 880000 /\
  let negative :=
    {| Quality := 85; ResizePercent := zero; ResizeWidth := -5;
       ResizeHeight := 150; StripMetadata := true; OutputDir := "";
       OutputSuffix := ""; Progressive := true; ChromaSubsample := "4:2:0";
       CompressionLevel := 6; Interlaced := false |} in
  option_map (fun p => (Preview.NewWidth p, Preview.NewHeight p))
    (fst (fst (PreviewCompression (P := Toy.platform) "photos/cat.jpg" negative
                 Toy.disk)))
  = Some (200, 150) /\
  resizeTarget (P := Toy.platform) 800 600 negative = (-5, 150).
Proof. vm_compute. repeat split. Qed.

(** ** The terminal interface: [AddFiles] *)

Lemma existsb_eqb_In : forall (file : string) (files : list string),
  existsb (String.eqb file) files = true <-> In file files.
Proof.
  intros file files. rewrite existsb_exists. split.
  - intros (f & Hin & Heq). apply String.eqb_eq in Heq. now subst.
  - intros Hin. exists file. split; [exact Hin | apply String.eqb_refl].
Qed.

(** X16.  [AddFiles] appends to the files of the home view those of the
    new files that [ValidateImage] accepts and that are not yet there:
    the list stays free of duplicates, its old entries stay in place, and
    every new entry has a supported extension. *)
Theorem AddFiles_keeps_list_valid :
  forall (P : Platform) (F : FileSystem P) (files homeFiles : list string)
         (w : World),
    NoDup homeFiles ->
    Forall (fun path => supported path = true) homeFiles ->
    exists added,
      fst (AddFiles files homeFiles w) = (homeFiles ++ added)%list /\
      NoDup (fst (AddFiles files homeFiles w)) /\
      Forall (fun path => supported path = true) (fst (AddFiles files homeFiles w)) /\
      incl added files.
Proof.
  intros P F files. induction files as [|file rest IH]; intros homeFiles w Hnd Hsup.
  - exists []. cbn [AddFiles fst]. rewrite app_nil_r.
    repeat split; try assumption. intros x [].
  - cbn [AddFiles].
    destruct (ValidateImage file w) as [[err|] w1] eqn:Hv.
    + destruct (IH homeFiles w1 Hnd Hsup) as (added & H1 & H2 & H3 & H4).
      exists added. repeat split; try assumption.
      intros x Hx. right. now apply H4.
    + pose proof (ValidateImage_supported P F file w w1 Hv) as Hs.
      destruct (existsb (String.eqb file) homeFiles) eqn:Hfound.
      * destruct (IH homeFiles w1 Hnd Hsup) as (added & H1 & H2 & H3 & H4).
        exists added. repeat split; try assumption.
        intros x Hx. right. now apply H4.
      * assert (~ In file homeFiles) as Hnew.
        { intros Hin. apply existsb_eqb_In in Hin. congruence. }
        destruct (IH (homeFiles ++ [file])%list w1) as (added & H1 & H2 & H3 & H4).
        -- apply NoDup_app; [assumption | repeat constructor; intros [] |].
           intros x Hx [<-|[]]. contradiction.
        -- apply Forall_app. split; [assumption | now repeat constructor].
        -- exists (file :: added). rewrite <- app_assoc in H1. cbn [app] in H1.
           repeat split; try assumption.
           intros x [<-|Hx]; [now left | right; now apply H4].
Qed.

Lemma AddFiles_keeps_list_valid_witness :
  exists added,
    fst (AddFiles (F := Album.files)
           ["photos/cat.jpg"; "photos/notes.txt"; "photos/cat.jpg";
            "photos/broken.jpg"; "photos/dot.png"] ["photos/dot.png"] Toy.disk)
    = (["photos/dot.png"] ++ added)%list /\
    NoDup (fst (AddFiles (F := Album.files)
                  ["photos/cat.jpg"; "photos/notes.txt"; "photos/cat.jpg";
                   "photos/broken.jpg"; "photos/dot.png"] ["photos/dot.png"]
                  Toy.disk)) /\
    Forall (fun path => supported path = true)
           (fst (AddFiles (F := Album.files)
                   ["photos/cat.jpg"; "photos/notes.txt"; "photos/cat.jpg";
                    "photos/broken.jpg"; "photos/dot.png"] ["photos/dot.png"]
                   Toy.disk)) /\
    incl added ["photos/cat.jpg"; "photos/notes.txt"; "photos/cat.jpg";
                "photos/broken.jpg"; "photos/dot.png"].
Proof.
  apply (AddFiles_keeps_list_valid Toy.platform Album.files
           ["photos/cat.jpg"; "photos/notes.txt"; "photos/cat.jpg";
            "photos/broken.jpg"; "photos/dot.png"] ["photos/dot.png"] Toy.disk).
  - repeat constructor. intros [].
  - repeat constructor.
Defined.

Example AddFiles_values :
  fst (AddFiles (F := Album.files)
         ["photos/cat.jpg"; "photos/notes.txt"; "photos/cat.jpg";
          "photos/broken.jpg"; "photos/dot.png"] ["photos/dot.png"] Toy.disk)
  = ["photos/dot.png"; "photos/cat.jpg"].
Proof. reflexivity. Qed.

(** ** api.go: the batch, continued *)

(** X17.  A batch can end in a run-time panic exactly when one of its
    paths has no supported extension. *)
Theorem BatchCompress_panics_iff_unsupported :
  forall (P : Platform) (options : CompressionOptions) (progressChan : bool)
         (inputPaths : list string) (w : World),
    BatchCompress_panics options progressChan inputPaths w <->
    Exists (fun path => supported path = false) inputPaths.
Proof.
  intros P options progressChan inputPaths w. split.
  - intros (s & Hs & Hp).
    destruct (forallb supported inputPaths) eqn:E.
    + rewrite forallb_forall in E.
      assert (Forall (fun path => supported path = true) inputPaths) as Hall
          by now apply Forall_forall.
      destruct (holds_no_nil_reachable options progressChan _ _ _ Hall Hs) as [_ Hn].
      congruence.
    + apply Exists_exists.
      assert (existsb (fun p => negb (supported p)) inputPaths = true) as Hex.
      { clear - E. induction inputPaths as [|p ps IH]; [discriminate|].
        cbn [forallb existsb] in *. destruct (supported p); cbn [negb andb orb] in *;
          [now apply IH | reflexivity]. }
      apply existsb_exists in Hex as (p & Hin & Hp').
      exists p. split; [exact Hin|]. now apply negb_true_iff in Hp'.
  - intros H. apply Exists_exists in H as (path & Hin & Hbad).
    apply unsupported_format in Hbad as [err Herr].
    apply in_split in Hin as (before & after & ->).
    eapply BatchCompress_unsupported_can_panic. exact Herr.
Qed.

(** X18.  In every state of a batch the goroutines between [mu.Lock()]
    and [mu.Unlock()] are as many as the mutex says: one when it is held,
    none when it is free.  So the appends to [Results] and the updates of
    the counters never interleave. *)
Theorem BatchCompress_mutual_exclusion :
  forall (P : Platform) (options : CompressionOptions) (progressChan : bool)
         (inputPaths : list string) (w : World) (s : state),
    reachable options progressChan (init inputPaths w) s ->
    count in_critical (fst s) <= 1 /\
    (mu (snd s) = true <-> count in_critical (fst s) = 1).
Proof.
  intros P options progressChan inputPaths w s Hs.
  rewrite (mutex_invariant_reachable options progressChan _ _ _ Hs).
  destruct (mu (snd s)); split; try lia; split; (lia || congruence).
Qed.

Lemma BatchCompress_mutual_exclusion_witness :
  count in_critical (fst Album.in_update) <= 1 /\
  (mu (snd Album.in_update) = true <-> count in_critical (fst Album.in_update) = 1).
Proof.
  apply (BatchCompress_mutual_exclusion Toy.platform DefaultOptions true
           Toy.batch_paths Toy.disk Album.in_update).
  apply exec_reachable with (schedule := [0; 0; 0]%nat).
  vm_compute. reflexivity.
Defined.

(** While the first goroutine is in its update the second one cannot
    take the mutex. *)
Example second_goroutine_waits :
  mu (snd Album.in_update) = true /\
  exec (P := Toy.platform) DefaultOptions true [1; 1; 1]%nat Album.in_update = None /\
  exec (P := Toy.platform) DefaultOptions true [1; 1]%nat Album.in_update <> None.
Proof. vm_compute. repeat split. discriminate. Qed.

(** X19.  Termination without deadlock.  When every path has a supported
    extension (and the receiver takes what is pushed to the progress
    channel), a run of [n] statements leaves [7 * N - n] statements to
    execute, for [N] paths: no run is longer than [7 * N], the goroutines
    have all finished exactly after [7 * N] statements, and before that
    some goroutine can always execute its next statement.  No run
    panics. *)
Theorem BatchCompress_runs_to_completion :
  forall (P : Platform) (options : CompressionOptions) (progressChan : bool)
         (inputPaths : list string) (w : World) (schedule : list nat) (s : state),
    Forall (fun path => supported path = true) inputPaths ->
    exec options progressChan schedule (init inputPaths w) = Some s ->
    panicked (snd s) = false /\
    Z.of_nat (List.length schedule) + remaining (fst s)
    = 7 * Z.of_nat (List.length inputPaths) /\
    (all_done s <->
     Z.of_nat (List.length schedule) = 7 * Z.of_nat (List.length inputPaths)) /\
    (all_done s \/
     exists i s', fire options progressChan i (fst s) (snd s) = Some s').
Proof.
  intros P options progressChan inputPaths w schedule s Hall Hexec.
  pose proof (exec_reachable options progressChan _ _ _ Hexec) as Hs.
  destruct (holds_no_nil_reachable options progressChan _ _ _ Hall Hs) as [_ Hp].
  pose proof (exec_remaining options progressChan _ _ _ Hexec Hp) as Hrem.
  rewrite init_remaining in Hrem.
  pose proof (remaining_zero (fst s)) as Hzero.
  repeat split; try assumption.
  - intros Hdone. apply Hzero in Hdone. lia.
  - intros Hlen. apply Hzero. lia.
  - now apply (never_stuck options progressChan inputPaths w).
Qed.

Lemma BatchCompress_runs_to_completion_witness :
  panicked (snd Toy.batch_final) = false /\
  Z.of_nat (List.length Toy.batch_schedule) + remaining (fst Toy.batch_final)
  = 7 * Z.of_nat (List.length Toy.batch_paths) /\
  (all_done (P := Toy.platform) Toy.batch_final <->
   Z.of_nat (List.length Toy.batch_schedule)
   = 7 * Z.of_nat (List.length Toy.batch_paths)) /\
  (all_done (P := Toy.platform) Toy.batch_final \/
   exists i s', fire (P := Toy.platform) DefaultOptions true i
                  (fst Toy.batch_final) (snd Toy.batch_final) = Some s').
Proof.
  apply (BatchCompress_runs_to_completion Toy.platform DefaultOptions true
           Toy.batch_paths Toy.disk Toy.batch_schedule Toy.batch_final).
  - repeat constructor.
  - vm_compute. reflexivity.
Defined.

Lemma all_done_unsent : forall gs : list goroutine,
  Forall (fun g => at_ g = Finished) gs -> unsent gs = [].
Proof.
  induction 1 as [|g gs Hg _ IH]; [reflexivity|].
  unfold unsent in *. cbn [flat_map]. now rewrite Hg, IH.
Qed.

(** X20.  When the batch has completed, the results pushed to the
    progress channel are the results of the [BatchResult], each one once
    (in the order of the sends, which need not be that of the appends);
    without a channel nothing is pushed. *)
Theorem BatchCompress_progress_channel :
  forall (P : Platform) (options : CompressionOptions) (progressChan : bool)
         (inputPaths : list string) (w : World) (s : state),
    reachable options progressChan (init inputPaths w) s ->
    all_done s -> panicked (snd s) = false ->
    if progressChan
    then Permutation (map Some (sent (snd s))) (Results (batchResult (snd s)))
    else sent (snd s) = [].
Proof.
  intros P options progressChan inputPaths w s Hs Hdone Hp.
  pose proof (progress_invariant_reachable options progressChan _ _ _ Hs Hp) as H.
  destruct progressChan; [|exact H].
  rewrite (all_done_unsent _ Hdone), app_nil_r in H. now apply Permutation_sym.
Qed.

Lemma BatchCompress_progress_channel_witness :
  Permutation (map Some (sent (snd Toy.batch_final)))
              (Results (batchResult (snd Toy.batch_final))).
Proof.
  apply (BatchCompress_progress_channel Toy.platform DefaultOptions true
           Toy.batch_paths Toy.disk Toy.batch_final).
  - apply exec_reachable with (schedule := Toy.batch_schedule).
    vm_compute. reflexivity.
  - repeat constructor.
  - reflexivity.
Defined.

Lemma FormatBytes_unit_witness :
  if 2000000 <? 1024 then FormatBytes 2000000 = Text (format_d 2000000 ++ " B")
  else exists (k : Z) (c : ascii),
      1 <= k <= 6 /\ 1024 ^ k <= 2000000 < 1024 ^ (k + 1) /\
      String.get (Z.to_nat (k - 1)) "KMGTPE" = Some c /\
      FormatBytes 2000000
      = Text (format_f1 (Float64.div (of_int 2000000) (of_int (1024 ^ k)))
              ++ " " ++ String c "B").
Proof. apply (FormatBytes_unit 2000000). reflexivity. Defined.

Lemma Compress_ignored_options_witness :
  JPEGCompressor.Compress (P := Toy.platform) "photos/cat.jpg" DefaultOptions Toy.disk
  = JPEGCompressor.Compress (P := Toy.platform) "photos/cat.jpg" Album.other_flags
      Toy.disk /\
  PNGCompressor.Compress (P := Toy.platform) "photos/dot.png" DefaultOptions Toy.disk
  = PNGCompressor.Compress (P := Toy.platform) "photos/dot.png" Album.other_flags
      Toy.disk.
Proof.
  split.
  - apply (Compress_ignored_options Toy.platform "photos/cat.jpg" DefaultOptions
             Album.other_flags Toy.disk).
    vm_compute. repeat split.
  - apply (Compress_ignored_options Toy.platform "photos/dot.png" DefaultOptions
             Album.other_flags Toy.disk).
    vm_compute. repeat split.
Defined.

Lemma EstimateSize_ignored_options_witness :
  (Quality DefaultOptions = Quality Toy.width_400 ->
   JPEGCompressor.EstimateSize (P := Toy.platform) "photos/cat.jpg" DefaultOptions
     Toy.disk
   = JPEGCompressor.EstimateSize (P := Toy.platform) "photos/cat.jpg" Toy.width_400
       Toy.disk) /\
  (CompressionLevel DefaultOptions = CompressionLevel Toy.width_400 ->
   PNGCompressor.EstimateSize (P := Toy.platform) "photos/cat.jpg" DefaultOptions
     Toy.disk
   = PNGCompressor.EstimateSize (P := Toy.platform) "photos/cat.jpg" Toy.width_400
       Toy.disk).
Proof.
  apply (EstimateSize_ignored_options Toy.platform "photos/cat.jpg" DefaultOptions
           Toy.width_400 Toy.disk).
  reflexivity.
Defined.

(** The estimate for a width of 400 is the estimate without a resize,
    while the file that is written is a quarter of the size. *)
Example estimate_ignores_width :
  fst (fst (EstimateSize (P := Toy.platform) "photos/cat.jpg" Toy.width_400 Toy.disk))
  = 880000 /\
  OutputSize (fst (fst (JPEGCompressor.Compress (P := Toy.platform) "photos/cat.jpg"
                          DefaultOptions Toy.disk))) = 408001 /\
  OutputSize (fst (fst (JPEGCompressor.Compress (P := Toy.platform) "photos/cat.jpg"
                          Toy.width_400 Toy.disk))) = 102001.
Proof. vm_compute. repeat split. Qed.

Lemma Compress_result_fields_witness :
  InputPath Toy.dot_result = "photos/dot.png" /\
  (Success Toy.dot_result = false ->
   OutputSize Toy.dot_result = 0 /\ Reduction Toy.dot_result = zero) /\
  (Success Toy.dot_result = true ->
   OutputPath Toy.dot_result = GenerateOutputPath "photos/dot.png" DefaultOptions /\
   os_Stat (Platform := Toy.platform) "photos/dot.png" Toy.disk
   = inr (InputSize Toy.dot_result)).
Proof.
  apply (Compress_result_fields Toy.platform "photos/dot.png" DefaultOptions
           Toy.disk Toy.dot_result).
  right. vm_compute. reflexivity.
Defined.

Lemma Compress_writes_after_decode_witness :
  snd (JPEGCompressor.Compress (P := Toy.platform) "photos/broken.jpg" DefaultOptions
         Toy.disk) = Toy.disk /\
  snd (PNGCompressor.Compress (P := Toy.platform) "photos/broken.jpg" DefaultOptions
         Toy.disk) = Toy.disk /\
  Success (fst (fst (JPEGCompressor.Compress (P := Toy.platform) "photos/broken.jpg"
                       DefaultOptions Toy.disk))) = false /\
  Success (fst (fst (PNGCompressor.Compress (P := Toy.platform) "photos/broken.jpg"
                       DefaultOptions Toy.disk))) = false.
Proof.
  apply (Compress_writes_after_decode Toy.platform "photos/broken.jpg" DefaultOptions
           Toy.disk).
  right. exists "image: unknown format". reflexivity.
Defined.

Lemma Compress_result_dimensions_witness :
  let jpeg := fst (fst (JPEGCompressor.Compress (P := Toy.platform) "photos/cat.jpg"
                          Toy.width_400 Toy.disk)) in
  let png := fst (fst (PNGCompressor.Compress (P := Toy.platform) "photos/cat.jpg"
                         Toy.width_400 Toy.disk)) in
  (Width jpeg, Height jpeg) = resizeTarget (P := Toy.platform) 800 600 Toy.width_400 /\
  (Width png, Height png) = resizeTarget (P := Toy.platform) 800 600 Toy.width_400.
Proof.
  apply (Compress_result_dimensions Toy.platform "photos/cat.jpg" Toy.width_400
           Toy.disk 2000000 (Toy.picture 800 600)).
  - intros img w h _ _ _ _. split; reflexivity.
  - reflexivity.
  - reflexivity.
  - simpl. lia.
  - simpl. lia.
  - vm_compute. reflexivity.
  - vm_compute. reflexivity.
Defined.

Lemma GetImageInfo_format_witness :
  let info := {| Info.Path := "photos/cat.jpg"; Info.Format := FormatJPEG;
                 Info.Width := 800; Info.Height := 600; Info.Size := 2000000;
                 Info.ColorMode := "jpeg" |} in
  Info.Path info = "photos/cat.jpg" /\
  (Info.Format info = FormatJPEG \/ Info.Format info = FormatPNG) /\
  (forall format, GetImageFormat "photos/cat.jpg" = inr format ->
                  Info.Format info = format) /\
  (supported "photos/cat.jpg" = false -> Info.Format info = Info.ColorMode info).
Proof.
  apply (GetImageInfo_format Toy.platform "photos/cat.jpg" Toy.disk Toy.disk).
  reflexivity.
Defined.

Lemma ScanDirectory_flat_witness :
  ScanDirectory (F := Album.files) "photos" false Toy.disk
  = found (flat_files (os_Lstat (FileSystem := Album.files) "photos" Toy.disk)
             "photos").
Proof.
  apply (ScanDirectory_flat Toy.platform Album.files "photos" Toy.disk).
  vm_compute. repeat constructor.
Defined.

Lemma ScanDirectory_feeds_BatchCompress_witness :
  Forall (fun path => supported path = true)
         ["photos/broken.jpg"; "photos/cat.jpg"; "photos/dot.png"] /\
  ~ BatchCompress_panics (P := Toy.platform) DefaultOptions true
      ["photos/broken.jpg"; "photos/cat.jpg"; "photos/dot.png"] Toy.disk /\
  exists res,
    BatchCompress_returns (P := Toy.platform) DefaultOptions true
      ["photos/broken.jpg"; "photos/cat.jpg"; "photos/dot.png"] Toy.disk res.
Proof.
  apply (ScanDirectory_feeds_BatchCompress Toy.platform Album.files "photos" false
           Toy.disk Toy.disk
           ["photos/broken.jpg"; "photos/cat.jpg"; "photos/dot.png"]
           DefaultOptions true).
  reflexivity.
Defined.

(** The two modes on the tree of the album, and on a tree with a
    subdirectory that cannot be read: the scan that would not enter it
    fails all the same. *)
Example ScanDirectory_values :
  ScanDirectory (F := Album.files) "photos" true Toy.disk
  = inr ["photos/broken.jpg"; "photos/cat.jpg"; "photos/dot.png";
         "photos/raw/cat.JPG"] /\
  ScanDirectory (F := Album.files) "photos" false Toy.disk
  = inr ["photos/broken.jpg"; "photos/cat.jpg"; "photos/dot.png"] /\
  ScanDirectory (F := Album.files) "photos/cat.jpg" false Toy.disk
  = inr ["photos/cat.jpg"] /\
  ScanDirectory (F := Album.locked) "photos" false Toy.disk
  = inl "failed to scan directory: permission denied".
Proof. vm_compute. repeat split. Qed.
